(** * quicklog: a shallow embedding of [quicklog.h] and its properties

    The header is embedded class by class: the two-counter [semaphore],
    [alignedSize], [LogEntry], [EntryBuffer], [LocalLogger] and
    [LogServer].  Machine integers are [Z] with their wrap-around written
    out, arrays are lists read and written by index (an index outside the
    array is undefined behaviour and shows up as the outcome [Undef]), and
    every member function is a computation in a small monad that threads the
    object it works on, records what the program does to the outside world
    (print callable, error hook, platform adapter) and can stop early.

    Threads are interleaved at the level of calls: a call of [log], [flush]
    or [dump] runs as one step, and the other threads act on the consumer's
    world while it is inside [platform.wait()]. *)

From Stdlib Require Import ZArith Lia.
From stdpp Require Import base tactics option list numbers strings.

Local Open Scope Z_scope.

(** ** Machine integers *)

(** [size_t] is 64 bits wide and [uint8_t] 8 bits; a result that does not fit
    is reduced modulo the width. *)
Definition SIZE_WIDTH : Z := 2 ^ 64.
Definition PTRDIFF_MAX : Z := 2 ^ 63 - 1.

Definition size_t (z : Z) : Z := z mod SIZE_WIDTH.
Definition uint8_t (z : Z) : Z := z mod 256.

(** ** What the program does to the outside world *)

Inductive event : Type :=
  | EvError (msg : string)   (* QUICKLOG_ERROR(msg) *)
  | EvPrint (args : list Z)  (* QUICKLOG_PRINT(args...) *)
  | EvWait                   (* platform.wait() *)
  | EvNotify                 (* platform.notify() *)
  | EvLock                   (* platform.lock() *)
  | EvUnlock.                (* platform.unlock() *)

#[global] Instance event_eq_dec : EqDecision event.
Proof. solve_decision. Defined.

(** [QUICKLOG_ERROR] is a macro the host may redefine.  The default prints
    and calls [exit(1)]; a host-defined hook may return to the caller. *)
Inductive ErrorHook : Type := HookExits | HookReturns.

(** How a member function ends: it returns, the process has exited inside
    the error hook, or the behaviour is undefined (an array indexed outside
    its bounds, an object read where none is stored).  [OutOfFuel] is not a
    behaviour of the program: it marks a run of one of the two unbounded
    loops of [LogServer] that was cut by the iteration bound given to it. *)
Inductive outcome (A : Type) : Type :=
  | Ret (a : A)
  | Exit
  | Undef
  | OutOfFuel.
Arguments Ret {A} a.
Arguments Exit {A}.
Arguments Undef {A}.
Arguments OutOfFuel {A}.

(** A computation over an object of type [St]: the events it produced, in
    order, and how it ended. *)
Definition M (St A : Type) : Type := St → list event * outcome (A * St).

Definition M_ret {St A} (a : A) : M St A := λ s, ([], Ret (a, s)).

Definition M_bind {St A B} (f : A → M St B) (m : M St A) : M St B :=
  λ s, match m s with
       | (tr, Ret (a, s')) => let '(tr', o) := f a s' in (tr ++ tr', o)
       | (tr, Exit) => (tr, Exit)
       | (tr, Undef) => (tr, Undef)
       | (tr, OutOfFuel) => (tr, OutOfFuel)
       end.

#[global] Instance M_mret {St} : MRet (M St) := @M_ret St.
#[global] Instance M_mbind {St} : MBind (M St) := @M_bind St.

Definition get {St} : M St St := λ s, ([], Ret (s, s)).
Definition gets {St A} (f : St → A) : M St A := s ← get; mret (f s).
Definition modify {St} (f : St → St) : M St unit := λ s, ([], Ret (tt, f s)).
Definition emit {St} (e : event) : M St unit := λ s, ([e], Ret (tt, s)).
Definition exit {St A} : M St A := λ _, ([], Exit).
Definition undefined {St A} : M St A := λ _, ([], Undef).
Definition out_of_fuel {St A} : M St A := λ _, ([], OutOfFuel).

(** The events [tr] followed by the run [r]. *)
Definition after_events {X} (tr : list event) (r : list event * X) : list event * X :=
  (tr ++ r.1, r.2).

(** Run a computation on a part of the object: [proj] selects the part (and
    fails when the part does not exist), [upd] puts the new part back. *)
Definition zoom {St T A} (proj : St → option T) (upd : T → St → St)
    (m : M T A) : M St A :=
  λ s, match proj s with
       | None => ([], Undef)
       | Some t =>
           match m t with
           | (tr, Ret (a, t')) => (tr, Ret (a, upd t' s))
           | (tr, Exit) => (tr, Exit)
           | (tr, Undef) => (tr, Undef)
           | (tr, OutOfFuel) => (tr, OutOfFuel)
           end
       end.

(** ** Build configuration

    [QUICKLOG_ALIGN] is [alignof(std::max_align_t)], a constant of the
    platform; [QUICKLOG_ERROR] is the error hook the host compiled in. *)
Class Config : Type := mkConfig {
  QUICKLOG_ALIGN : Z;
  error_hook : ErrorHook
}.

Definition QUICKLOG_ERROR `{!Config} {St} (msg : string) : M St unit :=
  emit (EvError msg) ;;
  match error_hook with
  | HookReturns => mret tt
  | HookExits => exit
  end.

(** The platform adapter.  Its four operations are host code; the model
    records the calls.  While the consumer is inside [wait] the other threads
    run: [others] is what they did to the state meanwhile. *)
Module Platform.
Definition wait {St} (others : St → St) : M St unit :=
  emit EvWait ;; modify others.
Definition notify {St} : M St unit := emit EvNotify.
Definition lock {St} : M St unit := emit EvLock.
Definition unlock {St} : M St unit := emit EvUnlock.
End Platform.

(** ** detail::LogServerBase *)
Module LogServerBase.
(** The one implementation of the virtual [_onDumpAvail] is
    [LogServer::_onDumpAvail], which calls [platform.notify()]. *)
Definition _onDumpAvail {St} : M St unit := Platform.notify.
End LogServerBase.

(** ** detail::semaphore *)
Module semaphore.
Record t : Type := mk {
  numPuts : Z;   (* volatile uint8_t *)
  numGets : Z    (* volatile uint8_t *)
}.

Definition init : t := mk 0 0.

Definition put : M t unit :=
  modify (λ s, mk (uint8_t (numPuts s + 1)) (numGets s)).

Definition peek : M t Z :=
  s ← get; mret (uint8_t (numPuts s - numGets s)).

Definition get `{!Config} : M t unit :=
  s ← get;
  (if decide (numPuts s = numGets s)
   then QUICKLOG_ERROR "get called on non-gettable semaphore.\n"
   else mret tt) ;;
  modify (λ s, mk (numPuts s) (uint8_t (numGets s + 1))).
End semaphore.

(** ** detail::alignedSize *)
Definition alignedSize `{!Config} (sz : Z) : Z :=
  if decide (sz mod QUICKLOG_ALIGN ≠ 0)
  then size_t (sz + (QUICKLOG_ALIGN - sz mod QUICKLOG_ALIGN))
  else sz.

(** ** detail::LogEntry *)
Module LogEntry.
(** An instantiation [LogEntry<Ts...>] of the class template.  The code
    depends on its [sizeof] (fixed by the platform's layout of the vtable
    pointer, the [size] member and the tuple) and on how many values the
    tuple holds.  The vtable pointer of an object names its class. *)
Record class : Type := mkClass {
  sizeof : Z;
  arity : nat
}.

Record t : Type := mk {
  vptr : class;
  size : Z;              (* LogEntryBase::size *)
  values : list Z        (* std::tuple<Ts...> values *)
}.

(** [LogEntry() : LogEntryBase(0)], the tuple value-initialised. *)
Definition default (c : class) : t := mk c 0 (replicate (arity c) 0).

(** [LogEntry(Ts... args) : LogEntryBase(sizeof( *this)), values(args...)]. *)
Definition make (c : class) (args : list Z) : t := mk c (sizeof c) args.

(** [*dest = elem]: the implicit copy assignment copies the members and
    leaves the vtable pointer of [dest] alone. *)
Definition assign (dest elem : t) : t := mk (vptr dest) (size elem) (values elem).

(** [entry->printSelf()], dispatched through the vtable pointer:
    [callPrintFunc(values)] expands to [QUICKLOG_PRINT(std::get<I>(t)...)],
    the stored values in their order. *)
Definition printSelf {St} (entry : t) : M St unit := emit (EvPrint (values entry)).

#[global] Instance class_eq_dec : EqDecision class.
Proof. solve_decision. Defined.
#[global] Instance eq_dec : EqDecision t.
Proof. solve_decision. Defined.
End LogEntry.

(** ** The bytes of an arena

    A byte of [m_buffer] is either not part of any object or the [k]-th byte
    of a stored LogEntry object.  An object can be used through a pointer to
    offset [p] only when all its bytes are there, in order, from [p] on. *)
Inductive mbyte : Type :=
  | Uninit
  | ObjByte (e : LogEntry.t) (k : nat).

#[global] Instance mbyte_eq_dec : EqDecision mbyte.
Proof. solve_decision. Defined.

Definition obj_sizeof (e : LogEntry.t) : nat :=
  Z.to_nat (LogEntry.sizeof (LogEntry.vptr e)).

Definition obj_bytes (e : LogEntry.t) : list mbyte :=
  ObjByte e <$> seq 0 (obj_sizeof e).

(** Writing an object at offset [p]; [None] when it would not fit in the
    array. *)
Definition store (p : Z) (e : LogEntry.t) (buf : list mbyte) : option (list mbyte) :=
  if decide (0 ≤ p ∧ (Z.to_nat p + obj_sizeof e ≤ length buf)%nat)
  then Some (take (Z.to_nat p) buf ++ obj_bytes e
               ++ drop (Z.to_nat p + obj_sizeof e)%nat buf)
  else None.

(** Using the object at offset [p]; [None] when there is no complete object
    at that offset. *)
Definition load (p : Z) (buf : list mbyte) : option LogEntry.t :=
  match buf !! Z.to_nat p with
  | Some (ObjByte e O) =>
      if decide (0 ≤ p ∧ take (obj_sizeof e) (drop (Z.to_nat p) buf) = obj_bytes e)
      then Some e else None
  | _ => None
  end.

(** ** detail::EntryBuffer *)
Module EntryBuffer.
Record t : Type := mk {
  size : Z;                 (* template parameter: bytes in m_buffer *)
  m_count : Z;              (* size_t *)
  m_pos : Z;                (* size_t *)
  m_buffer : list mbyte     (* uint8_t m_buffer[size] *)
}.

Definition init (size : Z) : t :=
  mk size 0 0 (replicate (Z.to_nat size) Uninit).

Definition set_m_buffer (buf : list mbyte) (b : t) : t :=
  mk (size b) (m_count b) (m_pos b) buf.
Definition set_m_pos (pos : Z) (b : t) : t :=
  mk (size b) (m_count b) pos (m_buffer b).
Definition set_m_count (count : Z) (b : t) : t :=
  mk (size b) count (m_pos b) (m_buffer b).

(** Construct or assign the object at [&m_buffer[p]]. *)
Definition write (p : Z) (e : LogEntry.t) : M t unit :=
  λ b, match store p e (m_buffer b) with
       | Some buf => ([], Ret (tt, set_m_buffer buf b))
       | None => ([], Undef)
       end.

(** Use the object at [&m_buffer[p]] through a [LogEntryBase*]. *)
Definition read (p : Z) : M t LogEntry.t :=
  b ← get;
  match load p (m_buffer b) with
  | Some e => mret e
  | None => undefined
  end.

Definition pushElem `{!Config} (elem : LogEntry.t) : M t bool :=
  let align_sz := alignedSize (LogEntry.sizeof (LogEntry.vptr elem)) in
  b ← get;
  if decide (size_t (align_sz + m_pos b) > size b) then mret false
  else
    let dest := m_pos b in
    write dest (LogEntry.default (LogEntry.vptr elem)) ;;
    write dest (LogEntry.assign (LogEntry.default (LogEntry.vptr elem)) elem) ;;
    modify (λ b, set_m_pos (size_t (m_pos b + align_sz)) b) ;;
    modify (λ b, set_m_count (size_t (m_count b + 1)) b) ;;
    mret true.

Definition clear : M t unit :=
  modify (set_m_count 0) ;; modify (set_m_pos 0).

Definition isEmpty : M t bool :=
  b ← get; mret (bool_decide (m_pos b = 0)).

(** The body of [dump]'s loop, run for the [n] iterations that are left. *)
Fixpoint dump_loop `{!Config} (n : nat) (dump_pos : Z) : M t unit :=
  match n with
  | O => mret tt
  | S n' =>
      entry ← read dump_pos;
      LogEntry.printSelf entry ;;
      dump_loop n' (size_t (dump_pos + alignedSize (LogEntry.size entry)))
  end.

Definition dump `{!Config} : M t unit :=
  b ← get;
  dump_loop (Z.to_nat (m_count b)) 0 ;;
  clear.
End EntryBuffer.

(** ** LocalLogger *)
Module LocalLogger.
Record t : Type := mk {
  numBuffers : Z;                     (* template parameter *)
  bufferSize : Z;                     (* template parameter *)
  buffers : list EntryBuffer.t;       (* EntryBuffer<bufferSize> buffers[numBuffers] *)
  writeIndex : Z;                     (* volatile uint8_t *)
  readIndex : Z;                      (* volatile uint8_t *)
  buffersFull : semaphore.t;
  server : option nat                 (* LogServerBase*, nullptr = None *)
}.

Definition init (numBuffers bufferSize : Z) : t :=
  mk numBuffers bufferSize
     (replicate (Z.to_nat numBuffers) (EntryBuffer.init bufferSize))
     0 0 semaphore.init None.

Definition set_buffers (bs : list EntryBuffer.t) (l : t) : t :=
  mk (numBuffers l) (bufferSize l) bs (writeIndex l) (readIndex l)
     (buffersFull l) (server l).
Definition set_writeIndex (i : Z) (l : t) : t :=
  mk (numBuffers l) (bufferSize l) (buffers l) i (readIndex l)
     (buffersFull l) (server l).
Definition set_readIndex (i : Z) (l : t) : t :=
  mk (numBuffers l) (bufferSize l) (buffers l) (writeIndex l) i
     (buffersFull l) (server l).
Definition set_buffersFull (s : semaphore.t) (l : t) : t :=
  mk (numBuffers l) (bufferSize l) (buffers l) (writeIndex l) (readIndex l)
     s (server l).
Definition set_server (s : option nat) (l : t) : t :=
  mk (numBuffers l) (bufferSize l) (buffers l) (writeIndex l) (readIndex l)
     (buffersFull l) s.

(** [buffers[i].m]: outside the array there is no arena. *)
Definition at_buffer {A} (i : Z) (m : M EntryBuffer.t A) : M t A :=
  zoom (λ l, buffers l !! Z.to_nat i)
       (λ b l, set_buffers (<[Z.to_nat i := b]> (buffers l)) l) m.

(** [buffersFull.m]. *)
Definition at_buffersFull {A} (m : M semaphore.t A) : M t A :=
  zoom (λ l, Some (buffersFull l)) set_buffersFull m.

Definition full : M t bool :=
  n ← at_buffersFull semaphore.peek;
  N ← gets numBuffers;
  mret (bool_decide (n = N)).

Definition nextIndex `{!Config} : M t unit :=
  f ← full;
  if negb f then
    l ← get;
    (if decide (numBuffers l = 0) then undefined   (* % 0 *)
     else modify (set_writeIndex
                    (uint8_t ((writeIndex l + 1) mod numBuffers l)))) ;;
    at_buffersFull semaphore.put ;;
    match server l with
    | None => QUICKLOG_ERROR "LocalLogger not registered to LogServer\n"
    | Some _ => LogServerBase._onDumpAvail
    end
  else QUICKLOG_ERROR "localLogger full, can't nextIndex()".

(** [log(vs...)] for the argument types [Ts...] whose entry class is [c]. *)
Definition log `{!Config} (c : LogEntry.class) (vs : list Z) : M t unit :=
  f ← full;
  if (f : bool) then
    QUICKLOG_ERROR "LocalLogger full. Can't log()\n" ;;
    mret tt                                          (* return; *)
  else
    let ent := LogEntry.make c vs in
    w ← gets writeIndex;
    success ← at_buffer w (EntryBuffer.pushElem ent);
    if negb success then
      nextIndex ;;
      w ← gets writeIndex;
      success ← at_buffer w (EntryBuffer.pushElem ent);
      if negb success then
        QUICKLOG_ERROR "Log entries bigger than buffer size\n"
      else mret tt
    else mret tt.

Definition flush `{!Config} : M t unit :=
  w ← gets writeIndex;
  e ← at_buffer w EntryBuffer.isEmpty;
  if negb e then nextIndex else mret tt.

(** The two [QUICKLOG_MEMORY_FENCE]s are compiler barriers; they have no
    effect of their own on the state. *)
Definition dump `{!Config} : M t bool :=
  n ← at_buffersFull semaphore.peek;
  if decide (n ≠ 0) then
    r ← gets readIndex;
    at_buffer r EntryBuffer.dump ;;
    modify (λ l, set_readIndex (uint8_t (readIndex l + 1)) l) ;;
    at_buffersFull semaphore.get ;;
    mret true
  else mret false.
End LocalLogger.

(** ** LogServer *)
Module LogServer.
Record t : Type := mk {
  maxLoggers : Z;                       (* template parameter *)
  localLoggers : list (option nat);     (* std::array<LocalLoggerBase*, maxLoggers>;
                                           None = a slot never assigned *)
  nLoggers : Z;                         (* size_t *)
  run : bool                            (* volatile bool *)
}.

Definition init (maxLoggers : Z) : t :=
  mk maxLoggers (replicate (Z.to_nat maxLoggers) None) 0 true.

(** The server works on objects it only holds pointers to.  The state of
    its member functions is therefore the server object, its address and
    the store of LocalLogger objects, a logger's address being its index
    in the store; two registry slots holding the same address share the
    logger. *)
Record World : Type := mkWorld {
  this : nat;
  server : t;
  loggers : list LocalLogger.t
}.

Definition set_server (s : t) (w : World) : World :=
  mkWorld (this w) s (loggers w).
Definition set_loggers (ls : list LocalLogger.t) (w : World) : World :=
  mkWorld (this w) (server w) ls.

Definition set_localLoggers (a : list (option nat)) (s : t) : t :=
  mk (maxLoggers s) a (nLoggers s) (run s).
Definition set_nLoggers (n : Z) (s : t) : t :=
  mk (maxLoggers s) (localLoggers s) n (run s).
Definition set_run (r : bool) (s : t) : t :=
  mk (maxLoggers s) (localLoggers s) (nLoggers s) r.

(** [logger.m] for the logger object at address [a]. *)
Definition at_logger {A} (a : nat) (m : M LocalLogger.t A) : M World A :=
  zoom (λ w, loggers w !! a)
       (λ l w, set_loggers (<[a := l]> (loggers w)) w) m.

Definition modify_server (f : t → t) : M World unit :=
  modify (λ w, set_server (f (server w)) w).

Definition addLogger `{!Config} (logger : nat) : M World unit :=
  Platform.lock ;;
  s ← gets server;
  (if decide (nLoggers s = maxLoggers s) then
     QUICKLOG_ERROR "Attempt to add more than maxLoggers loggers to LogServer.\n"
   else
     (if decide (0 ≤ nLoggers s ∧ (Z.to_nat (nLoggers s) < length (localLoggers s))%nat)
      then modify_server (λ s, set_localLoggers
                 (<[Z.to_nat (nLoggers s) := Some logger]> (localLoggers s)) s)
      else undefined) ;;
     modify_server (λ s, set_nLoggers (size_t (nLoggers s + 1)) s)) ;;
  w ← get;
  at_logger logger (modify (LocalLogger.set_server (Some (this w)))) ;;
  Platform.unlock.

Definition shutdown : M World unit :=
  modify_server (set_run false) ;;
  Platform.notify.

(** One run of the [for] loop of [_dumpAll] over the indices [ixs]. *)
Fixpoint dump_loggers `{!Config} (ixs : list nat) (didSomething : bool)
    : M World bool :=
  match ixs with
  | [] => mret didSomething
  | i :: ixs' =>
      s ← gets server;
      match localLoggers s !! i with
      | Some (Some a) =>
          d ← at_logger a LocalLogger.dump;
          dump_loggers ixs' (didSomething || d)
      | _ => undefined
      end
  end.

(** The [do ... while(didSomething)] loop, cut after [fuel] rounds. *)
Fixpoint dumpAll_loop `{!Config} (fuel : nat) : M World unit :=
  match fuel with
  | O => out_of_fuel
  | S fuel' =>
      s ← gets server;
      didSomething ← dump_loggers (seq 0 (Z.to_nat (nLoggers s))) false;
      if (didSomething : bool) then dumpAll_loop fuel' else mret tt
  end.

Definition _dumpAll `{!Config} (fuel : nat) : M World unit :=
  Platform.lock ;;
  dumpAll_loop fuel ;;
  Platform.unlock.

(** [_process].  The consumer gives way to the other threads in
    [platform.wait()]: [others] lists what they do to the world during its
    successive waits.  When the list is used up and [run] is still set, the
    consumer is left waiting.  [fuel] is the bound given to each
    [_dumpAll]. *)
Fixpoint _process `{!Config} (fuel : nat) (others : list (World → World))
    : M World unit :=
  w ← get;
  if run (server w) then
    match others with
    | [] => out_of_fuel
    | o :: others' =>
        Platform.wait o ;;
        _dumpAll fuel ;;
        _process fuel others'
    end
  else _dumpAll fuel.

Definition process `{!Config} := _process.

Definition _onDumpAvail {St} : M St unit := @LogServerBase._onDumpAvail St.
End LogServer.

(** * Notions used in the statements *)

(** The value [peek] returns in state [s]. *)
Definition sem_count (s : semaphore.t) : Z :=
  uint8_t (semaphore.numPuts s - semaphore.numGets s).

(** A caller of the semaphore: the producer's [put] or the consumer's
    [get] (the spec's take). *)
Inductive sem_op : Type := Put | Take.

#[global] Instance sem_op_eq_dec : EqDecision sem_op.
Proof. solve_decision. Defined.

Definition run_sem_op `{!Config} (o : sem_op) : M semaphore.t unit :=
  match o with
  | Put => semaphore.put
  | Take => semaphore.get
  end.

Fixpoint run_sem_ops `{!Config} (ops : list sem_op) : M semaphore.t unit :=
  match ops with
  | [] => mret tt
  | o :: ops' => run_sem_op o ;; run_sem_ops ops'
  end.

(** Every [Take] of [ops], run from [s], finds the count nonzero. *)
Fixpoint takes_guarded (ops : list sem_op) (s : semaphore.t) : Prop :=
  match ops with
  | [] => True
  | Put :: ops' =>
      takes_guarded ops'
        (semaphore.mk (uint8_t (semaphore.numPuts s + 1)) (semaphore.numGets s))
  | Take :: ops' =>
      sem_count s ≠ 0 ∧
      takes_guarded ops'
        (semaphore.mk (semaphore.numPuts s) (uint8_t (semaphore.numGets s + 1)))
  end.

Definition count_op (o : sem_op) (ops : list sem_op) : Z :=
  Z.of_nat (length (filter (λ x, x = o) ops)).

(** What the error hook leaves of a call that invoked it last: the state
    [s] if the hook returns, nothing if the process exited in it. *)
Definition after_hook `{!Config} {St} (s : St) : outcome (unit * St) :=
  match error_hook with
  | HookReturns => Ret (tt, s)
  | HookExits => Exit
  end.

(** An entry class whose objects, padding included, are of a size objects
    can have. *)
Definition class_ok `{!Config} (c : LogEntry.class) : Prop :=
  0 < LogEntry.sizeof c ∧ LogEntry.sizeof c + QUICKLOG_ALIGN ≤ PTRDIFF_MAX.

(** The states of an arena: [m_pos] within the array, which has the [size]
    bytes of the template parameter, and at most one record per byte used. *)
Definition buffer_ok (b : EntryBuffer.t) : Prop :=
  0 ≤ EntryBuffer.m_count b ≤ EntryBuffer.m_pos b ∧
  EntryBuffer.m_pos b ≤ EntryBuffer.size b ∧
  EntryBuffer.size b ≤ PTRDIFF_MAX ∧
  length (EntryBuffer.m_buffer b) = Z.to_nat (EntryBuffer.size b).

(** The object [pushElem] leaves in the arena for [elem]. *)
Definition stored (elem : LogEntry.t) : LogEntry.t :=
  LogEntry.assign (LogEntry.default (LogEntry.vptr elem)) elem.

(** An entry as [log] constructs it: of a possible class, with the [size]
    member the constructor gave it. *)
Definition entry_ok `{!Config} (e : LogEntry.t) : Prop :=
  class_ok (LogEntry.vptr e) ∧ LogEntry.size e = LogEntry.sizeof (LogEntry.vptr e).

(** The bytes a sequence of records takes in an arena, padding included. *)
Fixpoint extent `{!Config} (es : list LogEntry.t) : Z :=
  match es with
  | [] => 0
  | e :: es' => alignedSize (LogEntry.sizeof (LogEntry.vptr e)) + extent es'
  end.

(** The offsets of the records [es] laid one after the other from [p]. *)
Fixpoint offsets_from `{!Config} (p : Z) (es : list LogEntry.t) : list Z :=
  match es with
  | [] => []
  | e :: es' =>
      p :: offsets_from (p + alignedSize (LogEntry.sizeof (LogEntry.vptr e))) es'
  end.

(** The objects [es] are in [buf], complete, at those offsets. *)
Fixpoint laid_out `{!Config} (p : Z) (es : list LogEntry.t) (buf : list mbyte) : Prop :=
  match es with
  | [] => True
  | e :: es' =>
      load p buf = Some e ∧
      laid_out (p + alignedSize (LogEntry.sizeof (LogEntry.vptr e))) es' buf
  end.

(** An arena that holds exactly the records [es]. *)
Definition arena_holds `{!Config} (es : list LogEntry.t) (b : EntryBuffer.t) : Prop :=
  buffer_ok b ∧
  EntryBuffer.m_count b = Z.of_nat (length es) ∧
  EntryBuffer.m_pos b = extent es ∧
  laid_out 0 es (EntryBuffer.m_buffer b).

(** [pushElem] called on each of [es] in turn; for every call, the offset
    [&m_buffer[m_pos]] it was to write at and whether it accepted. *)
Fixpoint push_all `{!Config} (es : list LogEntry.t) : M EntryBuffer.t (list (Z * bool)) :=
  match es with
  | [] => mret []
  | e :: es' =>
      p ← gets EntryBuffer.m_pos;
      ok ← EntryBuffer.pushElem e;
      r ← push_all es';
      mret ((p, ok) :: r)
  end.

(** The offsets the loop of [dump] reads at, with the object it finds at
    each; the loop stops at an offset where there is none. *)
Fixpoint dump_reads `{!Config} (n : nat) (dump_pos : Z) (buf : list mbyte)
    : list (Z * option LogEntry.t) :=
  match n with
  | O => []
  | S n' =>
      (dump_pos, load dump_pos buf) ::
      match load dump_pos buf with
      | Some entry =>
          dump_reads n' (size_t (dump_pos + alignedSize (LogEntry.size entry))) buf
      | None => []
      end
  end.

(** What a walk with those reads prints, and how it ends. *)
Fixpoint reads_trace (rs : list (Z * option LogEntry.t)) : list event :=
  match rs with
  | [] => []
  | (_, Some e) :: rs' => EvPrint (LogEntry.values e) :: reads_trace rs'
  | (_, None) :: _ => []
  end.

Definition reads_complete (rs : list (Z * option LogEntry.t)) : bool :=
  forallb (λ r, bool_decide (is_Some r.2)) rs.

(** The value [buffersFull.peek()] returns in the logger [l]. *)
Definition logger_count (l : LocalLogger.t) : Z :=
  sem_count (LocalLogger.buffersFull l).

(** The logger [l] after the producer has advanced: [writeIndex] moved on
    modulo [numBuffers] and one more [put]. *)
Definition advanced (l : LocalLogger.t) : LocalLogger.t :=
  LocalLogger.mk (LocalLogger.numBuffers l) (LocalLogger.bufferSize l)
    (LocalLogger.buffers l)
    (uint8_t ((LocalLogger.writeIndex l + 1) mod LocalLogger.numBuffers l))
    (LocalLogger.readIndex l)
    (semaphore.mk (uint8_t (semaphore.numPuts (LocalLogger.buffersFull l) + 1))
                  (semaphore.numGets (LocalLogger.buffersFull l)))
    (LocalLogger.server l).

(** The logger [l] after the consumer has taken an arena: [readIndex]
    incremented and one more [get]; [bs] are the arenas it leaves. *)
Definition taken (bs : list EntryBuffer.t) (l : LocalLogger.t) : LocalLogger.t :=
  LocalLogger.mk (LocalLogger.numBuffers l) (LocalLogger.bufferSize l) bs
    (LocalLogger.writeIndex l)
    (uint8_t (LocalLogger.readIndex l + 1))
    (semaphore.mk (semaphore.numPuts (LocalLogger.buffersFull l))
                  (uint8_t (semaphore.numGets (LocalLogger.buffersFull l) + 1)))
    (LocalLogger.server l).

(** The states of a logger as far as the producer's indexing goes: at least
    one arena, as many arenas as the template parameter says, each in one of
    its states and of the logger's [bufferSize], and [writeIndex] inside
    the array. *)
Definition logger_ok (l : LocalLogger.t) : Prop :=
  1 ≤ LocalLogger.numBuffers l ∧
  length (LocalLogger.buffers l) = Z.to_nat (LocalLogger.numBuffers l) ∧
  0 ≤ LocalLogger.writeIndex l < LocalLogger.numBuffers l ∧
  Forall (λ b, buffer_ok b ∧ EntryBuffer.size b = LocalLogger.bufferSize l)
         (LocalLogger.buffers l).

(** The calls made on a logger: the producer's [log] and [flush] and the
    consumer's [dump]. *)
Inductive logger_op : Type :=
  | OpLog (c : LogEntry.class) (vs : list Z)
  | OpFlush
  | OpDump.

Definition run_logger_op `{!Config} (o : logger_op) : M LocalLogger.t unit :=
  match o with
  | OpLog c vs => LocalLogger.log c vs
  | OpFlush => LocalLogger.flush
  | OpDump => LocalLogger.dump ;; mret tt
  end.

Fixpoint run_logger_ops `{!Config} (ops : list logger_op) : M LocalLogger.t unit :=
  match ops with
  | [] => mret tt
  | o :: ops' => run_logger_op o ;; run_logger_ops ops'
  end.

(** The states a logger started in [l0] can be in after any sequence of
    such calls that returned. *)
Inductive reachable `{!Config} (l0 : LocalLogger.t) : LocalLogger.t → Prop :=
  | reachable_start : reachable l0 l0
  | reachable_step l o tr l' :
      reachable l0 l → run_logger_op o l = (tr, Ret (tt, l')) → reachable l0 l'.

(** The consumer's loop taken [length others] times: wait, then drain
    all. *)
Fixpoint rounds `{!Config} (fuel : nat) (others : list (LogServer.World → LogServer.World))
    : M LogServer.World unit :=
  match others with
  | [] => mret tt
  | o :: others' =>
      Platform.wait o ;; LogServer._dumpAll fuel ;; rounds fuel others'
  end.

(** The arenas handed over and not yet taken, over all loggers there are. *)
Definition pending (w : LogServer.World) : Z :=
  foldr (λ l n, logger_count l + n) 0 (LogServer.loggers w).

(** A computation that is not cut short by an iteration bound, whatever the
    state it starts in. *)
Definition bounded {St A} (m : M St A) : Prop := ∀ s, (m s).2 ≠ OutOfFuel.

(** A computation that does not invoke the print callable. *)
Definition not_print (e : event) : Prop :=
  match e with EvPrint _ => False | _ => True end.

Definition silent {St A} (m : M St A) : Prop := ∀ s, Forall not_print (m s).1.

(** The producer logs the records [rs] in order, then flushes. *)
Fixpoint log_all `{!Config} (rs : list (LogEntry.class * list Z)) : M LocalLogger.t unit :=
  match rs with
  | [] => mret tt
  | r :: rs' => LocalLogger.log r.1 r.2 ;; log_all rs'
  end.

Definition produce `{!Config} (rs : list (LogEntry.class * list Z)) : M LocalLogger.t unit :=
  log_all rs ;; LocalLogger.flush.

(** The consumer calls [dump] on the logger until it reports nothing done;
    cut after [fuel] calls. *)
Fixpoint drain `{!Config} (fuel : nat) : M LocalLogger.t unit :=
  match fuel with
  | O => out_of_fuel
  | S fuel' => d ← LocalLogger.dump; if (d : bool) then drain fuel' else mret tt
  end.

(** The argument lists the print callable was invoked with, in order. *)
Definition printed (tr : list event) : list (list Z) :=
  omap (λ e, match e with EvPrint vs => Some vs | _ => None end) tr.

(** The error hook was not invoked. *)
Definition no_errors (tr : list event) : Prop := ∀ msg, EvError msg ∉ tr.

(** An arena of [B] bytes that holds the well-made records [es]. *)
Definition arena `{!Config} (B : Z) (es : list LogEntry.t) (b : EntryBuffer.t) : Prop :=
  arena_holds es b ∧ EntryBuffer.size b = B ∧ Forall entry_ok es.

(** A logger the consumer has not touched and whose producer has not gone
    round the ring: the arenas before [writeIndex] hold the chunks [done],
    in order, and are handed over; the arena at [writeIndex] holds [cur];
    the arenas after it are empty. *)
Definition producing `{!Config} (N B : Z) (done : list (list LogEntry.t))
    (cur : list LogEntry.t) (l : LocalLogger.t) : Prop :=
  ∃ bs_done b_cur bs_free,
    LocalLogger.buffers l = bs_done ++ b_cur :: bs_free ∧
    Forall2 (arena B) done bs_done ∧ arena B cur b_cur ∧
    Forall (arena B []) bs_free ∧
    LocalLogger.numBuffers l = N ∧
    Z.of_nat (length (LocalLogger.buffers l)) = N ∧
    LocalLogger.writeIndex l = Z.of_nat (length done) ∧
    LocalLogger.readIndex l = 0 ∧
    LocalLogger.buffersFull l = semaphore.mk (Z.of_nat (length done)) 0.

(** A logger whose producer has gone round the ring: every arena is handed
    over, and the arena at [writeIndex] is not empty. *)
Definition wrapped (l : LocalLogger.t) : Prop :=
  logger_count l = LocalLogger.numBuffers l ∧
  ∃ b, LocalLogger.buffers l !! Z.to_nat (LocalLogger.writeIndex l) = Some b ∧
       EntryBuffer.m_pos b ≠ 0.

(** A logger the consumer is draining: it has taken the first [j] arenas;
    the next ones hold the chunks [handed], in order, and are handed over. *)
Definition draining `{!Config} (N B : Z) (j : nat) (handed : list (list LogEntry.t))
    (l : LocalLogger.t) : Prop :=
  ∃ bs_taken bs_handed bs_rest,
    LocalLogger.buffers l = bs_taken ++ bs_handed ++ bs_rest ∧
    length bs_taken = j ∧
    Forall2 (arena B) handed bs_handed ∧
    Z.of_nat (length (LocalLogger.buffers l)) = N ∧
    LocalLogger.readIndex l = Z.of_nat j ∧
    LocalLogger.buffersFull l
      = semaphore.mk (Z.of_nat (j + length handed)) (Z.of_nat j).

(** Two builds used for concrete runs: 16-byte [max_align_t] with the
    default hook, and the same with a hook that returns. *)
Definition cfg_exits : Config := mkConfig 16 HookExits.
Definition cfg_returns : Config := mkConfig 16 HookReturns.

(** ** Concrete programs *)

(** Entry classes by their [sizeof] on a 64-bit platform: the vtable
    pointer and [size] take 16 bytes, the tuple the rest. *)
Definition class24 : LogEntry.class := LogEntry.mkClass 24 1.
Definition class32 : LogEntry.class := LogEntry.mkClass 32 1.
Definition class40 : LogEntry.class := LogEntry.mkClass 40 2.
Definition class48 : LogEntry.class := LogEntry.mkClass 48 1.

(** An arena of 64 bytes that holds one record, which takes 32 of them. *)
Definition arena_one_record : EntryBuffer.t :=
  EntryBuffer.mk 64 1 32 (obj_bytes (LogEntry.make class24 [1]) ++ replicate 40 Uninit).

(** Registered loggers with two arenas. *)
Definition logger_2x32 : LocalLogger.t :=
  LocalLogger.set_server (Some 0%nat) (LocalLogger.init 2 32).
Definition logger_2x64 : LocalLogger.t :=
  LocalLogger.set_server (Some 0%nat) (LocalLogger.init 2 64).

(** A registered logger whose arena 0 is filled by one record. *)
Definition logger_arena0_filled : LocalLogger.t :=
  LocalLogger.mk 2 32
    [EntryBuffer.mk 32 1 32 (obj_bytes (LogEntry.make class24 [8]) ++ replicate 8 Uninit);
     EntryBuffer.init 32]
    0 0 semaphore.init (Some 0%nat).

(** One record logged, handed over and drained. *)
Definition one_round : list logger_op := [OpLog class24 [1]; OpFlush; OpDump].

(** A server at address 7 whose registry, of capacity one, holds the
    logger at address 0; a second logger, at address 1, whose [server]
    pointer is [srv]. *)
Definition world_registry_full (srv : option nat) : LogServer.World :=
  LogServer.mkWorld 7
    (LogServer.mk 1 [Some 0%nat] 1 true)
    [LocalLogger.set_server (Some 7%nat) (LocalLogger.init 2 32);
     LocalLogger.set_server srv (LocalLogger.init 2 32)].

(** A server with one registered logger that has one arena handed over. *)
Definition world_one_pending : LogServer.World :=
  LogServer.mkWorld 0
    (LogServer.mk 1 [Some 0%nat] 1 true)
    [LocalLogger.mk 2 32
       [EntryBuffer.mk 32 1 32
          (obj_bytes (LogEntry.make class24 [1]) ++ replicate 8 Uninit);
        EntryBuffer.init 32]
       1 0 (semaphore.mk 1 0) (Some 0%nat)].

(** What another thread's call of [shutdown] does to the world. *)
Definition shutdown_by_other (w : LogServer.World) : LogServer.World :=
  LogServer.set_server (LogServer.set_run false (LogServer.server w)) w.

Definition records_same_size : list (LogEntry.class * list Z) :=
  [(class24, [1]); (class24, [2]); (class24, [3])].

(** A registered logger whose arena 0 holds one record and is handed
    over. *)
Definition logger_arena0_handed : LocalLogger.t :=
  LocalLogger.mk 2 32
    [EntryBuffer.mk 32 1 32 (obj_bytes (LogEntry.make class24 [1]) ++ replicate 8 Uninit);
     EntryBuffer.init 32]
    1 0 (semaphore.mk 1 0) (Some 0%nat).

(** A registered logger of two arenas of 64 bytes after [log] of a record
    that takes 32 bytes and of one that takes 48: arena 0 holds the first
    and is handed over, arena 1 holds the second. *)
Definition logger_ring_nearly_full : LocalLogger.t :=
  LocalLogger.mk 2 64
    [EntryBuffer.mk 64 1 32
       (obj_bytes (LogEntry.make class32 [1]) ++ replicate 32 Uninit);
     EntryBuffer.mk 64 1 48
       (obj_bytes (LogEntry.make class48 [2]) ++ replicate 16 Uninit)]
    1 0 (semaphore.mk 1 0) (Some 0%nat).

(** A registered logger of three arenas of 32 bytes whose arena 0 holds
    one record and is handed over. *)
Definition logger_3x32_arena0_handed : LocalLogger.t :=
  LocalLogger.mk 3 32
    [EntryBuffer.mk 32 1 32 (obj_bytes (LogEntry.make class24 [1]) ++ replicate 8 Uninit);
     EntryBuffer.init 32; EntryBuffer.init 32]
    1 0 (semaphore.mk 1 0) (Some 0%nat).

(** A server of capacity two at address 0 and one logger, not yet
    registered, at address 0 of the store. *)
Definition world_fresh : LogServer.World :=
  LogServer.mkWorld 0 (LogServer.init 2) [LocalLogger.init 2 32].

(** ** Notions for whole runs of a server and its loggers *)

(** A computation all of whose events satisfy [P]. *)
Definition emits_only {St A} (P : event → Prop) (m : M St A) : Prop :=
  ∀ s, Forall P (m s).1.

Definition is_print (e : event) : Prop :=
  match e with EvPrint _ => True | _ => False end.

(** What the consumer thread may do to the outside world: wait, lock,
    unlock and print. *)
Definition consumer_event (e : event) : Prop :=
  match e with EvError _ | EvNotify => False | _ => True end.

(** A computation in which the error hook is invoked at most once, as the
    last thing done, and exactly when the process exits. *)
Definition ends_at_error {St A} (m : M St A) : Prop :=
  ∀ s, match (m s).2 with
       | Exit => ∃ tr msg, (m s).1 = tr ++ [EvError msg] ∧ no_errors tr
       | _ => no_errors (m s).1
       end.

(** How often [platform.notify()] was called. *)
Definition notifies (tr : list event) : Z :=
  Z.of_nat (length (filter (λ e, e = EvNotify) tr)).

(** A call whose record, if it is a [log], is of a possible class. *)
Definition op_ok `{!Config} (o : logger_op) : Prop :=
  match o with
  | OpLog c _ => class_ok c
  | _ => True
  end.

(** The calls made on a server and the loggers of its world: by the
    producers ([addLogger], [log] and [flush] on the logger at an address),
    by whoever shuts the server down, and the consumer's drain pass. *)
Inductive server_call : Type :=
  | CallAddLogger (a : nat)
  | CallLog (a : nat) (c : LogEntry.class) (vs : list Z)
  | CallFlush (a : nat)
  | CallShutdown
  | CallDumpAll (fuel : nat).

Definition run_call `{!Config} (k : server_call) : M LogServer.World unit :=
  match k with
  | CallAddLogger a => LogServer.addLogger a
  | CallLog a c vs => LogServer.at_logger a (LocalLogger.log c vs)
  | CallFlush a => LogServer.at_logger a LocalLogger.flush
  | CallShutdown => LogServer.shutdown
  | CallDumpAll fuel => LogServer._dumpAll fuel
  end.

Fixpoint run_calls `{!Config} (ks : list server_call) : M LogServer.World unit :=
  match ks with
  | [] => mret tt
  | k :: ks' => run_call k ;; run_calls ks'
  end.

(** The calls that are not made by the consumer thread. *)
Definition by_host (k : server_call) : Prop :=
  match k with
  | CallDumpAll _ => False
  | _ => True
  end.

(** A registry in order: [nLoggers] within the array, which has
    [maxLoggers] slots, and every slot below [nLoggers] holds the address
    of a logger there is, whose [server] pointer is this server. *)
Definition registry_ok (w : LogServer.World) : Prop :=
  let s := LogServer.server w in
  0 ≤ LogServer.nLoggers s ≤ LogServer.maxLoggers s ∧
  LogServer.maxLoggers s < SIZE_WIDTH ∧
  length (LogServer.localLoggers s) = Z.to_nat (LogServer.maxLoggers s) ∧
  ∀ i, (i < Z.to_nat (LogServer.nLoggers s))%nat →
    ∃ a l, LogServer.localLoggers s !! i = Some (Some a) ∧
           LogServer.loggers w !! a = Some l ∧
           LocalLogger.server l = Some (LogServer.this w).

(** What the host does in the simplest session: the one producer
    registers its logger, logs the records [rs] and flushes; then the
    server is shut down. *)
Definition session `{!Config} (a : nat) (rs : list (LogEntry.class * list Z))
    : M LogServer.World unit :=
  LogServer.addLogger a ;;
  LogServer.at_logger a (produce rs) ;;
  LogServer.shutdown.

(** A logger in the first lap of its ring, the consumer at work on it: the
    consumer has taken the first [j] arenas; the next ones hold the chunks
    [handed], in order, and are handed over; the arena after them, at
    [writeIndex], holds [cur]; the arenas after it have not been used. *)
Definition ring `{!Config} (N B : Z) (j : nat) (handed : list (list LogEntry.t))
    (cur : list LogEntry.t) (l : LocalLogger.t) : Prop :=
  ∃ bs_taken bs_handed b_cur bs_free,
    LocalLogger.buffers l = (bs_taken ++ bs_handed) ++ b_cur :: bs_free ∧
    length bs_taken = j ∧
    Forall2 (arena B) handed bs_handed ∧ arena B cur b_cur ∧
    Forall (arena B []) bs_free ∧
    LocalLogger.numBuffers l = N ∧
    Z.of_nat (length (LocalLogger.buffers l)) = N ∧
    LocalLogger.writeIndex l = Z.of_nat (j + length handed) ∧
    LocalLogger.readIndex l = Z.of_nat j ∧
    LocalLogger.buffersFull l
      = semaphore.mk (Z.of_nat (j + length handed)) (Z.of_nat j).

(** A logger of at most 255 arenas that is in the first lap of its ring. *)
Definition first_lap `{!Config} (l : LocalLogger.t) : Prop :=
  ∃ N B j handed cur, 1 ≤ N ≤ 255 ∧ ring N B j handed cur l.

(** The argument lists of the [log] calls among [ops], in order. *)
Definition logged (ops : list logger_op) : list (list Z) :=
  omap (λ o, match o with OpLog _ vs => Some vs | _ => None end) ops.

(** The events [dump] produces for the records [es]. *)
Definition prints (es : list LogEntry.t) : list event :=
  (λ e, EvPrint (LogEntry.values e)) <$> es.

(** ** Filling a logger with records of one class *)

(** The logger holds [d] arenas of [q] records each, handed over, and [m]
    records in the current arena. *)
Definition filled `{!Config} (N B : Z) (srv : nat) (c : LogEntry.class)
    (vs : list Z) (q d m : nat) (l : LocalLogger.t) : Prop :=
  ring N B 0 (replicate d (replicate q (LogEntry.make c vs)))
    (replicate m (LogEntry.make c vs)) l ∧
  LocalLogger.server l = Some srv ∧ (m ≤ q)%nat.

(** The records that still fit. *)
Definition room (N : Z) (q d m : nat) : Z :=
  (N - 1 - Z.of_nat d) * Z.of_nat q + (Z.of_nat q - Z.of_nat m).

(** * Properties *)

(** ** The monad *)

Lemma bind_run {St A B} (m : M St A) (f : A → M St B) s :
  (m ≫= f) s =
  match m s with
  | (tr, Ret (a, s')) => let '(tr', o) := f a s' in (tr ++ tr', o)
  | (tr, Exit) => (tr, Exit)
  | (tr, Undef) => (tr, Undef)
  | (tr, OutOfFuel) => (tr, OutOfFuel)
  end.
Proof. reflexivity. Qed.

Lemma bind_ret_run {St A B} (m : M St A) (f : A → M St B) s tr a s' :
  m s = (tr, Ret (a, s')) →
  (m ≫= f) s = after_events tr (f a s').
Proof. intros E. rewrite bind_run, E. by destruct (f a s'). Qed.

Lemma after_events_nil {X} (r : list event * X) : after_events [] r = r.
Proof. by destruct r. Qed.

Lemma after_events_app {X} tr tr' (r : list event * X) :
  after_events tr (after_events tr' r) = after_events (tr ++ tr') r.
Proof. unfold after_events; cbn. by rewrite app_assoc. Qed.

Lemma gets_run {St A} (f : St → A) s : gets f s = ([], Ret (f s, s)).
Proof. reflexivity. Qed.

Lemma QUICKLOG_ERROR_run `{!Config} {St} msg (s : St) :
  QUICKLOG_ERROR msg s = ([EvError msg], after_hook s).
Proof. unfold QUICKLOG_ERROR, after_hook. by destruct error_hook. Qed.

(** ** The semaphore *)

Lemma peek_run s : semaphore.peek s = ([], Ret (sem_count s, s)).
Proof. reflexivity. Qed.

Lemma put_run s :
  semaphore.put s =
  ([], Ret (tt, semaphore.mk (uint8_t (semaphore.numPuts s + 1)) (semaphore.numGets s))).
Proof. reflexivity. Qed.

Lemma get_run_ok `{!Config} s :
  semaphore.numPuts s ≠ semaphore.numGets s →
  semaphore.get s =
  ([], Ret (tt, semaphore.mk (semaphore.numPuts s) (uint8_t (semaphore.numGets s + 1)))).
Proof.
  intros Hne. unfold semaphore.get. rewrite bind_run. cbn.
  destruct (decide _) as [E|_]; [done|]. reflexivity.
Qed.

Lemma get_run_underflow `{!Config} s :
  semaphore.numPuts s = semaphore.numGets s →
  semaphore.get s =
  ([EvError "get called on non-gettable semaphore.\n"],
   match error_hook with
   | HookReturns =>
       Ret (tt, semaphore.mk (semaphore.numPuts s) (uint8_t (semaphore.numGets s + 1)))
   | HookExits => Exit
   end).
Proof.
  intros E. unfold semaphore.get. rewrite bind_run. cbn.
  destruct (decide _) as [_|Hne]; [|done].
  rewrite bind_run, QUICKLOG_ERROR_run. unfold after_hook.
  by destruct error_hook.
Qed.

Lemma sem_count_put p g :
  sem_count (semaphore.mk (uint8_t (p + 1)) g) = uint8_t (sem_count (semaphore.mk p g) + 1).
Proof.
  unfold sem_count, uint8_t; cbn.
  rewrite Zminus_mod_idemp_l, Zplus_mod_idemp_l. f_equal. lia.
Qed.

Lemma sem_count_get p g :
  sem_count (semaphore.mk p (uint8_t (g + 1))) = uint8_t (sem_count (semaphore.mk p g) - 1).
Proof.
  unfold sem_count, uint8_t; cbn.
  rewrite Zminus_mod_idemp_r, Zminus_mod_idemp_l. f_equal. lia.
Qed.

Lemma count_op_cons o o' ops :
  count_op o (o' :: ops) = (if decide (o' = o) then 1 else 0) + count_op o ops.
Proof.
  unfold count_op. rewrite filter_cons.
  destruct (decide (o' = o)); cbn [length]; lia.
Qed.

Lemma run_sem_ops_guarded `{!Config} ops : ∀ s,
  takes_guarded ops s →
  ∃ s', run_sem_ops ops s = ([], Ret (tt, s')) ∧
        sem_count s' = uint8_t (sem_count s + count_op Put ops - count_op Take ops).
Proof.
  induction ops as [|o ops IH]; intros s Hg.
  - exists s. split; [done|]. unfold count_op; cbn.
    unfold sem_count, uint8_t. rewrite Z.add_0_r, Z.sub_0_r. by rewrite Zmod_mod.
  - destruct o; cbn [takes_guarded] in Hg.
    + destruct (IH _ Hg) as (s' & Hrun & Hcnt). exists s'. split.
      * cbn [run_sem_ops run_sem_op]. rewrite (bind_ret_run _ _ _ _ _ _ (put_run s)).
        by rewrite Hrun.
      * rewrite Hcnt. destruct s as [p g]. cbn [semaphore.numPuts semaphore.numGets].
        rewrite sem_count_put, !count_op_cons.
        rewrite decide_True by done. rewrite decide_False by done. unfold uint8_t.
        rewrite <- Zminus_mod_idemp_l, <- Zplus_mod_idemp_l, Zmod_mod,
          Zplus_mod_idemp_l, Zminus_mod_idemp_l. f_equal. lia.
    + destruct Hg as [Hnz Hg]. destruct (IH _ Hg) as (s' & Hrun & Hcnt).
      exists s'. split.
      * cbn [run_sem_ops run_sem_op].
        assert (semaphore.numPuts s ≠ semaphore.numGets s) as Hne.
        { intros E. apply Hnz. unfold sem_count, uint8_t. by rewrite E, Z.sub_diag. }
        rewrite (bind_ret_run _ _ _ _ _ _ (get_run_ok s Hne)). by rewrite Hrun.
      * rewrite Hcnt. destruct s as [p g]. cbn [semaphore.numPuts semaphore.numGets].
        rewrite sem_count_get, !count_op_cons.
        rewrite decide_False by done. rewrite decide_True by done. unfold uint8_t.
        rewrite <- Zminus_mod_idemp_l, <- Zplus_mod_idemp_l, Zmod_mod,
          Zplus_mod_idemp_l, Zminus_mod_idemp_l. f_equal. lia.
Qed.

(** C8, as amended.  From the initial semaphore, any sequence of [put] and
    [get] whose every [get] finds the count nonzero runs without invoking
    the error hook, and [peek] then returns the number of puts minus the
    number of gets, reduced modulo 256.  A [get] attempted when
    [numPuts = numGets] invokes the error hook; if the hook exits nothing is
    decremented, and if the hook returns [numGets] is incremented all the
    same. *)
Theorem semaphore_algebra `{!Config} :
  (∀ ops, takes_guarded ops semaphore.init →
     ∃ s, run_sem_ops ops semaphore.init = ([], Ret (tt, s)) ∧
          semaphore.peek s =
            ([], Ret (uint8_t (count_op Put ops - count_op Take ops), s))) ∧
  (∀ s, semaphore.numPuts s = semaphore.numGets s →
     semaphore.get s =
       ([EvError "get called on non-gettable semaphore.\n"],
        match error_hook with
        | HookExits => Exit
        | HookReturns =>
            Ret (tt, semaphore.mk (semaphore.numPuts s)
                                  (uint8_t (semaphore.numGets s + 1)))
        end)).
Proof.
  split.
  - intros ops Hg. destruct (run_sem_ops_guarded ops _ Hg) as (s & Hrun & Hcnt).
    exists s. split; [done|]. rewrite peek_run, Hcnt. do 3 f_equal.
  - intros s E. rewrite (get_run_underflow s E). by destruct error_hook.
Qed.

Lemma semaphore_algebra_witness :
  (∃ s, @run_sem_ops cfg_exits [Put; Put; Take; Put] semaphore.init
          = ([], Ret (tt, s)) ∧
        semaphore.peek s = ([], Ret (2, s))) ∧
  @semaphore.get cfg_exits (semaphore.mk 3 3) =
    ([EvError "get called on non-gettable semaphore.\n"], Exit).
Proof.
  split.
  - apply (proj1 (@semaphore_algebra cfg_exits) [Put; Put; Take; Put]).
    cbn. repeat split; vm_compute; discriminate.
  - apply (proj2 (@semaphore_algebra cfg_exits) (semaphore.mk 3 3)). reflexivity.
Defined.

(** C8 as stated fails when the error hook returns: a [get] on the initial
    semaphore, where [numPuts = numGets], invokes the hook and then
    increments [numGets]; [peek] is 255 afterwards. *)
Lemma semaphore_underflow_still_decrements :
  @semaphore.get cfg_returns semaphore.init =
    ([EvError "get called on non-gettable semaphore.\n"],
     Ret (tt, semaphore.mk 0 1)) ∧
  semaphore.peek (semaphore.mk 0 1) = ([], Ret (255, semaphore.mk 0 1)).
Proof. split; reflexivity. Qed.

(** ** Objects in an arena's bytes *)

Lemma store_Some p e buf buf' :
  store p e buf = Some buf' →
  0 ≤ p ∧ (Z.to_nat p + obj_sizeof e ≤ length buf)%nat ∧
  buf' = take (Z.to_nat p) buf ++ obj_bytes e
           ++ drop (Z.to_nat p + obj_sizeof e)%nat buf.
Proof.
  unfold store. destruct (decide _) as [[??]|]; [|done].
  intros [= <-]. done.
Qed.

Lemma obj_bytes_length e : length (obj_bytes e) = obj_sizeof e.
Proof. unfold obj_bytes. by rewrite length_fmap, length_seq. Qed.

Lemma obj_bytes_lookup e k :
  (k < obj_sizeof e)%nat → obj_bytes e !! k = Some (ObjByte e k).
Proof.
  intros Hk. unfold obj_bytes. rewrite list_lookup_fmap.
  by rewrite lookup_seq_lt.
Qed.

Lemma store_length p e buf buf' :
  store p e buf = Some buf' → length buf' = length buf.
Proof.
  intros (Hp & Hle & ->)%store_Some.
  rewrite !length_app, length_take, obj_bytes_length, length_drop. lia.
Qed.

Lemma store_lookup_in p e buf buf' k :
  store p e buf = Some buf' → (k < obj_sizeof e)%nat →
  buf' !! (Z.to_nat p + k)%nat = Some (ObjByte e k).
Proof.
  intros (Hp & Hle & ->)%store_Some Hk.
  rewrite lookup_app_r; rewrite length_take; [|lia].
  rewrite lookup_app_l by (rewrite obj_bytes_length; lia).
  replace (Z.to_nat p + k - Z.to_nat p `min` length buf)%nat with k by lia.
  by apply obj_bytes_lookup.
Qed.

Lemma store_lookup_below p e buf buf' i :
  store p e buf = Some buf' → (i < Z.to_nat p)%nat → buf' !! i = buf !! i.
Proof.
  intros (Hp & Hle & ->)%store_Some Hi.
  rewrite lookup_app_l by (rewrite length_take; lia).
  by rewrite lookup_take_lt.
Qed.

Lemma load_Some p buf e :
  load p buf = Some e ↔
  0 ≤ p ∧ buf !! Z.to_nat p = Some (ObjByte e 0) ∧
  ∀ k, (k < obj_sizeof e)%nat → buf !! (Z.to_nat p + k)%nat = Some (ObjByte e k).
Proof.
  unfold load. split.
  - destruct (buf !! Z.to_nat p) as [[|e' [|k']]|] eqn:E0; try done.
    destruct (decide _) as [[Hp Heq]|]; [|done]. intros [= ->].
    split; [done|]. split; [done|]. intros k Hk.
    rewrite <- lookup_drop. rewrite <- (lookup_take_lt _ (obj_sizeof e)) by done.
    rewrite Heq. by apply obj_bytes_lookup.
  - intros (Hp & E0 & Hall). rewrite E0. rewrite decide_True; [done|].
    split; [done|]. apply list_eq. intros k.
    destruct (decide (k < obj_sizeof e)%nat) as [Hk|Hk].
    + rewrite lookup_take_lt by done. rewrite lookup_drop, Hall by done.
      by rewrite obj_bytes_lookup.
    + rewrite lookup_take_ge by lia. symmetry. apply lookup_ge_None_2.
      rewrite obj_bytes_length. lia.
Qed.

Lemma load_store_same p e buf buf' :
  store p e buf = Some buf' → (0 < obj_sizeof e)%nat → load p buf' = Some e.
Proof.
  intros Hst Hpos. apply load_Some. split; [by apply store_Some in Hst as [? _]|].
  split.
  - rewrite <- (Nat.add_0_r (Z.to_nat p)). by eapply store_lookup_in.
  - intros k Hk. by eapply store_lookup_in.
Qed.

Lemma load_store_below q e' buf buf' p e :
  store q e' buf = Some buf' → load p buf = Some e →
  (0 < obj_sizeof e)%nat → (Z.to_nat p + obj_sizeof e ≤ Z.to_nat q)%nat →
  load p buf' = Some e.
Proof.
  intros Hst (Hp & E0 & Hall)%load_Some Hpos Hle. apply load_Some.
  split; [done|]. split.
  - rewrite (store_lookup_below _ _ _ _ _ Hst) by lia. done.
  - intros k Hk. rewrite (store_lookup_below _ _ _ _ _ Hst) by lia. by apply Hall.
Qed.

(** ** alignedSize *)

Lemma alignedSize_bounds `{!Config} sz :
  0 < QUICKLOG_ALIGN → 0 ≤ sz → sz + QUICKLOG_ALIGN ≤ SIZE_WIDTH →
  sz ≤ alignedSize sz < sz + QUICKLOG_ALIGN ∧
  alignedSize sz mod QUICKLOG_ALIGN = 0.
Proof.
  intros HA Hsz Hfit. unfold alignedSize.
  pose proof (Z.mod_pos_bound sz QUICKLOG_ALIGN HA) as Hm.
  destruct (decide _) as [Hne|He].
  - unfold size_t. rewrite Z.mod_small by lia. split; [lia|].
    replace (sz + (QUICKLOG_ALIGN - sz mod QUICKLOG_ALIGN))
      with (sz - sz mod QUICKLOG_ALIGN + 1 * QUICKLOG_ALIGN) by lia.
    rewrite Z.mod_add by lia. rewrite Zminus_mod_idemp_r, Z.sub_diag.
    apply Z.mod_0_l. lia.
  - split; [lia|]. lia.
Qed.

Lemma alignedSize_class `{!Config} c :
  0 < QUICKLOG_ALIGN → class_ok c →
  LogEntry.sizeof c ≤ alignedSize (LogEntry.sizeof c) ∧
  alignedSize (LogEntry.sizeof c) < LogEntry.sizeof c + QUICKLOG_ALIGN.
Proof.
  intros HA [Hpos Hmax].
  apply alignedSize_bounds; [done|lia|]. unfold SIZE_WIDTH, PTRDIFF_MAX in *. lia.
Qed.

(** ** The arena *)

Lemma write_run p e b buf :
  store p e (EntryBuffer.m_buffer b) = Some buf →
  EntryBuffer.write p e b = ([], Ret (tt, EntryBuffer.set_m_buffer buf b)).
Proof. intros E. unfold EntryBuffer.write. by rewrite E. Qed.

Lemma pushElem_rejects `{!Config} b elem :
  size_t (alignedSize (LogEntry.sizeof (LogEntry.vptr elem)) + EntryBuffer.m_pos b)
    > EntryBuffer.size b →
  EntryBuffer.pushElem elem b = ([], Ret (false, b)).
Proof.
  intros Hgt. unfold EntryBuffer.pushElem. rewrite bind_run. cbn [get].
  rewrite decide_True by done. reflexivity.
Qed.

Lemma pushElem_accepts `{!Config} b elem buf1 buf2 :
  ¬ size_t (alignedSize (LogEntry.sizeof (LogEntry.vptr elem)) + EntryBuffer.m_pos b)
    > EntryBuffer.size b →
  store (EntryBuffer.m_pos b) (LogEntry.default (LogEntry.vptr elem))
        (EntryBuffer.m_buffer b) = Some buf1 →
  store (EntryBuffer.m_pos b) (stored elem) buf1 = Some buf2 →
  EntryBuffer.pushElem elem b =
    ([], Ret (true,
       EntryBuffer.mk (EntryBuffer.size b)
         (size_t (EntryBuffer.m_count b + 1))
         (size_t (EntryBuffer.m_pos b
                  + alignedSize (LogEntry.sizeof (LogEntry.vptr elem))))
         buf2)).
Proof.
  intros Hle E1 E2. unfold EntryBuffer.pushElem. rewrite bind_run. cbn [get].
  rewrite decide_False by done.
  rewrite (bind_ret_run _ _ _ _ _ _ (write_run _ _ _ _ E1)), after_events_nil.
  rewrite (bind_ret_run _ _ _ _ _ _
             (write_run _ _ (EntryBuffer.set_m_buffer buf1 b) _ E2)), after_events_nil.
  reflexivity.
Qed.

Lemma push_sum_no_wrap `{!Config} b c :
  0 < QUICKLOG_ALIGN → buffer_ok b → class_ok c →
  size_t (alignedSize (LogEntry.sizeof c) + EntryBuffer.m_pos b)
  = alignedSize (LogEntry.sizeof c) + EntryBuffer.m_pos b.
Proof.
  intros HA (Hc & Hp & Hs & _) Hcl.
  pose proof (alignedSize_class c HA Hcl) as [Hlo Hhi]. destruct Hcl as [H0 Hmax].
  unfold size_t. apply Z.mod_small. unfold SIZE_WIDTH, PTRDIFF_MAX in *. lia.
Qed.

Lemma pushElem_no_fit `{!Config} b elem :
  0 < QUICKLOG_ALIGN → buffer_ok b → class_ok (LogEntry.vptr elem) →
  ¬ alignedSize (LogEntry.sizeof (LogEntry.vptr elem)) + EntryBuffer.m_pos b
      ≤ EntryBuffer.size b →
  EntryBuffer.pushElem elem b = ([], Ret (false, b)).
Proof.
  intros HA Hb Hcl Hno. apply pushElem_rejects.
  rewrite push_sum_no_wrap by done. lia.
Qed.

Lemma pushElem_fits `{!Config} b elem :
  0 < QUICKLOG_ALIGN → buffer_ok b → class_ok (LogEntry.vptr elem) →
  alignedSize (LogEntry.sizeof (LogEntry.vptr elem)) + EntryBuffer.m_pos b
    ≤ EntryBuffer.size b →
  ∃ buf,
    EntryBuffer.pushElem elem b =
      ([], Ret (true,
         EntryBuffer.mk (EntryBuffer.size b) (EntryBuffer.m_count b + 1)
           (EntryBuffer.m_pos b + alignedSize (LogEntry.sizeof (LogEntry.vptr elem)))
           buf)) ∧
    length buf = length (EntryBuffer.m_buffer b) ∧
    load (EntryBuffer.m_pos b) buf = Some (stored elem) ∧
    (∀ p e, load p (EntryBuffer.m_buffer b) = Some e →
            (0 < obj_sizeof e)%nat →
            (Z.to_nat p + obj_sizeof e ≤ Z.to_nat (EntryBuffer.m_pos b))%nat →
            load p buf = Some e).
Proof.
  intros HA Hb Hcl Hfit.
  pose proof (push_sum_no_wrap b _ HA Hb Hcl) as Hsum.
  pose proof (alignedSize_class _ HA Hcl) as [Hlo Hhi].
  destruct Hb as (Hc & Hp & Hs & Hlen). destruct Hcl as [H0 Hmax].
  set (c := LogEntry.vptr elem) in *.
  set (a := alignedSize (LogEntry.sizeof c)) in *.
  assert (obj_sizeof (LogEntry.default c) = Z.to_nat (LogEntry.sizeof c)) as Hsz1
    by reflexivity.
  assert (obj_sizeof (stored elem) = Z.to_nat (LogEntry.sizeof c)) as Hsz2
    by reflexivity.
  destruct (store (EntryBuffer.m_pos b) (LogEntry.default c) (EntryBuffer.m_buffer b))
    as [buf1|] eqn:E1.
  2:{ unfold store in E1. rewrite decide_True in E1; [done|]. rewrite Hsz1, Hlen. lia. }
  pose proof (store_length _ _ _ _ E1) as Hlen1.
  destruct (store (EntryBuffer.m_pos b) (stored elem) buf1) as [buf2|] eqn:E2.
  2:{ unfold store in E2. rewrite decide_True in E2; [done|].
      rewrite Hsz2, Hlen1, Hlen. lia. }
  pose proof (store_length _ _ _ _ E2) as Hlen2.
  exists buf2. split; [|split; [|split]].
  - rewrite (pushElem_accepts b elem buf1 buf2); [|fold c a; lia|done|done].
    fold c a. do 4 f_equal.
    + unfold size_t. apply Z.mod_small. unfold SIZE_WIDTH, PTRDIFF_MAX in *. lia.
    + unfold size_t. apply Z.mod_small. unfold SIZE_WIDTH, PTRDIFF_MAX in *. lia.
  - congruence.
  - eapply load_store_same; [done|]. rewrite Hsz2. lia.
  - intros p e Hld Hpos Hbelow.
    eapply load_store_below; [exact E2| |done|done].
    eapply load_store_below; [exact E1|done|done|done].
Qed.

Lemma buffer_ok_init sz : 0 ≤ sz ≤ PTRDIFF_MAX → buffer_ok (EntryBuffer.init sz).
Proof.
  intros Hsz. unfold buffer_ok, EntryBuffer.init; cbn.
  rewrite length_replicate. lia.
Qed.

(** C2.  On an arena in one of its states ([buffer_ok]) and for a record of
    an entry class of possible size, [pushElem] returns without events;
    it accepts if and only if [alignedSize(sizeof(elem)) + m_pos <= size];
    when it accepts [m_pos] has grown by exactly that aligned size and
    [m_count] by one; when it rejects the arena (position, count and bytes)
    is unchanged; a record whose aligned size is exactly the space left is
    accepted. *)
Theorem pushElem_accepts_iff_fits `{!Config} (b : EntryBuffer.t) (elem : LogEntry.t) :
  0 < QUICKLOG_ALIGN → buffer_ok b → class_ok (LogEntry.vptr elem) →
  let s := alignedSize (LogEntry.sizeof (LogEntry.vptr elem)) in
  ∃ ok b',
    EntryBuffer.pushElem elem b = ([], Ret (ok, b')) ∧
    (ok = true ↔ s + EntryBuffer.m_pos b ≤ EntryBuffer.size b) ∧
    (ok = true →
       EntryBuffer.m_pos b' = EntryBuffer.m_pos b + s ∧
       EntryBuffer.m_count b' = EntryBuffer.m_count b + 1 ∧
       EntryBuffer.size b' = EntryBuffer.size b) ∧
    (ok = false → b' = b) ∧
    (s = EntryBuffer.size b - EntryBuffer.m_pos b → ok = true).
Proof.
  intros HA Hb Hcl s.
  destruct (decide (s + EntryBuffer.m_pos b ≤ EntryBuffer.size b)) as [Hfit|Hno].
  - destruct (pushElem_fits b elem HA Hb Hcl Hfit) as (buf & Hrun & _).
    eexists true, _. split; [exact Hrun|]. cbn. repeat split; try done.
  - exists false, b. split; [by apply pushElem_no_fit|].
    repeat split; try done. intros E. subst s. lia.
Qed.

Lemma pushElem_accepts_iff_fits_witness :
  ∃ ok b',
    @EntryBuffer.pushElem cfg_exits (LogEntry.make class24 [7])
      arena_one_record = ([], Ret (ok, b')) ∧
    (ok = true ↔ 32 + 32 ≤ 64) ∧
    (ok = true →
       EntryBuffer.m_pos b' = 32 + 32 ∧ EntryBuffer.m_count b' = 1 + 1 ∧
       EntryBuffer.size b' = 64) ∧
    (ok = false → b' = arena_one_record) ∧
    (32 = 64 - 32 → ok = true).
Proof.
  apply (@pushElem_accepts_iff_fits cfg_exits
           arena_one_record
           (LogEntry.make class24 [7])).
  - reflexivity.
  - unfold buffer_ok, PTRDIFF_MAX, arena_one_record.
    cbn [EntryBuffer.m_count EntryBuffer.m_pos EntryBuffer.size EntryBuffer.m_buffer].
    split; [lia|]. split; [lia|]. split; [lia|]. reflexivity.
  - unfold class_ok; cbn; unfold PTRDIFF_MAX; lia.
Defined.

Lemma stored_eq elem : stored elem = elem.
Proof. by destruct elem. Qed.

Lemma dump_loop_reads `{!Config} n : ∀ p b,
  EntryBuffer.dump_loop n p b =
  (reads_trace (dump_reads n p (EntryBuffer.m_buffer b)),
   if reads_complete (dump_reads n p (EntryBuffer.m_buffer b))
   then Ret (tt, b) else Undef).
Proof.
  induction n as [|n IH]; intros p b; [done|].
  cbn [EntryBuffer.dump_loop dump_reads]. rewrite bind_run.
  unfold EntryBuffer.read at 1. rewrite bind_run. cbn [get].
  destruct (load p (EntryBuffer.m_buffer b)) as [e|] eqn:E; [|done].
  cbn -[EntryBuffer.dump_loop dump_reads reads_complete].
  rewrite bind_run. unfold LogEntry.printSelf, emit. rewrite IH.
  cbn. reflexivity.
Qed.

Lemma extent_app `{!Config} es1 es2 : extent (es1 ++ es2) = extent es1 + extent es2.
Proof. induction es1 as [|e es1 IH]; cbn; lia. Qed.

Lemma extent_nonneg `{!Config} es :
  0 < QUICKLOG_ALIGN → Forall entry_ok es → 0 ≤ extent es.
Proof.
  intros HA. induction 1 as [|e es [Hcl _] _ IH]; cbn; [done|].
  pose proof (alignedSize_class _ HA Hcl). destruct Hcl. lia.
Qed.

Lemma laid_out_app `{!Config} es1 : ∀ p es2 buf,
  laid_out p (es1 ++ es2) buf ↔
  laid_out p es1 buf ∧ laid_out (p + extent es1) es2 buf.
Proof.
  induction es1 as [|e es1 IH]; intros p es2 buf; cbn.
  - rewrite Z.add_0_r. tauto.
  - rewrite IH, Z.add_assoc. tauto.
Qed.

Lemma offsets_from_length `{!Config} es : ∀ p, length (offsets_from p es) = length es.
Proof. induction es as [|e es IH]; intros p; cbn; [done|]. by rewrite IH. Qed.

(** Bytes below [limit] that keep their objects keep the layout. *)
Lemma laid_out_keep `{!Config} buf buf' limit es : ∀ p,
  0 < QUICKLOG_ALIGN → Forall entry_ok es → 0 ≤ p → p + extent es ≤ limit →
  (∀ q e, load q buf = Some e → (0 < obj_sizeof e)%nat →
          (Z.to_nat q + obj_sizeof e ≤ Z.to_nat limit)%nat → load q buf' = Some e) →
  laid_out p es buf → laid_out p es buf'.
Proof.
  intros p HA Hok. revert p.
  induction Hok as [|e es [Hcl Hsz] Hok IH]; intros p Hp Hlim Hkeep; cbn; [done|].
  intros [Hld Hrest].
  pose proof (alignedSize_class _ HA Hcl) as [Hlo Hhi].
  pose proof (extent_nonneg es HA Hok) as Hext.
  cbn in Hlim. destruct Hcl as [H0 Hmax]. split.
  - apply Hkeep; [done| |]; unfold obj_sizeof; lia.
  - apply IH; [lia|lia|done|done].
Qed.

Lemma dump_reads_laid_out `{!Config} buf es : ∀ p,
  0 < QUICKLOG_ALIGN → Forall entry_ok es → 0 ≤ p → p + extent es ≤ PTRDIFF_MAX →
  laid_out p es buf →
  dump_reads (length es) p buf = zip (offsets_from p es) (Some <$> es).
Proof.
  intros p HA Hok. revert p.
  induction Hok as [|e es [Hcl Hsz] Hok IH]; intros p Hp Hlim; cbn; [done|].
  intros [Hld Hrest]. rewrite Hld. f_equal.
  pose proof (alignedSize_class _ HA Hcl) as [Hlo Hhi].
  pose proof (extent_nonneg es HA Hok) as Hext.
  cbn in Hlim. destruct Hcl as [H0 Hmax].
  rewrite Hsz. unfold size_t at 1. rewrite Z.mod_small.
  - apply IH; [lia|lia|done].
  - unfold SIZE_WIDTH, PTRDIFF_MAX in *. lia.
Qed.

Lemma reads_trace_zip (offs : list Z) es :
  length offs = length es →
  reads_trace (zip offs (Some <$> es)) = (λ e, EvPrint (LogEntry.values e)) <$> es ∧
  reads_complete (zip offs (Some <$> es)) = true.
Proof.
  revert offs. induction es as [|e es IH]; intros [|o offs] Hlen; try done.
  cbn in Hlen. destruct (IH offs) as [Htr Hc]; [lia|]. cbn. by rewrite Htr.
Qed.

Lemma arena_holds_push `{!Config} es b e :
  0 < QUICKLOG_ALIGN → Forall entry_ok es → entry_ok e → arena_holds es b →
  alignedSize (LogEntry.sizeof (LogEntry.vptr e)) + EntryBuffer.m_pos b
    ≤ EntryBuffer.size b →
  ∃ b', EntryBuffer.pushElem e b = ([], Ret (true, b')) ∧
        arena_holds (es ++ [e]) b' ∧
        EntryBuffer.size b' = EntryBuffer.size b.
Proof.
  intros HA Hes [Hcl Hsz] (Hb & Hcnt & Hpos & Hlay) Hfit.
  destruct (pushElem_fits b e HA Hb Hcl Hfit) as (buf & Hrun & Hlen & Hnew & Hold).
  eexists. split; [exact Hrun|]. split; [|done].
  pose proof (alignedSize_class _ HA Hcl) as [Hlo Hhi].
  pose proof (extent_nonneg es HA Hes) as Hext.
  destruct Hb as (Hc & Hp & Hs & Hl). destruct Hcl as [H0 Hmax].
  unfold arena_holds, buffer_ok; cbn.
  split; [repeat split; (lia || congruence)|].
  split; [rewrite length_app; cbn; lia|].
  split; [rewrite extent_app; cbn; lia|].
  apply laid_out_app. split.
  {
    eapply (laid_out_keep _ _ (EntryBuffer.m_pos b)); [done|done|done|lia| |done].
    intros q e' Hq Hpos' Hle. by apply Hold. }
  cbn. rewrite Z.add_0_l, <- Hpos. rewrite stored_eq in Hnew. done.
Qed.

Lemma clear_run b :
  EntryBuffer.clear b =
  ([], Ret (tt, EntryBuffer.mk (EntryBuffer.size b) 0 0 (EntryBuffer.m_buffer b))).
Proof. reflexivity. Qed.

Lemma arena_holds_dump `{!Config} es b :
  0 < QUICKLOG_ALIGN → Forall entry_ok es → arena_holds es b →
  EntryBuffer.dump b =
    ((λ e, EvPrint (LogEntry.values e)) <$> es,
     Ret (tt, EntryBuffer.mk (EntryBuffer.size b) 0 0 (EntryBuffer.m_buffer b))) ∧
  dump_reads (Z.to_nat (EntryBuffer.m_count b)) 0 (EntryBuffer.m_buffer b)
    = zip (offsets_from 0 es) (Some <$> es).
Proof.
  intros HA Hes (Hb & Hcnt & Hpos & Hlay).
  destruct Hb as (Hc & Hp & Hs & Hl).
  assert (dump_reads (Z.to_nat (EntryBuffer.m_count b)) 0 (EntryBuffer.m_buffer b)
          = zip (offsets_from 0 es) (Some <$> es)) as Hreads.
  { rewrite Hcnt, Nat2Z.id. apply dump_reads_laid_out; [done|done|lia|lia|done]. }
  split; [|done].
  unfold EntryBuffer.dump. rewrite bind_run. cbn [get].
  rewrite bind_run, dump_loop_reads, Hreads.
  destruct (reads_trace_zip (offsets_from 0 es) es) as [-> ->].
  { apply offsets_from_length. }
  cbn. rewrite clear_run. by rewrite app_nil_r.
Qed.

Lemma entry_ok_make `{!Config} c vs : class_ok c → entry_ok (LogEntry.make c vs).
Proof. by intros Hc; split. Qed.

Lemma push_all_holds `{!Config} es : ∀ es0 b,
  0 < QUICKLOG_ALIGN → Forall entry_ok es0 → Forall entry_ok es → arena_holds es0 b →
  ∃ acc b',
    push_all es b = ([], Ret (acc, b')) ∧
    EntryBuffer.size b' = EntryBuffer.size b ∧
    (Forall (λ x, x.2 = true) acc →
       arena_holds (es0 ++ es) b' ∧ acc.*1 = offsets_from (extent es0) es).
Proof.
  induction es as [|e es IH]; intros es0 b HA Hes0 Hes Hb.
  - exists [], b. split; [done|]. split; [done|]. intros _. by rewrite app_nil_r.
  - apply Forall_cons in Hes as [He Hes].
    cbn [push_all]. rewrite (bind_ret_run _ _ _ _ _ _ (gets_run _ _)), after_events_nil.
    destruct (decide (alignedSize (LogEntry.sizeof (LogEntry.vptr e))
                      + EntryBuffer.m_pos b ≤ EntryBuffer.size b)) as [Hfit|Hno].
    + destruct (arena_holds_push es0 b e HA Hes0 He Hb Hfit) as (b1 & Hrun & Hb1 & Hsz1).
      destruct (IH (es0 ++ [e]) b1 HA) as (acc & b' & Hrest & Hsz & Hacc);
        [by apply Forall_app; split; [|apply Forall_singleton]|done|done|].
      exists ((EntryBuffer.m_pos b, true) :: acc), b'.
      rewrite (bind_ret_run _ _ _ _ _ _ Hrun), after_events_nil.
      rewrite (bind_ret_run _ _ _ _ _ _ Hrest), after_events_nil.
      split; [done|]. split; [congruence|].
      intros Hall. apply Forall_cons in Hall as [_ Hall].
      destruct (Hacc Hall) as [Hh Hoffs]. rewrite <- app_assoc in Hh. split; [done|].
      cbn. rewrite Hoffs, extent_app. cbn. rewrite Z.add_0_r.
      destruct Hb as (_ & _ & -> & _). done.
    + destruct He as [Hcl Hsize]. destruct Hb as (Hok & Hrestb).
      pose proof (pushElem_no_fit b e HA Hok Hcl Hno) as Hrun.
      destruct (IH es0 b HA Hes0 Hes (conj Hok Hrestb)) as (acc & b' & Hrest & Hsz & _).
      exists ((EntryBuffer.m_pos b, false) :: acc), b'.
      rewrite (bind_ret_run _ _ _ _ _ _ Hrun), after_events_nil.
      rewrite (bind_ret_run _ _ _ _ _ _ Hrest), after_events_nil.
      split; [done|]. split; [done|].
      intros Hall. apply Forall_cons in Hall as [Hf _]. done.
Qed.

(** C10.  Push an arena's records into an emptied arena.  If [pushElem]
    accepted them all, the loop of [dump] reads exactly as many objects, the
    i-th at the offset where [pushElem] wrote the i-th record, finds that
    record there complete, and [dump] prints the records' values in the
    order they were pushed and returns. *)
Theorem dump_reads_where_push_wrote `{!Config}
    (b : EntryBuffer.t) (rs : list (LogEntry.class * list Z)) :
  0 < QUICKLOG_ALIGN → arena_holds [] b → Forall (λ r, class_ok r.1) rs →
  let es := (λ r, LogEntry.make r.1 r.2) <$> rs in
  ∃ acc b',
    push_all es b = ([], Ret (acc, b')) ∧
    (Forall (λ x, x.2 = true) acc →
       dump_reads (Z.to_nat (EntryBuffer.m_count b')) 0 (EntryBuffer.m_buffer b')
         = zip acc.*1 (Some <$> es) ∧
       length acc.*1 = length es ∧
       EntryBuffer.dump b' =
         (EvPrint <$> rs.*2,
          Ret (tt, EntryBuffer.mk (EntryBuffer.size b) 0 0 (EntryBuffer.m_buffer b')))).
Proof.
  intros HA Hb Hrs es.
  assert (Forall entry_ok es) as Hes.
  { subst es. apply Forall_fmap. eapply Forall_impl; [exact Hrs|].
    intros [c vs] Hc. by apply entry_ok_make. }
  destruct (push_all_holds es [] b HA (Forall_nil_2 _) Hes Hb)
    as (acc & b' & Hrun & Hsz & Hacc).
  exists acc, b'. split; [done|]. intros Hall.
  destruct (Hacc Hall) as [Hh Hoffs]. cbn in Hh, Hoffs.
  destruct (arena_holds_dump es b' HA Hes Hh) as [Hdump Hreads].
  rewrite Hreads, Hdump, Hoffs, Hsz. split; [done|].
  split; [apply offsets_from_length|]. f_equal.
  subst es. rewrite <- list_fmap_compose. by rewrite <- list_fmap_compose.
Qed.

Lemma dump_reads_where_push_wrote_witness :
  ∃ acc b',
    @push_all cfg_exits
      [LogEntry.make class24 [1]; LogEntry.make class40 [2; 3]]
      (EntryBuffer.init 96) = ([], Ret (acc, b')) ∧
    acc = [(0, true); (32, true)] ∧
    @dump_reads cfg_exits (Z.to_nat (EntryBuffer.m_count b')) 0 (EntryBuffer.m_buffer b')
      = [(0, Some (LogEntry.make class24 [1]));
         (32, Some (LogEntry.make class40 [2; 3]))] ∧
    (@EntryBuffer.dump cfg_exits b').1 = [EvPrint [1]; EvPrint [2; 3]].
Proof.
  destruct (@dump_reads_where_push_wrote cfg_exits (EntryBuffer.init 96)
              [(class24, [1]); (class40, [2; 3])])
    as (acc & b' & Hrun & Hacc).
  - reflexivity.
  - split; [apply buffer_ok_init; unfold PTRDIFF_MAX; lia|]. by cbn.
  - repeat constructor; unfold class_ok; cbn; unfold PTRDIFF_MAX; lia.
  - exists acc, b'. split; [exact Hrun|].
    assert (acc = [(0, true); (32, true)]) as ->.
    { vm_compute in Hrun. congruence. }
    split; [done|].
    destruct Hacc as (Hreads & _ & Hdump); [by repeat constructor|].
    split; [exact Hreads|]. by rewrite Hdump.
Defined.

(** C5, as amended.  For a record [log] constructed and [pushElem] accepted,
    the [size] member of the object in the arena is the raw [sizeof] of the
    record's class; the bytes the record takes in the arena are
    [alignedSize] of that member; and the member equals the bytes taken
    exactly when [sizeof] is a multiple of [QUICKLOG_ALIGN]. *)
Theorem stored_size_is_raw_sizeof `{!Config}
    (b b' : EntryBuffer.t) (c : LogEntry.class) (vs : list Z) :
  0 < QUICKLOG_ALIGN → buffer_ok b → class_ok c →
  EntryBuffer.pushElem (LogEntry.make c vs) b = ([], Ret (true, b')) →
  ∃ e, load (EntryBuffer.m_pos b) (EntryBuffer.m_buffer b') = Some e ∧
       LogEntry.values e = vs ∧
       LogEntry.size e = LogEntry.sizeof c ∧
       EntryBuffer.m_pos b' - EntryBuffer.m_pos b = alignedSize (LogEntry.size e) ∧
       (LogEntry.size e = EntryBuffer.m_pos b' - EntryBuffer.m_pos b
        ↔ LogEntry.sizeof c mod QUICKLOG_ALIGN = 0).
Proof.
  intros HA Hb Hcl Hrun.
  destruct (decide (alignedSize (LogEntry.sizeof c) + EntryBuffer.m_pos b
                    ≤ EntryBuffer.size b)) as [Hfit|Hno].
  2:{ rewrite (pushElem_no_fit b (LogEntry.make c vs) HA Hb Hcl Hno) in Hrun. done. }
  destruct (pushElem_fits b (LogEntry.make c vs) HA Hb Hcl Hfit)
    as (buf & Hrun' & _ & Hnew & _).
  rewrite Hrun' in Hrun. injection Hrun as <-. cbn.
  exists (LogEntry.make c vs). rewrite stored_eq in Hnew.
  split; [done|]. split; [done|]. split; [done|]. split; [cbn; lia|]. cbn.
  unfold alignedSize. destruct (decide _) as [Hne|He].
  - split; [|done]. intros E. exfalso.
    pose proof (alignedSize_class c HA Hcl) as [Hlo Hhi]. unfold alignedSize in *.
    rewrite decide_True in Hlo, Hhi by done.
    pose proof (Z.mod_pos_bound (LogEntry.sizeof c) QUICKLOG_ALIGN HA) as Hm.
    destruct Hcl as [Hc0 Hmax]. unfold size_t in *.
    rewrite Z.mod_small in E; [lia|]. unfold SIZE_WIDTH, PTRDIFF_MAX in *. lia.
  - split; [lia|]. intros _. lia.
Qed.

Lemma stored_size_is_raw_sizeof_witness :
  ∃ e, load 0 (obj_bytes (LogEntry.make class40 [5; 6])
               ++ replicate 24 Uninit) = Some e ∧
       LogEntry.values e = [5; 6] ∧
       LogEntry.size e = 40 ∧
       48 - 0 = @alignedSize cfg_exits (LogEntry.size e) ∧
       (LogEntry.size e = 48 - 0 ↔ 40 mod 16 = 0).
Proof.
  apply (@stored_size_is_raw_sizeof cfg_exits (EntryBuffer.init 64)
           (EntryBuffer.mk 64 1 48
              (obj_bytes (LogEntry.make class40 [5; 6])
               ++ replicate 24 Uninit))
           class40 [5; 6]).
  - reflexivity.
  - apply buffer_ok_init. unfold PTRDIFF_MAX. lia.
  - unfold class_ok; cbn; unfold PTRDIFF_MAX; lia.
  - vm_compute. reflexivity.
Defined.

(** C5 as stated fails: on a platform whose [max_align_t] is 16-byte
    aligned, a record of a class with [sizeof] 24 (one pointer argument) is
    stored with [size] 24 and takes 32 bytes of the arena. *)
Lemma stored_size_not_aligned_footprint :
  ∃ b' e,
    @EntryBuffer.pushElem cfg_exits (LogEntry.make class24 [7])
      (EntryBuffer.init 64) = ([], Ret (true, b')) ∧
    load 0 (EntryBuffer.m_buffer b') = Some e ∧
    LogEntry.size e = 24 ∧
    EntryBuffer.m_pos b' - 0 = 32 ∧
    @alignedSize cfg_exits (LogEntry.sizeof (LogEntry.vptr e)) = 32 ∧
    LogEntry.size e ≠ @alignedSize cfg_exits (LogEntry.sizeof (LogEntry.vptr e)).
Proof.
  eexists _, _. split; [vm_compute; reflexivity|].
  split; [vm_compute; reflexivity|]. repeat split. discriminate.
Qed.

(** ** The local logger *)

Lemma set_buffers_id l : LocalLogger.set_buffers (LocalLogger.buffers l) l = l.
Proof. by destruct l. Qed.

Lemma at_buffer_run {A} i (m : M EntryBuffer.t A) l b :
  LocalLogger.buffers l !! Z.to_nat i = Some b →
  LocalLogger.at_buffer i m l =
  match m b with
  | (tr, Ret (a, b')) =>
      (tr, Ret (a, LocalLogger.set_buffers
                     (<[Z.to_nat i := b']> (LocalLogger.buffers l)) l))
  | (tr, Exit) => (tr, Exit)
  | (tr, Undef) => (tr, Undef)
  | (tr, OutOfFuel) => (tr, OutOfFuel)
  end.
Proof. intros E. unfold LocalLogger.at_buffer, zoom. by rewrite E. Qed.

Lemma at_buffer_outside {A} i (m : M EntryBuffer.t A) l :
  LocalLogger.buffers l !! Z.to_nat i = None →
  LocalLogger.at_buffer i m l = ([], Undef).
Proof. intros E. unfold LocalLogger.at_buffer, zoom. by rewrite E. Qed.

Lemma at_buffer_frame {A} i (m : M EntryBuffer.t A) l tr a l' :
  LocalLogger.at_buffer i m l = (tr, Ret (a, l')) →
  ∃ b b', LocalLogger.buffers l !! Z.to_nat i = Some b ∧
          m b = (tr, Ret (a, b')) ∧
          l' = LocalLogger.set_buffers (<[Z.to_nat i := b']> (LocalLogger.buffers l)) l.
Proof.
  destruct (LocalLogger.buffers l !! Z.to_nat i) as [b|] eqn:E.
  - rewrite (at_buffer_run _ _ _ _ E).
    destruct (m b) as [tr' [[a' b']| | |]] eqn:Em; try done.
    intros [= -> -> <-]. by exists b, b'.
  - by rewrite (at_buffer_outside _ _ _ E).
Qed.

Lemma full_run l :
  LocalLogger.full l =
  ([], Ret (bool_decide (logger_count l = LocalLogger.numBuffers l), l)).
Proof. by destruct l. Qed.

Lemma logger_peek_run l :
  LocalLogger.at_buffersFull semaphore.peek l = ([], Ret (logger_count l, l)).
Proof. by destruct l. Qed.

Lemma nextIndex_run_full `{!Config} l :
  logger_count l = LocalLogger.numBuffers l →
  LocalLogger.nextIndex l =
  ([EvError "localLogger full, can't nextIndex()"], after_hook l).
Proof.
  intros Hfull. unfold LocalLogger.nextIndex.
  rewrite (bind_ret_run _ _ _ _ _ _ (full_run l)), after_events_nil.
  rewrite bool_decide_eq_true_2 by done. cbn [negb].
  apply QUICKLOG_ERROR_run.
Qed.

Lemma nextIndex_run `{!Config} l :
  logger_count l ≠ LocalLogger.numBuffers l → LocalLogger.numBuffers l ≠ 0 →
  LocalLogger.nextIndex l =
  match LocalLogger.server l with
  | Some _ => ([EvNotify], Ret (tt, advanced l))
  | None => ([EvError "LocalLogger not registered to LogServer\n"],
             after_hook (advanced l))
  end.
Proof.
  intros Hfull HN. unfold LocalLogger.nextIndex.
  rewrite (bind_ret_run _ _ _ _ _ _ (full_run l)), after_events_nil.
  rewrite bool_decide_eq_false_2 by done. cbn [negb].
  rewrite bind_run. cbn [get]. cbn [app]. rewrite decide_False by done.
  destruct l as [N B bs w r sem srv]; cbn. destruct srv; [reflexivity|].
  unfold after_hook, QUICKLOG_ERROR. by destruct error_hook.
Qed.

Lemma log_run_full `{!Config} c vs l :
  logger_count l = LocalLogger.numBuffers l →
  LocalLogger.log c vs l =
  ([EvError "LocalLogger full. Can't log()\n"], after_hook l).
Proof.
  intros Hfull. unfold LocalLogger.log.
  rewrite (bind_ret_run _ _ _ _ _ _ (full_run l)), after_events_nil.
  rewrite bool_decide_eq_true_2 by done.
  rewrite bind_run, QUICKLOG_ERROR_run. unfold after_hook.
  by destruct error_hook.
Qed.

Lemma log_run_first `{!Config} c vs l tr l1 :
  logger_count l ≠ LocalLogger.numBuffers l →
  LocalLogger.at_buffer (LocalLogger.writeIndex l)
    (EntryBuffer.pushElem (LogEntry.make c vs)) l = (tr, Ret (true, l1)) →
  LocalLogger.log c vs l = (tr, Ret (tt, l1)).
Proof.
  intros Hfull E1. unfold LocalLogger.log.
  rewrite (bind_ret_run _ _ _ _ _ _ (full_run l)), after_events_nil.
  rewrite bool_decide_eq_false_2 by done.
  rewrite (bind_ret_run _ _ _ _ _ _ (gets_run _ _)), after_events_nil.
  rewrite (bind_ret_run _ _ _ _ _ _ E1). cbn [negb].
  unfold after_events; cbn. by rewrite app_nil_r.
Qed.

Lemma log_run_second `{!Config} c vs l tr1 l1 tr2 l2 tr3 ok l3 :
  logger_count l ≠ LocalLogger.numBuffers l →
  LocalLogger.at_buffer (LocalLogger.writeIndex l)
    (EntryBuffer.pushElem (LogEntry.make c vs)) l = (tr1, Ret (false, l1)) →
  LocalLogger.nextIndex l1 = (tr2, Ret (tt, l2)) →
  LocalLogger.at_buffer (LocalLogger.writeIndex l2)
    (EntryBuffer.pushElem (LogEntry.make c vs)) l2 = (tr3, Ret (ok, l3)) →
  LocalLogger.log c vs l =
  (tr1 ++ tr2 ++ tr3 ++
     (if ok then [] else [EvError "Log entries bigger than buffer size\n"]),
   if ok then Ret (tt, l3) else after_hook l3).
Proof.
  intros Hfull E1 E2 E3. unfold LocalLogger.log.
  rewrite (bind_ret_run _ _ _ _ _ _ (full_run l)), after_events_nil.
  rewrite bool_decide_eq_false_2 by done.
  rewrite (bind_ret_run _ _ _ _ _ _ (gets_run _ _)), after_events_nil.
  rewrite (bind_ret_run _ _ _ _ _ _ E1). cbn [negb].
  rewrite (bind_ret_run _ _ _ _ _ _ E2).
  rewrite (bind_ret_run _ _ _ _ _ _ (gets_run _ _)), after_events_nil.
  rewrite (bind_ret_run _ _ _ _ _ _ E3).
  destruct ok; cbn [negb].
  - reflexivity.
  - rewrite QUICKLOG_ERROR_run. reflexivity.
Qed.

Lemma logger_ok_lookup l :
  logger_ok l →
  ∃ b, LocalLogger.buffers l !! Z.to_nat (LocalLogger.writeIndex l) = Some b ∧
       buffer_ok b ∧ EntryBuffer.size b = LocalLogger.bufferSize l.
Proof.
  intros (HN & Hlen & Hw & Hall).
  destruct (lookup_lt_is_Some_2 (LocalLogger.buffers l)
              (Z.to_nat (LocalLogger.writeIndex l))) as [b Hb]; [lia|].
  exists b. split; [done|]. by apply (Forall_lookup_1 _ _ _ _ Hall Hb).
Qed.

Lemma uint8_t_le z : 0 ≤ z → 0 ≤ uint8_t z ≤ z.
Proof.
  intros Hz. unfold uint8_t. split; [apply Z.mod_pos_bound; lia|].
  apply Z.mod_le; lia.
Qed.

Lemma logger_ok_advanced l : logger_ok l → logger_ok (advanced l).
Proof.
  intros (HN & Hlen & Hw & Hall). unfold logger_ok, advanced; cbn.
  split; [done|]. split; [done|]. split; [|done].
  pose proof (Z.mod_pos_bound (LocalLogger.writeIndex l + 1)
                (LocalLogger.numBuffers l)) as Hm.
  pose proof (uint8_t_le ((LocalLogger.writeIndex l + 1) `mod`
                            LocalLogger.numBuffers l)). lia.
Qed.

Lemma logger_ok_set_buffer l i b :
  logger_ok l → buffer_ok b → EntryBuffer.size b = LocalLogger.bufferSize l →
  logger_ok (LocalLogger.set_buffers (<[i := b]> (LocalLogger.buffers l)) l).
Proof.
  intros (HN & Hlen & Hw & Hall) Hb Hsz. unfold logger_ok; cbn.
  split; [done|]. split; [by rewrite length_insert|]. split; [done|].
  by apply Forall_insert.
Qed.

Lemma pushElem_total `{!Config} b elem :
  0 < QUICKLOG_ALIGN → buffer_ok b → class_ok (LogEntry.vptr elem) →
  ∃ ok b', EntryBuffer.pushElem elem b = ([], Ret (ok, b')) ∧
           buffer_ok b' ∧ EntryBuffer.size b' = EntryBuffer.size b ∧
           (ok = false → b' = b) ∧
           (ok = true → EntryBuffer.m_pos b' ≠ 0).
Proof.
  intros HA Hb Hcl.
  destruct (decide (alignedSize (LogEntry.sizeof (LogEntry.vptr elem))
                    + EntryBuffer.m_pos b ≤ EntryBuffer.size b)) as [Hfit|Hno].
  - destruct (pushElem_fits b elem HA Hb Hcl Hfit) as (buf & Hrun & Hlen & _).
    eexists true, _. split; [exact Hrun|].
    pose proof (alignedSize_class _ HA Hcl) as [Hlo Hhi].
    destruct Hb as (Hc & Hp & Hs & Hl). destruct Hcl as [Hc0 Hmax].
    unfold buffer_ok; cbn. repeat split; try lia; try congruence.
  - exists false, b. split; [by apply pushElem_no_fit|]. done.
Qed.

(** C3.  A call of [log] on a registered logger in one of its states.  If
    [buffersFull.peek() == numBuffers], the error hook is invoked with the
    logger-full message and, if it returns, the call returns with the logger
    unchanged.  Otherwise [pushElem] is attempted on [buffers[writeIndex]];
    if it accepts, that is all.  If it rejects, [nextIndex] advances (index
    moved on modulo [numBuffers], one [put], the server notified) and
    [pushElem] is attempted once more, on the arena now at [writeIndex]; the
    error hook is invoked with the entry-too-large message exactly when this
    second attempt rejects as well. *)
Theorem log_pushes_then_retries_once `{!Config}
    (l : LocalLogger.t) (c : LogEntry.class) (vs : list Z) (srv : nat) :
  0 < QUICKLOG_ALIGN → logger_ok l → class_ok c → LocalLogger.server l = Some srv →
  let ent := LogEntry.make c vs in
  if decide (logger_count l = LocalLogger.numBuffers l) then
    LocalLogger.log c vs l =
      ([EvError "LocalLogger full. Can't log()\n"], after_hook l)
  else
    ∃ b ok1 b1,
      LocalLogger.buffers l !! Z.to_nat (LocalLogger.writeIndex l) = Some b ∧
      EntryBuffer.pushElem ent b = ([], Ret (ok1, b1)) ∧
      if ok1 then
        LocalLogger.log c vs l =
          ([], Ret (tt, LocalLogger.set_buffers
                          (<[Z.to_nat (LocalLogger.writeIndex l) := b1]>
                             (LocalLogger.buffers l)) l))
      else
        ∃ l' b' ok2 b2,
          LocalLogger.nextIndex l = ([EvNotify], Ret (tt, l')) ∧
          l' = advanced l ∧
          LocalLogger.buffers l' !! Z.to_nat (LocalLogger.writeIndex l') = Some b' ∧
          EntryBuffer.pushElem ent b' = ([], Ret (ok2, b2)) ∧
          LocalLogger.log c vs l =
            if ok2 then
              ([EvNotify],
               Ret (tt, LocalLogger.set_buffers
                          (<[Z.to_nat (LocalLogger.writeIndex l') := b2]>
                             (LocalLogger.buffers l')) l'))
            else
              ([EvNotify; EvError "Log entries bigger than buffer size\n"],
               after_hook l').
Proof.
  intros HA Hl Hcl Hsrv ent.
  destruct (decide _) as [Hfull|Hfull]; [by apply log_run_full|].
  destruct (logger_ok_lookup l Hl) as (b & Hb & Hbok & Hbsz).
  destruct (pushElem_total b ent HA Hbok Hcl) as (ok1 & b1 & Hrun1 & _ & _ & Hrej1 & _).
  exists b, ok1, b1. split; [done|]. split; [done|].
  pose proof (at_buffer_run _ (EntryBuffer.pushElem ent) l b Hb) as Hat1.
  rewrite Hrun1 in Hat1. destruct ok1.
  { by apply log_run_first. }
  rewrite (Hrej1 eq_refl), list_insert_id, set_buffers_id in Hat1 by done.
  assert (LocalLogger.numBuffers l ≠ 0) as HN by (destruct Hl; lia).
  pose proof (nextIndex_run l Hfull HN) as Hnext. rewrite Hsrv in Hnext.
  pose proof (logger_ok_advanced l Hl) as Hl'.
  destruct (logger_ok_lookup _ Hl') as (b' & Hb' & Hbok' & Hbsz').
  destruct (pushElem_total b' ent HA Hbok' Hcl)
    as (ok2 & b2 & Hrun2 & _ & _ & Hrej2 & _).
  exists (advanced l), b', ok2, b2.
  split; [done|]. split; [done|]. split; [done|]. split; [done|].
  pose proof (at_buffer_run _ (EntryBuffer.pushElem ent) (advanced l) b' Hb') as Hat2.
  rewrite Hrun2 in Hat2.
  rewrite (log_run_second c vs l _ _ _ _ _ _ _ Hfull Hat1 Hnext Hat2).
  destruct ok2; [done|].
  rewrite (Hrej2 eq_refl), list_insert_id, set_buffers_id by done. done.
Qed.

Lemma log_pushes_then_retries_once_witness :
  (@LocalLogger.log cfg_exits class24 [9] logger_arena0_filled).1 = [EvNotify] ∧
  ∃ l', (@LocalLogger.log cfg_exits class24 [9] logger_arena0_filled).2 = Ret (tt, l') ∧
        LocalLogger.writeIndex l' = 1 ∧ logger_count l' = 1.
Proof.
  pose proof (@log_pushes_then_retries_once cfg_exits logger_arena0_filled class24 [9] 0%nat)
    as H.
  cbv zeta in H. destruct (decide _) as [E|_] in H.
  { vm_compute in E. discriminate. }
  destruct H as (b & ok1 & b1 & Hb & Hrun & H).
  - reflexivity.
  - unfold logger_ok, logger_arena0_filled; cbn. split; [lia|]. split; [done|].
    split; [lia|]. repeat constructor; cbn; unfold PTRDIFF_MAX; lia.
  - unfold class_ok; cbn; unfold PTRDIFF_MAX; lia.
  - reflexivity.
  - vm_compute in Hb. injection Hb as <-.
    vm_compute in Hrun. injection Hrun as <- <-.
    destruct H as (l' & b' & ok2 & b2 & Hnext & -> & Hb' & Hrun2 & Hlog).
    vm_compute in Hb'. injection Hb' as <-.
    vm_compute in Hrun2. injection Hrun2 as <- <-.
    rewrite Hlog. split; [reflexivity|]. eexists. split; [reflexivity|].
    split; reflexivity.
Defined.

Lemma nextIndex_frame `{!Config} l tr l' :
  LocalLogger.nextIndex l = (tr, Ret (tt, l')) →
  (logger_count l = LocalLogger.numBuffers l ∧ l' = l) ∨
  (logger_count l ≠ LocalLogger.numBuffers l ∧ l' = advanced l).
Proof.
  destruct (decide (logger_count l = LocalLogger.numBuffers l)) as [Hfull|Hfull].
  - rewrite (nextIndex_run_full l Hfull). unfold after_hook.
    destruct error_hook; [done|]. intros [= <- <-]. by left.
  - destruct (decide (LocalLogger.numBuffers l = 0)) as [HN|HN].
    + unfold LocalLogger.nextIndex.
      rewrite (bind_ret_run _ _ _ _ _ _ (full_run l)), after_events_nil.
      rewrite bool_decide_eq_false_2 by done. cbn [negb].
      rewrite bind_run. cbn [get]. rewrite decide_True by done. done.
    + rewrite (nextIndex_run l Hfull HN). unfold after_hook.
      destruct (LocalLogger.server l); [|destruct error_hook; [done|]];
        intros [= <- <-]; by right.
Qed.

Lemma log_frame `{!Config} c vs l tr l' :
  LocalLogger.log c vs l = (tr, Ret (tt, l')) →
  ∃ bs, l' = LocalLogger.set_buffers bs l ∨
        (logger_count l ≠ LocalLogger.numBuffers l ∧
         l' = LocalLogger.set_buffers bs (advanced l)).
Proof.
  destruct (decide (logger_count l = LocalLogger.numBuffers l)) as [Hfull|Hfull].
  { rewrite (log_run_full c vs l Hfull). unfold after_hook.
    destruct error_hook; [done|]. intros [= <- <-].
    exists (LocalLogger.buffers l). left. by rewrite set_buffers_id. }
  unfold LocalLogger.log.
  rewrite (bind_ret_run _ _ _ _ _ _ (full_run l)), after_events_nil.
  rewrite bool_decide_eq_false_2 by done.
  rewrite (bind_ret_run _ _ _ _ _ _ (gets_run _ _)), after_events_nil.
  rewrite bind_run.
  destruct (LocalLogger.at_buffer _ _ l) as [tr1 [[ok1 l1]| | |]] eqn:E1; try done.
  apply at_buffer_frame in E1 as (b & b1 & Hb & Hpush & ->).
  destruct ok1; cbn [negb].
  { intros [= <- <-]. eexists. by left. }
  rewrite bind_run.
  destruct (LocalLogger.nextIndex _) as [tr2 [[[] l2]| | |]] eqn:E2; try done.
  apply nextIndex_frame in E2 as [[Hf _]|[_ ->]]; [done|].
  rewrite (bind_ret_run _ _ _ _ _ _ (gets_run _ _)), after_events_nil.
  rewrite bind_run.
  destruct (LocalLogger.at_buffer _ _ _) as [tr3 [[ok2 l3]| | |]] eqn:E3; try done.
  apply at_buffer_frame in E3 as (b' & b2 & Hb' & Hpush' & ->).
  destruct ok2; cbn [negb].
  - intros [= <- <-]. eexists. right. split; [done|]. reflexivity.
  - rewrite QUICKLOG_ERROR_run. unfold after_hook.
    destruct error_hook; [done|]. intros [= <- <-].
    eexists. right. split; [done|]. reflexivity.
Qed.

Lemma isEmpty_run b :
  EntryBuffer.isEmpty b = ([], Ret (bool_decide (EntryBuffer.m_pos b = 0), b)).
Proof. reflexivity. Qed.

Lemma flush_frame `{!Config} l tr l' :
  LocalLogger.flush l = (tr, Ret (tt, l')) →
  l' = l ∨ (logger_count l ≠ LocalLogger.numBuffers l ∧ l' = advanced l).
Proof.
  unfold LocalLogger.flush.
  rewrite (bind_ret_run _ _ _ _ _ _ (gets_run _ _)), after_events_nil.
  rewrite bind_run.
  destruct (LocalLogger.at_buffer _ _ l) as [tr1 [[e l1]| | |]] eqn:E1; try done.
  apply at_buffer_frame in E1 as (b & b1 & Hb & Hrun & ->).
  rewrite isEmpty_run in Hrun. injection Hrun as <- <- <-.
  rewrite list_insert_id, set_buffers_id by done.
  destruct (bool_decide _); cbn [negb].
  - intros [= <- <-]. by left.
  - destruct (LocalLogger.nextIndex l) as [tr2 [[[] l2]| | |]] eqn:E2; try done.
    intros [= <- <-]. apply nextIndex_frame in E2 as [[_ ->]|[? ->]]; [by left|by right].
Qed.

Lemma logger_get_run `{!Config} l :
  logger_count l ≠ 0 →
  LocalLogger.at_buffersFull semaphore.get l =
  ([], Ret (tt, LocalLogger.set_buffersFull
                  (semaphore.mk
                     (semaphore.numPuts (LocalLogger.buffersFull l))
                     (uint8_t (semaphore.numGets (LocalLogger.buffersFull l) + 1))) l)).
Proof.
  intros Hnz. unfold LocalLogger.at_buffersFull, zoom.
  rewrite get_run_ok; [done|]. intros E. apply Hnz.
  unfold logger_count, sem_count, uint8_t. by rewrite E, Z.sub_diag.
Qed.

Lemma dump_run_idle `{!Config} l :
  logger_count l = 0 → LocalLogger.dump l = ([], Ret (false, l)).
Proof.
  intros Hz. unfold LocalLogger.dump.
  rewrite (bind_ret_run _ _ _ _ _ _ (logger_peek_run l)), after_events_nil.
  rewrite decide_False by (by intros ?). done.
Qed.

Lemma dump_run_take `{!Config} l tr l1 :
  logger_count l ≠ 0 →
  LocalLogger.at_buffer (LocalLogger.readIndex l) EntryBuffer.dump l
    = (tr, Ret (tt, l1)) →
  LocalLogger.dump l = (tr, Ret (true, taken (LocalLogger.buffers l1) l)).
Proof.
  intros Hnz E1. unfold LocalLogger.dump.
  rewrite (bind_ret_run _ _ _ _ _ _ (logger_peek_run l)), after_events_nil.
  rewrite decide_True by done.
  rewrite (bind_ret_run _ _ _ _ _ _ (gets_run _ _)), after_events_nil.
  rewrite (bind_ret_run _ _ _ _ _ _ E1).
  apply at_buffer_frame in E1 as (b & b1 & Hb & Hrun & ->).
  rewrite bind_run. cbn [modify].
  rewrite bind_run, logger_get_run by done.
  unfold after_events; cbn. by rewrite app_nil_r.
Qed.

Lemma dump_inv `{!Config} l tr d l' :
  LocalLogger.dump l = (tr, Ret (d, l')) →
  (d = false ∧ logger_count l = 0 ∧ l' = l ∧ tr = []) ∨
  (d = true ∧ logger_count l ≠ 0 ∧
   ∃ l1, LocalLogger.at_buffer (LocalLogger.readIndex l) EntryBuffer.dump l
           = (tr, Ret (tt, l1)) ∧
         l' = taken (LocalLogger.buffers l1) l).
Proof.
  destruct (decide (logger_count l = 0)) as [Hz|Hnz].
  - rewrite (dump_run_idle l Hz). intros [= <- <- <-]. by left.
  - destruct (LocalLogger.at_buffer (LocalLogger.readIndex l) EntryBuffer.dump l)
      as [tr1 [[[] l1]| | |]] eqn:E1.
    { rewrite (dump_run_take l _ _ Hnz E1). intros [= <- <- <-]. right. eauto. }
    all: unfold LocalLogger.dump;
      rewrite (bind_ret_run _ _ _ _ _ _ (logger_peek_run l)), after_events_nil;
      rewrite decide_True by done;
      rewrite (bind_ret_run _ _ _ _ _ _ (gets_run _ _)), after_events_nil;
      by rewrite bind_run, E1.
Qed.

Lemma dump_frame `{!Config} l tr d l' :
  LocalLogger.dump l = (tr, Ret (d, l')) →
  (d = false ∧ logger_count l = 0 ∧ l' = l ∧ tr = []) ∨
  (d = true ∧ logger_count l ≠ 0 ∧ ∃ bs, l' = taken bs l).
Proof.
  intros [?|(? & ? & l1 & _ & ->)]%dump_inv; [by left|]. right. eauto.
Qed.

Lemma bind_inv_ret {St A B} (m : M St A) (f : A → M St B) s tr x :
  (m ≫= f) s = (tr, Ret x) →
  ∃ tr1 a s1 tr2, m s = (tr1, Ret (a, s1)) ∧ f a s1 = (tr2, Ret x) ∧ tr = tr1 ++ tr2.
Proof.
  rewrite bind_run. destruct (m s) as [tr1 [[a s1]| | |]]; try done.
  destruct (f a s1) as [tr2 o] eqn:E. intros [= <- ->]. by exists tr1, a, s1, tr2.
Qed.

Lemma logger_count_range l : 0 ≤ logger_count l < 256.
Proof. unfold logger_count, sem_count, uint8_t. apply Z.mod_pos_bound. lia. Qed.

Lemma logger_count_advanced l :
  logger_count (advanced l) = uint8_t (logger_count l + 1).
Proof.
  unfold logger_count, advanced; cbn.
  destruct (LocalLogger.buffersFull l). apply sem_count_put.
Qed.

Lemma logger_count_taken bs l :
  logger_count (taken bs l) = uint8_t (logger_count l - 1).
Proof.
  unfold logger_count, taken; cbn.
  destruct (LocalLogger.buffersFull l). apply sem_count_get.
Qed.

Lemma run_logger_op_frame `{!Config} o l tr l' :
  run_logger_op o l = (tr, Ret (tt, l')) →
  ∃ bs, l' = LocalLogger.set_buffers bs l ∨
        (logger_count l ≠ LocalLogger.numBuffers l ∧
         l' = LocalLogger.set_buffers bs (advanced l)) ∨
        (logger_count l ≠ 0 ∧ l' = taken bs l).
Proof.
  destruct o as [c vs| |]; cbn [run_logger_op].
  - intros [bs [->|[? ->]]]%log_frame; exists bs; auto.
  - intros [->|[? ->]]%flush_frame; exists (LocalLogger.buffers l).
    + left. by rewrite set_buffers_id.
    + right. left. split; [done|]. symmetry. apply (set_buffers_id (advanced l)).
  - intros (tr1 & d & l1 & tr2 & Hd & Hret & _)%bind_inv_ret.
    injection Hret as _ ->.
    apply dump_frame in Hd as [(_ & _ & -> & _)|(_ & Hnz & bs & ->)].
    + exists (LocalLogger.buffers l). left. by rewrite set_buffers_id.
    + exists bs. auto.
Qed.

Lemma reachable_count `{!Config} N B srv l :
  1 ≤ N ≤ 255 →
  reachable (LocalLogger.set_server srv (LocalLogger.init N B)) l →
  LocalLogger.numBuffers l = N ∧ logger_count l ≤ N.
Proof.
  intros HN. induction 1 as [|l o tr l' _ [IHN IHc] Hstep].
  - split; [reflexivity|]. change (0 ≤ N). lia.
  - pose proof (logger_count_range l) as Hr.
    apply run_logger_op_frame in Hstep as [bs [->|[[Hnf ->]|[Hnz ->]]]].
    + done.
    + split; [done|]. change (logger_count (advanced l) ≤ N).
      rewrite logger_count_advanced. unfold uint8_t. rewrite Z.mod_small; lia.
    + split; [done|]. rewrite logger_count_taken.
      unfold uint8_t. rewrite Z.mod_small; lia.
Qed.

(** C7.  For a logger with [N] arenas, [1 <= N <= 255], registered or not,
    in every state reachable from the initial one by calls of [log],
    [flush] and [dump] that returned: [buffersFull.peek() <= N]; and when
    [peek()] equals [N], no such call increments [numPuts] or changes
    [writeIndex]: [log] and [flush] then end in the error hook without
    advancing. *)
Theorem count_bounded_and_no_advance_when_full `{!Config}
    (N B : Z) (srv : option nat) (l : LocalLogger.t) :
  1 ≤ N ≤ 255 →
  reachable (LocalLogger.set_server srv (LocalLogger.init N B)) l →
  LocalLogger.at_buffersFull semaphore.peek l = ([], Ret (logger_count l, l)) ∧
  logger_count l ≤ N ∧
  (logger_count l = N →
   (∀ o tr l', run_logger_op o l = (tr, Ret (tt, l')) →
      semaphore.numPuts (LocalLogger.buffersFull l')
        = semaphore.numPuts (LocalLogger.buffersFull l) ∧
      LocalLogger.writeIndex l' = LocalLogger.writeIndex l) ∧
   (∀ c vs, LocalLogger.log c vs l =
              ([EvError "LocalLogger full. Can't log()\n"], after_hook l)) ∧
   LocalLogger.nextIndex l =
     ([EvError "localLogger full, can't nextIndex()"], after_hook l)).
Proof.
  intros HN Hreach. destruct (reachable_count N B srv l HN Hreach) as [HNl Hc].
  split; [apply logger_peek_run|]. split; [done|]. intros Hfull.
  split; [|split].
  - intros o tr l' Hstep.
    apply run_logger_op_frame in Hstep as [bs [->|[[Hnf ->]|[Hnz ->]]]]; try done.
    congruence.
  - intros c vs. apply log_run_full. congruence.
  - apply nextIndex_run_full. congruence.
Qed.

Lemma reachable_ops `{!Config} l0 ops : ∀ l tr l',
  reachable l0 l → run_logger_ops ops l = (tr, Ret (tt, l')) → reachable l0 l'.
Proof.
  induction ops as [|o ops IH]; intros l tr l' Hl Hrun.
  - by injection Hrun as _ <-.
  - cbn [run_logger_ops] in Hrun.
    apply bind_inv_ret in Hrun as (tr1 & [] & l1 & tr2 & Hstep & Hrest & _).
    eapply IH; [|exact Hrest]. by eapply reachable_step.
Qed.

Lemma count_bounded_and_no_advance_when_full_witness :
  ∃ l, @run_logger_ops cfg_returns
         [OpLog class24 [1]; OpFlush;
          OpLog class24 [2]; OpFlush]
         (LocalLogger.set_server (Some 0%nat) (LocalLogger.init 2 32))
       = ([EvNotify; EvNotify], Ret (tt, l)) ∧
       logger_count l = 2 ∧
       logger_count l ≤ 2 ∧
       @LocalLogger.nextIndex cfg_returns l =
         ([EvError "localLogger full, can't nextIndex()"], Ret (tt, l)).
Proof.
  eexists. split; [vm_compute; reflexivity|]. split; [reflexivity|].
  match goal with
  | |- logger_count ?l ≤ 2 ∧ _ =>
      destruct (@count_bounded_and_no_advance_when_full cfg_returns 2 32
                  (Some 0%nat) l) as (_ & Hle & Hfull)
  end.
  - lia.
  - eapply (@reachable_ops cfg_returns _
              [OpLog class24 [1]; OpFlush;
               OpLog class24 [2]; OpFlush]);
      [apply reachable_start|].
    vm_compute. reflexivity.
  - split; [exact Hle|].
    destruct (Hfull eq_refl) as (_ & _ & Hnext). exact Hnext.
Defined.

(** C1: the code does not do what the claim says.  [LocalLogger::dump]
    increments [readIndex] without reducing it modulo [numBuffers]
    ([nextIndex] does reduce [writeIndex]).  With two arenas, after two
    rounds of log, flush and dump, [readIndex] is 2, which is not an index of
    [buffers]; the dump of a third round indexes [buffers[2]], outside the
    array. *)
Theorem readIndex_leaves_the_array :
  (∃ l, @run_logger_ops cfg_exits (one_round ++ one_round) logger_2x32
          = ([EvNotify; EvPrint [1]; EvNotify; EvPrint [1]], Ret (tt, l)) ∧
        @reachable cfg_exits logger_2x32 l ∧
        LocalLogger.numBuffers l = 2 ∧
        LocalLogger.readIndex l = 2 ∧
        LocalLogger.buffers l !! Z.to_nat (LocalLogger.readIndex l) = None) ∧
  @run_logger_ops cfg_exits (one_round ++ one_round ++ one_round) logger_2x32
    = ([EvNotify; EvPrint [1]; EvNotify; EvPrint [1]; EvNotify], Undef).
Proof.
  split; [|vm_compute; reflexivity].
  eexists. split; [vm_compute; reflexivity|].
  split; [|split; [reflexivity|split; reflexivity]].
  eapply (@reachable_ops cfg_exits logger_2x32 (one_round ++ one_round));
    [apply reachable_start|].
  vm_compute. reflexivity.
Qed.

(** ** The log server *)

Lemma at_logger_frame {A} a (m : M LocalLogger.t A) w tr x w' :
  LogServer.at_logger a m w = (tr, Ret (x, w')) →
  ∃ l l', LogServer.loggers w !! a = Some l ∧ m l = (tr, Ret (x, l')) ∧
          w' = LogServer.set_loggers (<[a := l']> (LogServer.loggers w)) w.
Proof.
  unfold LogServer.at_logger, zoom.
  destruct (LogServer.loggers w !! a) as [l|]; [|done].
  destruct (m l) as [tr' [[x' l']| | |]] eqn:Em; try done.
  intros [= -> -> <-]. by exists l, l'.
Qed.

Lemma addLogger_full `{!Config} w logger l :
  LogServer.nLoggers (LogServer.server w) = LogServer.maxLoggers (LogServer.server w) →
  LogServer.loggers w !! logger = Some l →
  LogServer.addLogger logger w =
  match error_hook with
  | HookExits =>
      ([EvLock;
        EvError "Attempt to add more than maxLoggers loggers to LogServer.\n"],
       Exit)
  | HookReturns =>
      ([EvLock;
        EvError "Attempt to add more than maxLoggers loggers to LogServer.\n";
        EvUnlock],
       Ret (tt, LogServer.mkWorld (LogServer.this w) (LogServer.server w)
                  (<[logger := LocalLogger.set_server (Some (LogServer.this w)) l]>
                     (LogServer.loggers w))))
  end.
Proof.
  intros Hfull Hl. unfold LogServer.addLogger.
  rewrite bind_run. cbn [Platform.lock emit].
  rewrite (bind_ret_run _ _ _ _ _ _ (gets_run _ _)), after_events_nil.
  rewrite decide_True by done.
  rewrite bind_run, QUICKLOG_ERROR_run. unfold after_hook.
  destruct error_hook; [done|].
  rewrite bind_run. cbn [get].
  rewrite bind_run. unfold LogServer.at_logger, zoom. rewrite Hl. cbn.
  reflexivity.
Qed.

(** C6, as amended.  [addLogger] called when [nLoggers == maxLoggers]
    takes the lock and invokes the error hook.  If the hook exits, that is
    the end.  If the hook returns, the registry array, [nLoggers] and the
    run flag are left as they were, but the logger's [server] pointer is set
    to this server all the same, and the lock is released. *)
Theorem addLogger_on_full_registry `{!Config}
    (w : LogServer.World) (logger : nat) (l : LocalLogger.t) :
  LogServer.nLoggers (LogServer.server w) = LogServer.maxLoggers (LogServer.server w) →
  LogServer.loggers w !! logger = Some l →
  match error_hook with
  | HookExits =>
      LogServer.addLogger logger w =
        ([EvLock;
          EvError "Attempt to add more than maxLoggers loggers to LogServer.\n"],
         Exit)
  | HookReturns =>
      ∃ w', LogServer.addLogger logger w =
              ([EvLock;
                EvError "Attempt to add more than maxLoggers loggers to LogServer.\n";
                EvUnlock],
               Ret (tt, w')) ∧
            LogServer.server w' = LogServer.server w ∧
            LogServer.loggers w' !! logger
              = Some (LocalLogger.set_server (Some (LogServer.this w)) l) ∧
            (∀ a, a ≠ logger → LogServer.loggers w' !! a = LogServer.loggers w !! a)
  end.
Proof.
  intros Hfull Hl. pose proof (addLogger_full w logger l Hfull Hl) as Hrun.
  destruct error_hook; [done|].
  eexists. split; [exact Hrun|]. cbn. split; [done|]. split.
  - apply list_lookup_insert_eq. by eapply lookup_lt_Some.
  - intros a Ha. by apply list_lookup_insert_ne.
Qed.

Lemma addLogger_on_full_registry_witness :
  ∃ w', @LogServer.addLogger cfg_returns 1 (world_registry_full (Some 3%nat)) =
          ([EvLock;
            EvError "Attempt to add more than maxLoggers loggers to LogServer.\n";
            EvUnlock],
           Ret (tt, w')) ∧
        LogServer.server w' = LogServer.server (world_registry_full (Some 3%nat)) ∧
        LogServer.loggers w' !! 1%nat
          = Some (LocalLogger.set_server (Some 7%nat)
                    (LocalLogger.set_server (Some 3%nat) (LocalLogger.init 2 32))) ∧
        (∀ a, a ≠ 1%nat →
              LogServer.loggers w' !! a
              = LogServer.loggers (world_registry_full (Some 3%nat)) !! a).
Proof.
  apply (@addLogger_on_full_registry cfg_returns (world_registry_full (Some 3%nat))
           1%nat (LocalLogger.set_server (Some 3%nat) (LocalLogger.init 2 32)));
    reflexivity.
Defined.

(** C6 as stated fails when the error hook returns: with a registry of
    capacity one that already holds a logger, registering a second logger,
    whose [server] pointer is null, leaves the registry alone but sets that
    pointer. *)
Lemma addLogger_full_still_sets_server :
  ∃ w', (@LogServer.addLogger cfg_returns 1 (world_registry_full None)).2
          = Ret (tt, w') ∧
        LogServer.server w' = LogServer.server (world_registry_full None) ∧
        LocalLogger.server <$> LogServer.loggers (world_registry_full None) !! 1%nat
          = Some None ∧
        LocalLogger.server <$> LogServer.loggers w' !! 1%nat = Some (Some 7%nat) ∧
        LogServer.loggers w' ≠ LogServer.loggers (world_registry_full None).
Proof.
  eexists. split; [vm_compute; reflexivity|].
  split; [reflexivity|]. split; [reflexivity|]. split; [reflexivity|].
  intros E. discriminate E.
Qed.

Lemma shutdown_run w :
  LogServer.shutdown w =
  ([EvNotify],
   Ret (tt, LogServer.set_server (LogServer.set_run false (LogServer.server w)) w)).
Proof. reflexivity. Qed.

Lemma process_stopped `{!Config} fuel others w :
  LogServer.run (LogServer.server w) = false →
  LogServer._process fuel others w = LogServer._dumpAll fuel w.
Proof.
  intros Hrun. destruct others; cbn [LogServer._process];
    rewrite bind_run; cbn [get]; rewrite Hrun;
    by destruct (LogServer._dumpAll fuel w).
Qed.

Lemma process_running `{!Config} fuel o others w :
  LogServer.run (LogServer.server w) = true →
  LogServer._process fuel (o :: others) w =
  (Platform.wait o ;; LogServer._dumpAll fuel ;; LogServer._process fuel others) w.
Proof.
  intros Hrun. cbn [LogServer._process].
  rewrite (bind_run get). cbn [get]. rewrite Hrun.
  by destruct ((Platform.wait o ;; _) w).
Qed.

Lemma process_waiting `{!Config} fuel w :
  LogServer.run (LogServer.server w) = true →
  LogServer._process fuel [] w = ([], OutOfFuel).
Proof.
  intros Hrun. cbn [LogServer._process].
  rewrite (bind_run get). cbn [get]. by rewrite Hrun.
Qed.

Lemma process_after_rounds `{!Config} fuel pre : ∀ rest w trs wk,
  rounds fuel pre w = (trs, Ret (tt, wk)) →
  (∀ pre1 o pre2 t w1, pre = pre1 ++ o :: pre2 →
     rounds fuel pre1 w = (t, Ret (tt, w1)) →
     LogServer.run (LogServer.server w1) = true) →
  LogServer.run (LogServer.server wk) = false →
  LogServer._process fuel (pre ++ rest) w
    = after_events trs (LogServer._dumpAll fuel wk).
Proof.
  induction pre as [|o pre IH]; intros rest w trs wk Hrounds Hset Hclr.
  - injection Hrounds as <- <-. rewrite after_events_nil. by apply process_stopped.
  - cbn [app]. rewrite process_running by (by eapply (Hset [] o pre)).
    cbn [rounds] in Hrounds.
    apply bind_inv_ret in Hrounds as (t1 & [] & w1 & t23 & Hwait & Hrest & ->).
    apply bind_inv_ret in Hrest as (t2 & [] & w2 & t3 & Hdump & Hrest & ->).
    rewrite (bind_ret_run _ _ _ _ _ _ Hwait), (bind_ret_run _ _ _ _ _ _ Hdump).
    rewrite (IH rest w2 t3 wk Hrest); [|
      |done].
    + by rewrite !after_events_app, app_assoc.
    + intros pre1 o' pre2 t w' -> Hpre1.
      apply (Hset (o :: pre1) o' pre2 (t1 ++ t2 ++ t)); [done|].
      cbn [rounds].
      rewrite (bind_ret_run _ _ _ _ _ _ Hwait), (bind_ret_run _ _ _ _ _ _ Hdump).
      by rewrite Hpre1.
Qed.

Lemma process_returns_after_drain `{!Config} fuel others : ∀ w tr w',
  LogServer._process fuel others w = (tr, Ret (tt, w')) →
  ∃ pre rest trs wk trf,
    others = pre ++ rest ∧
    rounds fuel pre w = (trs, Ret (tt, wk)) ∧
    LogServer.run (LogServer.server wk) = false ∧
    LogServer._dumpAll fuel wk = (trf, Ret (tt, w')) ∧
    tr = trs ++ trf.
Proof.
  induction others as [|o others IH]; intros w tr w' Hproc.
  - destruct (LogServer.run (LogServer.server w)) eqn:Hrun.
    { by rewrite process_waiting in Hproc. }
    rewrite process_stopped in Hproc by done.
    by exists [], [], [], w, tr.
  - destruct (LogServer.run (LogServer.server w)) eqn:Hrun.
    + rewrite process_running in Hproc by done.
      apply bind_inv_ret in Hproc as (t1 & [] & w1 & t23 & Hwait & Hrest & ->).
      apply bind_inv_ret in Hrest as (t2 & [] & w2 & t3 & Hdump & Hrest & ->).
      destruct (IH _ _ _ Hrest) as (pre & rest & trs & wk & trf & -> & Hr & Hclr & Hd & ->).
      exists (o :: pre), rest, (t1 ++ t2 ++ trs), wk, trf.
      split; [done|]. split; [|split; [done|split; [done|]]].
      * cbn [rounds].
        rewrite (bind_ret_run _ _ _ _ _ _ Hwait), (bind_ret_run _ _ _ _ _ _ Hdump).
        by rewrite Hr.
      * by rewrite <- !app_assoc.
    + rewrite process_stopped in Hproc by done.
      by exists [], (o :: others), [], w, tr.
Qed.

(** ** Computations without an iteration bound *)

Lemma bounded_ret {St A} (a : A) : bounded (mret a : M St A).
Proof. by intros s. Qed.

Lemma bounded_bind {St A B} (m : M St A) (f : A → M St B) :
  bounded m → (∀ a, bounded (f a)) → bounded (m ≫= f).
Proof.
  intros Hm Hf s. rewrite bind_run. specialize (Hm s).
  destruct (m s) as [tr [[a s']| | |]]; try done.
  specialize (Hf a s'). by destruct (f a s').
Qed.

Lemma bounded_get {St} : bounded (@get St).
Proof. by intros s. Qed.

Lemma bounded_gets {St A} (f : St → A) : bounded (gets f).
Proof. by intros s. Qed.

Lemma bounded_modify {St} (f : St → St) : bounded (modify f).
Proof. by intros s. Qed.

Lemma bounded_emit {St} e : bounded (@emit St e).
Proof. by intros s. Qed.

Lemma bounded_undefined {St A} : bounded (@undefined St A).
Proof. by intros s. Qed.

Lemma bounded_exit {St A} : bounded (@exit St A).
Proof. by intros s. Qed.

Lemma bounded_zoom {St T A} (proj : St → option T) upd (m : M T A) :
  bounded m → bounded (zoom proj upd m).
Proof.
  intros Hm s. unfold zoom. destruct (proj s) as [t|]; [|done].
  specialize (Hm t). by destruct (m t) as [tr [[a t']| | |]].
Qed.

Lemma bounded_QUICKLOG_ERROR `{!Config} {St} msg : bounded (@QUICKLOG_ERROR _ St msg).
Proof. intros s. rewrite QUICKLOG_ERROR_run. unfold after_hook. by destruct error_hook. Qed.

Create HintDb bounded.
#[local] Hint Resolve bounded_ret bounded_get bounded_gets bounded_modify bounded_emit
  bounded_undefined bounded_exit bounded_zoom bounded_QUICKLOG_ERROR : bounded.

Ltac bounded_steps :=
  repeat first
    [ solve [auto with bounded]
    | apply bounded_bind; [|intros ?]
    | apply bounded_zoom
    | match goal with |- bounded (if ?c then _ else _) => destruct c end
    | match goal with |- bounded (match ?c with _ => _ end) => destruct c end ];
  auto with bounded.

Lemma bounded_sem_get `{!Config} : bounded semaphore.get.
Proof. unfold semaphore.get. bounded_steps. Qed.

Lemma bounded_read p : bounded (EntryBuffer.read p).
Proof. unfold EntryBuffer.read. bounded_steps. Qed.

Lemma bounded_dump_loop `{!Config} n : ∀ p, bounded (EntryBuffer.dump_loop n p).
Proof.
  induction n as [|n IH]; intros p; cbn [EntryBuffer.dump_loop].
  - apply bounded_ret.
  - apply bounded_bind; [apply bounded_read|]. intros e.
    apply bounded_bind; [apply bounded_emit|]. intros _. apply IH.
Qed.

Lemma bounded_buffer_dump `{!Config} : bounded EntryBuffer.dump.
Proof.
  unfold EntryBuffer.dump, EntryBuffer.clear.
  apply bounded_bind; [apply bounded_get|]. intros b.
  apply bounded_bind; [apply bounded_dump_loop|]. intros _. bounded_steps.
Qed.

Lemma bounded_logger_dump `{!Config} : bounded LocalLogger.dump.
Proof.
  unfold LocalLogger.dump, LocalLogger.at_buffersFull, LocalLogger.at_buffer,
    semaphore.peek.
  pose proof bounded_buffer_dump. pose proof bounded_sem_get.
  bounded_steps.
Qed.

Lemma bounded_dump_loggers `{!Config} ixs : ∀ d, bounded (LogServer.dump_loggers ixs d).
Proof.
  induction ixs as [|i ixs IH]; intros d; cbn [LogServer.dump_loggers].
  - apply bounded_ret.
  - apply bounded_bind; [apply bounded_gets|]. intros s.
    destruct (LogServer.localLoggers s !! i) as [[a|]|]; try apply bounded_undefined.
    apply bounded_bind; [|intros ?; apply IH].
    apply bounded_zoom, bounded_logger_dump.
Qed.

(** ** A drain pass comes to an end *)

Lemma pending_insert ls : ∀ a l l',
  ls !! a = Some l →
  foldr (λ l n, logger_count l + n) 0 (<[a := l']> ls)
  = foldr (λ l n, logger_count l + n) 0 ls - logger_count l + logger_count l'.
Proof.
  induction ls as [|x ls IH]; intros [|a] l l' Hl; try done.
  - injection Hl as ->. cbn. lia.
  - change (<[S a := l']> (x :: ls)) with (x :: <[a := l']> ls).
    cbn [foldr]. rewrite (IH a l l' Hl). lia.
Qed.

Lemma pending_nonneg w : 0 ≤ pending w.
Proof.
  unfold pending. induction (LogServer.loggers w) as [|l ls IH]; cbn; [done|].
  pose proof (logger_count_range l). lia.
Qed.

Lemma at_logger_dump_frame `{!Config} a w tr d w' :
  LogServer.at_logger a LocalLogger.dump w = (tr, Ret (d, w')) →
  LogServer.server w' = LogServer.server w ∧ LogServer.this w' = LogServer.this w ∧
  pending w' = pending w - (if d then 1 else 0).
Proof.
  intros (l & l' & Hl & Hd & ->)%at_logger_frame.
  split; [done|]. split; [done|]. unfold pending; cbn.
  rewrite (pending_insert _ _ _ _ Hl).
  apply dump_frame in Hd as [(-> & _ & -> & _)|(-> & Hnz & bs & ->)]; [lia|].
  rewrite logger_count_taken. pose proof (logger_count_range l).
  unfold uint8_t. rewrite Z.mod_small; lia.
Qed.

Lemma dump_loggers_frame `{!Config} ixs : ∀ d w tr d' w',
  LogServer.dump_loggers ixs d w = (tr, Ret (d', w')) →
  LogServer.server w' = LogServer.server w ∧ LogServer.this w' = LogServer.this w ∧
  pending w' ≤ pending w ∧
  (d' = true → d = true ∨ pending w' < pending w).
Proof.
  induction ixs as [|i ixs IH]; intros d w tr d' w' Hrun.
  - injection Hrun as _ <- <-. split; [done|]. split; [done|]. split; [lia|]. auto.
  - cbn [LogServer.dump_loggers] in Hrun.
    rewrite (bind_ret_run _ _ _ _ _ _ (gets_run _ _)), after_events_nil in Hrun.
    destruct (LogServer.localLoggers (LogServer.server w) !! i) as [[a|]|]; try done.
    apply bind_inv_ret in Hrun as (t1 & d1 & w1 & t2 & Hd & Hrest & _).
    apply at_logger_dump_frame in Hd as (Hs1 & Ht1 & Hp1).
    apply IH in Hrest as (Hs2 & Ht2 & Hp2 & Hd2).
    split; [congruence|]. split; [congruence|].
    split; [destruct d1; lia|].
    intros Hd'. destruct (Hd2 Hd') as [Hor|Hlt].
    + destruct d; [by left|]. destruct d1; [|done]. right. lia.
    + right. destruct d1; lia.
Qed.

Lemma dumpAll_loop_frame `{!Config} fuel : ∀ w tr w',
  LogServer.dumpAll_loop fuel w = (tr, Ret (tt, w')) →
  LogServer.server w' = LogServer.server w ∧ LogServer.this w' = LogServer.this w.
Proof.
  induction fuel as [|fuel IH]; intros w tr w' Hrun; [done|].
  cbn [LogServer.dumpAll_loop] in Hrun.
  rewrite (bind_ret_run _ _ _ _ _ _ (gets_run _ _)), after_events_nil in Hrun.
  apply bind_inv_ret in Hrun as (t1 & d & w1 & t2 & Hd & Hrest & _).
  apply dump_loggers_frame in Hd as (Hs1 & Ht1 & _).
  destruct d.
  - apply IH in Hrest as [Hs2 Ht2]. split; congruence.
  - by injection Hrest as _ <-.
Qed.

Lemma dumpAll_loop_enough `{!Config} fuel : ∀ w,
  pending w < Z.of_nat fuel → (LogServer.dumpAll_loop fuel w).2 ≠ OutOfFuel.
Proof.
  induction fuel as [|fuel IH]; intros w Hfuel.
  { pose proof (pending_nonneg w). lia. }
  cbn [LogServer.dumpAll_loop].
  rewrite (bind_ret_run _ _ _ _ _ _ (gets_run _ _)), after_events_nil.
  rewrite bind_run.
  pose proof (bounded_dump_loggers
                (seq 0 (Z.to_nat (LogServer.nLoggers (LogServer.server w)))) false w)
    as Hb.
  destruct (LogServer.dump_loggers _ false w) as [t1 [[d w1]| | |]] eqn:Hd; try done.
  apply dump_loggers_frame in Hd as (_ & _ & Hle & Hlt).
  destruct d.
  - destruct (Hlt eq_refl) as [?|Hlt']; [done|].
    specialize (IH w1). destruct (LogServer.dumpAll_loop fuel w1). apply IH. lia.
  - done.
Qed.

Lemma dumpAll_frame `{!Config} fuel w tr w' :
  LogServer._dumpAll fuel w = (tr, Ret (tt, w')) →
  LogServer.server w' = LogServer.server w ∧ LogServer.this w' = LogServer.this w ∧
  ∃ tr', tr = EvLock :: tr' ++ [EvUnlock] ∧
         LogServer.dumpAll_loop fuel w = (tr', Ret (tt, w')).
Proof.
  unfold LogServer._dumpAll.
  intros (t1 & [] & w1 & t2 & Hlock & Hrest & ->)%bind_inv_ret.
  injection Hlock as <- <-.
  apply bind_inv_ret in Hrest as (t3 & [] & w2 & t4 & Hloop & Hunlock & ->).
  injection Hunlock as <- <-.
  destruct (dumpAll_loop_frame _ _ _ _ Hloop) as [Hs Ht].
  split; [done|]. split; [done|]. by exists t3.
Qed.

Lemma dumpAll_enough `{!Config} fuel w :
  pending w < Z.of_nat fuel → (LogServer._dumpAll fuel w).2 ≠ OutOfFuel.
Proof.
  intros Hfuel. unfold LogServer._dumpAll.
  rewrite bind_run. cbn [Platform.lock emit]. rewrite bind_run.
  pose proof (dumpAll_loop_enough fuel w Hfuel) as Hloop.
  by destruct (LogServer.dumpAll_loop fuel w) as [t [[[] w1]| | |]].
Qed.

(** C9.  [shutdown] clears the run flag and calls [platform.notify()].
    The consumer ([process], that is [_process]), as long as it reads the
    flag set, calls [platform.wait()], then [_dumpAll], and reads the flag
    again.  When, after some rounds, it reads the flag cleared, it runs
    exactly one more [_dumpAll] and returns what that returns; so whenever
    it returns, the last thing it did is a complete drain pass started with
    the flag cleared.  A drain pass takes and releases the lock, changes
    neither the flag nor the registry, and ends once it is given more
    rounds than there are arenas pending. *)
Theorem consumer_drains_once_more_then_returns `{!Config} (fuel : nat) :
  (∀ w, LogServer.shutdown w =
          ([EvNotify],
           Ret (tt, LogServer.set_server
                      (LogServer.set_run false (LogServer.server w)) w))) ∧
  (∀ o others w,
     LogServer.run (LogServer.server w) = true →
     LogServer.process fuel (o :: others) w =
       (Platform.wait o ;; LogServer._dumpAll fuel ;;
        LogServer.process fuel others) w) ∧
  (∀ pre rest w trs wk,
     rounds fuel pre w = (trs, Ret (tt, wk)) →
     (∀ pre1 o pre2 t w1, pre = pre1 ++ o :: pre2 →
        rounds fuel pre1 w = (t, Ret (tt, w1)) →
        LogServer.run (LogServer.server w1) = true) →
     LogServer.run (LogServer.server wk) = false →
     LogServer.process fuel (pre ++ rest) w
       = after_events trs (LogServer._dumpAll fuel wk)) ∧
  (∀ others w tr w',
     LogServer.process fuel others w = (tr, Ret (tt, w')) →
     ∃ pre rest trs wk trf,
       others = pre ++ rest ∧
       rounds fuel pre w = (trs, Ret (tt, wk)) ∧
       LogServer.run (LogServer.server wk) = false ∧
       LogServer._dumpAll fuel wk = (trf, Ret (tt, w')) ∧
       tr = trs ++ trf) ∧
  (∀ w tr w',
     LogServer._dumpAll fuel w = (tr, Ret (tt, w')) →
     LogServer.server w' = LogServer.server w ∧
     ∃ tr', tr = EvLock :: tr' ++ [EvUnlock]) ∧
  (∀ w, pending w < Z.of_nat fuel → (LogServer._dumpAll fuel w).2 ≠ OutOfFuel).
Proof.
  split; [apply shutdown_run|].
  split; [intros o others w Hrun; by apply process_running|].
  split; [intros pre rest w trs wk; apply process_after_rounds|].
  split; [intros others w tr w'; apply process_returns_after_drain|].
  split; [|intros w; apply dumpAll_enough].
  intros w tr w' (Hs & _ & tr' & -> & _)%dumpAll_frame. eauto.
Qed.

Lemma consumer_drains_once_more_then_returns_witness :
  (@LogServer.process cfg_exits 2 ([shutdown_by_other] ++ []) world_one_pending).1
    = [EvWait; EvLock; EvPrint [1]; EvUnlock; EvLock; EvUnlock] ∧
  ∃ w', (@LogServer.process cfg_exits 2 ([shutdown_by_other] ++ []) world_one_pending).2
        = Ret (tt, w').
Proof.
  destruct (@consumer_drains_once_more_then_returns cfg_exits 2)
    as (_ & _ & Hafter & _ & _ & Hends).
  assert (pending world_one_pending < Z.of_nat 2) as Hfuel by (vm_compute; reflexivity).
  pose proof (Hends world_one_pending Hfuel) as _.
  destruct (@rounds cfg_exits 2 [shutdown_by_other] world_one_pending) as [trs o] eqn:Hr.
  pose proof Hr as Hr'. vm_compute in Hr'. injection Hr' as <- <-.
  rewrite (Hafter [shutdown_by_other] [] world_one_pending _ _ Hr).
  - split; [vm_compute; reflexivity|]. eexists. vm_compute. reflexivity.
  - intros [|o' [|o'' pre1]] o pre2 t w1 Hpre Hr'; try discriminate Hpre.
    injection Hr' as _ <-. reflexivity.
  - reflexivity.
Defined.

(** ** The producer does not print *)

Lemma silent_ret {St A} (a : A) : silent (mret a : M St A).
Proof. intros s. constructor. Qed.

Lemma silent_bind {St A B} (m : M St A) (f : A → M St B) :
  silent m → (∀ a, silent (f a)) → silent (m ≫= f).
Proof.
  intros Hm Hf s. rewrite bind_run. specialize (Hm s).
  destruct (m s) as [tr [[a s']| | |]]; try done.
  specialize (Hf a s'). destruct (f a s') as [tr' o]. by apply Forall_app.
Qed.

Lemma silent_get {St} : silent (@get St).
Proof. intros s. constructor. Qed.

Lemma silent_gets {St A} (f : St → A) : silent (gets f).
Proof. intros s. constructor. Qed.

Lemma silent_modify {St} (f : St → St) : silent (modify f).
Proof. intros s. constructor. Qed.

Lemma silent_emit {St} e : not_print e → silent (@emit St e).
Proof. intros He s. by repeat constructor. Qed.

Lemma silent_exit {St A} : silent (@exit St A).
Proof. intros s. constructor. Qed.

Lemma silent_undefined {St A} : silent (@undefined St A).
Proof. intros s. constructor. Qed.

Lemma silent_zoom {St T A} (proj : St → option T) upd (m : M T A) :
  silent m → silent (zoom proj upd m).
Proof.
  intros Hm s. unfold zoom. destruct (proj s) as [t|]; [|constructor].
  specialize (Hm t). by destruct (m t) as [tr [[a t']| | |]].
Qed.

Lemma silent_write p e : silent (EntryBuffer.write p e).
Proof. intros b. unfold EntryBuffer.write. destruct (store _ _ _); constructor. Qed.

Lemma not_print_error msg : not_print (EvError msg).
Proof. exact I. Qed.

Lemma not_print_notify : not_print EvNotify.
Proof. exact I. Qed.

Create HintDb silent.
#[local] Hint Resolve silent_ret silent_get silent_gets silent_modify silent_emit
  silent_exit silent_undefined silent_zoom silent_write not_print_error
  not_print_notify : silent.

Ltac silent_steps :=
  repeat first
    [ solve [auto with silent]
    | apply silent_bind; [|intros ?]
    | apply silent_zoom
    | match goal with |- silent (if ?c then _ else _) => destruct c end
    | match goal with |- silent (match ?c with _ => _ end) => destruct c end ].

Lemma silent_pushElem `{!Config} e : silent (EntryBuffer.pushElem e).
Proof. unfold EntryBuffer.pushElem. silent_steps. Qed.

Lemma silent_nextIndex `{!Config} : silent LocalLogger.nextIndex.
Proof.
  unfold LocalLogger.nextIndex, LocalLogger.full, LocalLogger.at_buffersFull,
    semaphore.peek, semaphore.put, QUICKLOG_ERROR, LogServerBase._onDumpAvail,
    Platform.notify.
  silent_steps.
Qed.

Lemma silent_log `{!Config} c vs : silent (LocalLogger.log c vs).
Proof.
  pose proof silent_nextIndex. pose proof (silent_pushElem (LogEntry.make c vs)).
  unfold LocalLogger.log, LocalLogger.full, LocalLogger.at_buffersFull,
    LocalLogger.at_buffer, semaphore.peek, QUICKLOG_ERROR.
  silent_steps.
Qed.

Lemma silent_flush `{!Config} : silent LocalLogger.flush.
Proof.
  pose proof silent_nextIndex.
  unfold LocalLogger.flush, LocalLogger.at_buffer, EntryBuffer.isEmpty.
  silent_steps.
Qed.

Lemma silent_produce `{!Config} rs : silent (produce rs).
Proof.
  unfold produce. apply silent_bind; [|intros _; apply silent_flush].
  induction rs as [|r rs IH]; cbn [log_all]; [apply silent_ret|].
  apply silent_bind; [apply silent_log|]. by intros _.
Qed.

Lemma printed_silent tr : Forall not_print tr → printed tr = [].
Proof.
  unfold printed. induction 1 as [|e tr He _ IH]; [done|].
  destruct e; cbn; try done.
Qed.

(** ** Order of the records, end to end *)

Lemma no_errors_app tr1 tr2 : no_errors (tr1 ++ tr2) ↔ no_errors tr1 ∧ no_errors tr2.
Proof.
  unfold no_errors. split.
  - intros H. split; intros msg Hin; apply (H msg), elem_of_app; auto.
  - intros [H1 H2] msg [Hin|Hin]%elem_of_app; [by apply (H1 msg)|by apply (H2 msg)].
Qed.

Lemma no_errors_error msg tr : ¬ no_errors (EvError msg :: tr).
Proof. intros H. apply (H msg). by left. Qed.

Lemma flush_run_empty `{!Config} l b :
  LocalLogger.buffers l !! Z.to_nat (LocalLogger.writeIndex l) = Some b →
  EntryBuffer.m_pos b = 0 →
  LocalLogger.flush l = ([], Ret (tt, l)).
Proof.
  intros Hb Hpos. unfold LocalLogger.flush.
  rewrite (bind_ret_run _ _ _ _ _ _ (gets_run _ _)), after_events_nil.
  rewrite bind_run, (at_buffer_run _ _ _ _ Hb), isEmpty_run.
  rewrite list_insert_id, set_buffers_id by done.
  by rewrite bool_decide_eq_true_2.
Qed.

Lemma flush_run_advance `{!Config} l b :
  LocalLogger.buffers l !! Z.to_nat (LocalLogger.writeIndex l) = Some b →
  EntryBuffer.m_pos b ≠ 0 →
  LocalLogger.flush l = LocalLogger.nextIndex l.
Proof.
  intros Hb Hpos. unfold LocalLogger.flush.
  rewrite (bind_ret_run _ _ _ _ _ _ (gets_run _ _)), after_events_nil.
  rewrite bind_run, (at_buffer_run _ _ _ _ Hb), isEmpty_run.
  rewrite list_insert_id, set_buffers_id by done.
  rewrite bool_decide_eq_false_2 by done. cbn [negb].
  by destruct (LocalLogger.nextIndex l).
Qed.

Lemma wrapped_log `{!Config} c vs l tr o :
  wrapped l → LocalLogger.log c vs l = (tr, o) → ¬ no_errors tr.
Proof.
  intros [Hfull _]. rewrite (log_run_full c vs l Hfull). intros [= <- _].
  apply no_errors_error.
Qed.

Lemma wrapped_flush `{!Config} l tr o :
  wrapped l → LocalLogger.flush l = (tr, o) → ¬ no_errors tr.
Proof.
  intros [Hfull (b & Hb & Hpos)]. rewrite (flush_run_advance l b Hb Hpos).
  rewrite (nextIndex_run_full l Hfull). intros [= <- _]. apply no_errors_error.
Qed.

Lemma log_inv `{!Config} c vs l tr l' :
  logger_count l ≠ LocalLogger.numBuffers l →
  LocalLogger.log c vs l = (tr, Ret (tt, l')) →
  ∃ tr1 ok1 l1,
    LocalLogger.at_buffer (LocalLogger.writeIndex l)
      (EntryBuffer.pushElem (LogEntry.make c vs)) l = (tr1, Ret (ok1, l1)) ∧
    if ok1 then tr = tr1 ∧ l' = l1
    else ∃ tr2 l2 tr3 ok2 l3,
      LocalLogger.nextIndex l1 = (tr2, Ret (tt, l2)) ∧
      LocalLogger.at_buffer (LocalLogger.writeIndex l2)
        (EntryBuffer.pushElem (LogEntry.make c vs)) l2 = (tr3, Ret (ok2, l3)) ∧
      if ok2 then tr = tr1 ++ tr2 ++ tr3 ∧ l' = l3
      else ¬ no_errors tr ∧ l' = l3.
Proof.
  intros Hfull. unfold LocalLogger.log.
  rewrite (bind_ret_run _ _ _ _ _ _ (full_run l)), after_events_nil.
  rewrite bool_decide_eq_false_2 by done.
  rewrite (bind_ret_run _ _ _ _ _ _ (gets_run _ _)), after_events_nil.
  intros (tr1 & ok1 & l1 & ta & Hat1 & Hrest & ->)%bind_inv_ret.
  exists tr1, ok1, l1. split; [done|]. destruct ok1; cbn [negb] in Hrest.
  { injection Hrest as <- <-. by rewrite app_nil_r. }
  apply bind_inv_ret in Hrest as (tr2 & [] & l2 & tb & Hnext & Hrest & ->).
  rewrite (bind_ret_run _ _ _ _ _ _ (gets_run _ _)), after_events_nil in Hrest.
  apply bind_inv_ret in Hrest as (tr3 & ok2 & l3 & tc & Hat2 & Hrest & ->).
  exists tr2, l2, tr3, ok2, l3. split; [done|]. split; [done|].
  destruct ok2; cbn [negb] in Hrest.
  - injection Hrest as <- <-. by rewrite app_nil_r.
  - rewrite QUICKLOG_ERROR_run in Hrest. injection Hrest as <- Hl'.
    split.
    + rewrite !no_errors_app. intros (_ & _ & _ & Herr).
      by apply no_errors_error in Herr.
    + unfold after_hook in Hl'. destruct error_hook; [done|]. by injection Hl'.
Qed.

Lemma list_insert_middle {A} (l1 l2 : list A) x y n :
  n = length l1 → <[n := y]> (l1 ++ x :: l2) = l1 ++ y :: l2.
Proof. intros ->. rewrite insert_app_r_alt by lia. by rewrite Nat.sub_diag. Qed.

Lemma arena_buffer_ok `{!Config} B es b : arena B es b → buffer_ok b.
Proof. by intros [[? _] _]. Qed.

Lemma producing_facts `{!Config} N B done cur l :
  1 ≤ N ≤ 255 → producing N B done cur l →
  Z.of_nat (length done) < N ∧
  logger_count l = Z.of_nat (length done) ∧
  logger_count l ≠ LocalLogger.numBuffers l ∧
  LocalLogger.numBuffers l ≠ 0.
Proof.
  intros HN (bs_done & b_cur & bs_free & Hbs & Hdone & _ & _ & HnumN & Hlen & _ & _ & Hsem).
  pose proof (Forall2_length _ _ _ Hdone) as Hld.
  rewrite Hbs, length_app in Hlen. cbn [length] in Hlen.
  assert (logger_count l = Z.of_nat (length done)) as Hc.
  { unfold logger_count. rewrite Hsem. unfold sem_count, uint8_t; cbn.
    rewrite Z.sub_0_r, Z.mod_small; lia. }
  repeat split; lia.
Qed.

Lemma arenas_ok `{!Config} B chunks bs :
  Forall2 (arena B) chunks bs → Forall buffer_ok bs.
Proof.
  induction 1 as [|es b chunks bs Hb _ IH]; constructor; [|done].
  by eapply arena_buffer_ok.
Qed.

Lemma list_lookup_middle_next {A} (l1 l2 : list A) x y n :
  n = S (length l1) → (l1 ++ x :: y :: l2) !! n = Some y.
Proof.
  intros ->. change (l1 ++ x :: y :: l2) with (l1 ++ [x] ++ y :: l2).
  rewrite app_assoc. apply list_lookup_middle. rewrite length_app. cbn. lia.
Qed.

Lemma list_insert_middle_next {A} (l1 l2 : list A) x y z n :
  n = S (length l1) → <[n := z]> (l1 ++ x :: y :: l2) = (l1 ++ [x]) ++ z :: l2.
Proof.
  intros ->. change (l1 ++ x :: y :: l2) with (l1 ++ [x] ++ y :: l2).
  rewrite app_assoc. apply list_insert_middle. rewrite length_app. cbn. lia.
Qed.

Lemma log_producing `{!Config} N B done cur l c vs tr l' :
  0 < QUICKLOG_ALIGN → 1 ≤ N ≤ 255 → class_ok c →
  producing N B done cur l →
  LocalLogger.log c vs l = (tr, Ret (tt, l')) → no_errors tr →
  (∃ done' cur', producing N B done' cur' l' ∧
                 concat done' ++ cur' = (concat done ++ cur) ++ [LogEntry.make c vs]) ∨
  wrapped l'.
Proof.
  intros HA HN Hcl Hprod Hlog Hne.
  destruct (producing_facts N B done cur l HN Hprod) as (Hk & Hcount & Hfull & HN0).
  destruct Hprod as (bs_done & b_cur & bs_free & Hbs & Hdone & (Hcur & Hsz & Hok)
                     & Hfree & HnumN & Hlen & Hw & Hr & Hsem).
  pose proof (Forall2_length _ _ _ Hdone) as Hld.
  apply log_inv in Hlog as (tr1 & ok1 & l1 & Hat1 & Hcases); [|done].
  set (e := LogEntry.make c vs) in *.
  assert (entry_ok e) as He by (by apply entry_ok_make).
  assert (LocalLogger.buffers l !! Z.to_nat (LocalLogger.writeIndex l) = Some b_cur)
    as Hb.
  { rewrite Hbs, Hw, Nat2Z.id. by apply list_lookup_middle. }
  rewrite (at_buffer_run _ _ _ _ Hb) in Hat1.
  destruct (decide (alignedSize (LogEntry.sizeof (LogEntry.vptr e))
                    + EntryBuffer.m_pos b_cur ≤ EntryBuffer.size b_cur)) as [Hfit|Hno].
  - destruct (arena_holds_push cur b_cur e HA Hok He Hcur Hfit) as (b' & Hrun & Hb' & Hsz').
    rewrite Hrun in Hat1. injection Hat1 as <- <- <-. destruct Hcases as [-> ->].
    left. exists done, (cur ++ [e]). split; [|by rewrite app_assoc].
    exists bs_done, b', bs_free. cbn.
    split; [rewrite Hbs, Hw, Nat2Z.id; by apply list_insert_middle|].
    split; [done|]. split.
    { split; [done|]. split; [congruence|]. apply Forall_app. split; [done|].
      by apply Forall_singleton. }
    split; [done|]. split; [done|]. split; [by rewrite length_insert|]. done.
  - pose proof (arena_buffer_ok _ _ _ (conj Hcur (conj Hsz Hok))) as Hbok.
    rewrite (pushElem_no_fit b_cur e HA Hbok (proj1 He) Hno) in Hat1.
    rewrite list_insert_id, set_buffers_id in Hat1 by done.
    injection Hat1 as <- <- <-.
    destruct Hcases as (tr2 & l2 & tr3 & ok2 & l3 & Hnext & Hat2 & Hcases).
    rewrite (nextIndex_run l Hfull HN0) in Hnext.
    destruct ok2; [|by destruct Hcases]. destruct Hcases as [-> ->].
    destruct (LocalLogger.server l) as [srv|] eqn:Hsrv.
    2:{ injection Hnext as <- _. cbn in Hne. by apply no_errors_error in Hne. }
    injection Hnext as <- <-.
    apply at_buffer_frame in Hat2 as (b_next & b2 & Hb_next & Hpush & ->).
    change (LocalLogger.buffers (advanced l)) with (LocalLogger.buffers l) in *.
    assert (LocalLogger.writeIndex (advanced l)
            = (Z.of_nat (length done) + 1) `mod` N) as Hw'.
    { unfold advanced; cbn. rewrite Hw, HnumN.
      pose proof (Z.mod_pos_bound (Z.of_nat (length done) + 1) N) as Hm.
      unfold uint8_t. apply Z.mod_small. lia. }
    assert (logger_count (advanced l) = Z.of_nat (length done) + 1) as Hcount'.
    { rewrite logger_count_advanced, Hcount. unfold uint8_t. apply Z.mod_small. lia. }
    assert (Forall buffer_ok (LocalLogger.buffers l)) as Hall.
    { rewrite Hbs. apply Forall_app. split; [by eapply arenas_ok|].
      apply Forall_cons. split; [done|].
      eapply Forall_impl; [exact Hfree|]. intros b. apply arena_buffer_ok. }
    rewrite Hw' in *.
    rewrite Hbs, length_app in Hlen. cbn [length] in Hlen.
    destruct bs_free as [|b_n bs_free'].
    + cbn [length] in Hlen.
      replace (Z.of_nat (length done) + 1) with N in * by lia.
      rewrite Z_mod_same_full in *.
      right. split.
      * change (logger_count (advanced l) = LocalLogger.numBuffers l). lia.
      * exists b2.
        cbn [LocalLogger.set_buffers LocalLogger.buffers LocalLogger.writeIndex].
        rewrite Hw'. split.
        { apply list_lookup_insert_eq. by eapply lookup_lt_Some. }
        pose proof (Forall_lookup_1 _ _ _ _ Hall Hb_next) as Hbn.
        destruct (pushElem_total b_next e HA Hbn (proj1 He))
          as (ok & b' & Hrun & _ & _ & _ & Hpos).
        rewrite Hrun in Hpush. injection Hpush as _ -> ->. by apply Hpos.
    + cbn [length] in Hlen. rewrite Z.mod_small in * by lia.
      replace (Z.to_nat (Z.of_nat (length done) + 1)) with (S (length bs_done))
        in * by lia.
      rewrite Hbs, list_lookup_middle_next in Hb_next by done.
      injection Hb_next as <-.
      apply Forall_cons in Hfree as [(Hn & Hszn & _) Hfree].
      destruct (decide (alignedSize (LogEntry.sizeof (LogEntry.vptr e))
                        + EntryBuffer.m_pos b_n ≤ EntryBuffer.size b_n)) as [Hfit|Hno'].
      2:{ rewrite (pushElem_no_fit b_n e HA (proj1 Hn) (proj1 He) Hno') in Hpush.
          done. }
      destruct (arena_holds_push [] b_n e HA (Forall_nil_2 _) He Hn Hfit)
        as (b' & Hrun & Hb' & Hsz').
      rewrite Hrun in Hpush. injection Hpush as _ ->.
      left. exists (done ++ [cur]), [e]. split.
      * exists (bs_done ++ [b_cur]), b2, bs_free'.
        cbn [LocalLogger.set_buffers LocalLogger.buffers LocalLogger.writeIndex
             LocalLogger.numBuffers LocalLogger.readIndex LocalLogger.buffersFull].
        rewrite Hw'.
        change (LocalLogger.numBuffers (advanced l)) with (LocalLogger.numBuffers l).
        change (LocalLogger.readIndex (advanced l)) with (LocalLogger.readIndex l).
        split.
        { rewrite Hbs. by apply list_insert_middle_next. }
        split.
        { apply Forall2_app; [done|]. by apply Forall2_cons. }
        split.
        { split; [done|]. split; [congruence|]. by apply Forall_singleton. }
        split; [done|]. split; [done|].
        split; [rewrite length_insert, Hbs, length_app; cbn [length]; lia|].
        rewrite length_app. cbn [length].
        split; [lia|]. split; [done|].
        unfold advanced; cbn. rewrite Hsem; cbn. f_equal.
        unfold uint8_t. rewrite Z.mod_small; lia.
      * rewrite concat_app. cbn. by rewrite app_nil_r.
Qed.

Lemma log_all_producing `{!Config} N B rs : ∀ done cur l tr l',
  0 < QUICKLOG_ALIGN → 1 ≤ N ≤ 255 → Forall (λ r, class_ok r.1) rs →
  producing N B done cur l →
  log_all rs l = (tr, Ret (tt, l')) → no_errors tr →
  (∃ done' cur', producing N B done' cur' l' ∧
                 concat done' ++ cur'
                 = (concat done ++ cur) ++ ((λ r, LogEntry.make r.1 r.2) <$> rs)) ∨
  wrapped l'.
Proof.
  induction rs as [|[c vs] rs IH]; intros done cur l tr l' HA HN Hrs Hprod Hrun Hne.
  - injection Hrun as _ <-. left. exists done, cur. by rewrite app_nil_r.
  - apply Forall_cons in Hrs as [Hc Hrs]. cbn [log_all] in Hrun.
    apply bind_inv_ret in Hrun as (tr1 & [] & l1 & tr2 & Hlog & Hrest & ->).
    apply no_errors_app in Hne as [Hne1 Hne2].
    destruct (log_producing N B done cur l c vs tr1 l1 HA HN Hc Hprod Hlog Hne1)
      as [(done1 & cur1 & Hprod1 & Heq1)|Hwrap].
    + destruct (IH done1 cur1 l1 tr2 l' HA HN Hrs Hprod1 Hrest Hne2)
        as [(done2 & cur2 & Hprod2 & Heq2)|Hwrap]; [|by right].
      left. exists done2, cur2. split; [done|].
      rewrite Heq2, Heq1. cbn. by rewrite <- !app_assoc.
    + right. destruct rs as [|[c' vs'] rs].
      * by injection Hrest as _ <-.
      * cbn [log_all] in Hrest.
        apply bind_inv_ret in Hrest as (tr3 & [] & l3 & tr4 & Hlog' & _ & ->).
        apply no_errors_app in Hne2 as [Hne3 _].
        by destruct (wrapped_log _ _ _ _ _ Hwrap Hlog').
Qed.

Lemma arena_empty_iff `{!Config} B es b :
  0 < QUICKLOG_ALIGN → arena B es b → EntryBuffer.m_pos b = 0 ↔ es = [].
Proof.
  intros HA ((_ & _ & Hpos & _) & _ & Hok). rewrite Hpos. split.
  - destruct Hok as [|e es [Hcl _] Hes]; [done|]. cbn.
    pose proof (alignedSize_class _ HA Hcl) as [Hlo _].
    pose proof (extent_nonneg es HA Hes). destruct Hcl. lia.
  - by intros ->.
Qed.

Lemma flush_producing `{!Config} N B done cur l tr l' :
  0 < QUICKLOG_ALIGN → 1 ≤ N ≤ 255 →
  producing N B done cur l →
  LocalLogger.flush l = (tr, Ret (tt, l')) → no_errors tr →
  ∃ handed, draining N B 0 handed l' ∧ concat handed = concat done ++ cur.
Proof.
  intros HA HN Hprod Hflush Hne.
  destruct (producing_facts N B done cur l HN Hprod) as (Hk & Hcount & Hfull & HN0).
  destruct Hprod as (bs_done & b_cur & bs_free & Hbs & Hdone & Hcur
                     & Hfree & HnumN & Hlen & Hw & Hr & Hsem).
  pose proof (Forall2_length _ _ _ Hdone) as Hld.
  assert (LocalLogger.buffers l !! Z.to_nat (LocalLogger.writeIndex l) = Some b_cur)
    as Hb.
  { rewrite Hbs, Hw, Nat2Z.id. by apply list_lookup_middle. }
  destruct (decide (EntryBuffer.m_pos b_cur = 0)) as [Hz|Hnz].
  - rewrite (flush_run_empty l b_cur Hb Hz) in Hflush. injection Hflush as _ <-.
    apply (arena_empty_iff B cur b_cur HA Hcur) in Hz as ->.
    exists done. split; [|by rewrite app_nil_r].
    exists [], bs_done, (b_cur :: bs_free). cbn [app length].
    split; [done|]. split; [done|]. split; [done|]. split; [done|]. split; [done|].
    by rewrite Hsem.
  - rewrite (flush_run_advance l b_cur Hb Hnz), (nextIndex_run l Hfull HN0) in Hflush.
    destruct (LocalLogger.server l) as [srv|].
    2:{ injection Hflush as <- _. by apply no_errors_error in Hne. }
    injection Hflush as _ <-.
    exists (done ++ [cur]). split; [|rewrite concat_app; cbn; by rewrite app_nil_r].
    exists [], (bs_done ++ [b_cur]), bs_free. unfold advanced; cbn.
    split; [by rewrite Hbs, <- app_assoc|]. split; [done|].
    split; [apply Forall2_app; [done|by apply Forall2_cons]|].
    split; [done|]. split; [done|].
    rewrite Hsem, length_app; cbn. f_equal. unfold uint8_t. rewrite Z.mod_small; lia.
Qed.

Lemma drain_draining `{!Config} N B handed : ∀ j l fuel,
  0 < QUICKLOG_ALIGN → N ≤ 255 → draining N B j handed l →
  (length handed < fuel)%nat →
  ∃ l', drain fuel l =
          ((λ e, EvPrint (LogEntry.values e)) <$> concat handed, Ret (tt, l')).
Proof.
  induction handed as [|es handed IH]; intros j l fuel HA HN Hdr Hfuel;
    destruct Hdr as (bs_taken & bs_handed & bs_rest & Hbs & Hj & Hh & Hlen & Hr & Hsem);
    (destruct fuel as [|fuel]; [cbn in Hfuel; lia|]); cbn [drain].
  - assert (logger_count l = 0) as Hz.
    { unfold logger_count. rewrite Hsem. unfold sem_count, uint8_t; cbn.
      rewrite Nat.add_0_r, Z.sub_diag. done. }
    rewrite (bind_ret_run _ _ _ _ _ _ (dump_run_idle l Hz)), after_events_nil.
    by exists l.
  - apply Forall2_cons_inv_l in Hh as (b & bs_h & (Hb & Hsz & Hok) & Hh & ->).
    pose proof (Forall2_length _ _ _ Hh) as Hlh.
    rewrite Hbs, !length_app in Hlen. cbn [length] in Hlen.
    assert (logger_count l ≠ 0) as Hnz.
    { unfold logger_count. rewrite Hsem. unfold sem_count, uint8_t; cbn [length
        semaphore.numPuts semaphore.numGets].
      rewrite Z.mod_small; lia. }
    assert (LocalLogger.buffers l !! Z.to_nat (LocalLogger.readIndex l) = Some b) as Hlk.
    { rewrite Hbs, Hr, Nat2Z.id. cbn [app]. by apply list_lookup_middle. }
    destruct (arena_holds_dump es b HA Hok Hb) as [Hdump _].
    pose proof (at_buffer_run _ EntryBuffer.dump l b Hlk) as Hat. rewrite Hdump in Hat.
    rewrite (bind_ret_run _ _ _ _ _ _ (dump_run_take l _ _ Hnz Hat)).
    cbn [LocalLogger.set_buffers LocalLogger.buffers].
    match goal with
    | |- context [taken ?bs l] =>
        destruct (IH (S j) (taken bs l) fuel HA HN) as (l' & Hrest); [| |]
    end.
    2:{ cbn in Hfuel. lia. }
    2:{ exists l'. rewrite Hrest. cbn [concat]. by rewrite fmap_app. }
    exists (bs_taken ++ [EntryBuffer.mk (EntryBuffer.size b) 0 0 (EntryBuffer.m_buffer b)]),
      bs_h, bs_rest.
    unfold taken; cbn [LocalLogger.buffers LocalLogger.readIndex LocalLogger.buffersFull].
    split.
    { rewrite Hbs, Hr, Nat2Z.id. cbn [app]. rewrite <- app_assoc. cbn [app].
      by apply list_insert_middle. }
    split; [rewrite length_app; cbn; lia|]. split; [done|].
    split.
    { rewrite length_insert, Hbs, !length_app. cbn [length]. lia. }
    rewrite Hr, Hsem. cbn [semaphore.numPuts semaphore.numGets length].
    assert (uint8_t (Z.of_nat j + 1) = Z.of_nat (S j)) as ->.
    { unfold uint8_t. rewrite Z.mod_small; lia. }
    split; [done|]. f_equal. lia.
Qed.

Lemma producing_init `{!Config} N B srv :
  1 ≤ N → 0 ≤ B ≤ PTRDIFF_MAX →
  producing N B [] [] (LocalLogger.set_server srv (LocalLogger.init N B)).
Proof.
  intros HN HB.
  assert (arena B [] (EntryBuffer.init B)) as Ha.
  { split; [|by split]. split; [by apply buffer_ok_init|]. by cbn. }
  exists [], (EntryBuffer.init B), (replicate (Z.to_nat N - 1) (EntryBuffer.init B)).
  cbn. split.
  { replace (Z.to_nat N) with (S (Z.to_nat N - 1)) at 1 by lia. done. }
  split; [constructor|]. split; [done|].
  split; [by apply Forall_replicate|]. split; [done|].
  rewrite length_replicate. split; [lia|]. done.
Qed.

Lemma draining_length `{!Config} N B j handed l :
  draining N B j handed l → Z.of_nat (length handed) ≤ N.
Proof.
  intros (bs_taken & bs_handed & bs_rest & Hbs & _ & Hh & Hlen & _).
  pose proof (Forall2_length _ _ _ Hh). rewrite Hbs, !length_app in Hlen. lia.
Qed.

(** The consumer waits until the producer is done.  A producer logs the
    records [rs] on a fresh logger ([N] arenas of [B] bytes,
    [1 <= N <= 255]) and flushes, with no [dump] in between.  If these calls
    return and none of them invoked the error hook, then they did not
    invoke the print callable, and the consumer's drains of the logger
    (calls of [dump] until one reports nothing to do) invoke it once per
    record, with the records' arguments in the order they were submitted,
    and come to an end.  No bound on the arenas handed over is assumed
    here: once [log] has handed over the last arena, [flush] invokes the
    error hook. *)
Theorem produce_then_drain_prints_in_order `{!Config}
    (N B : Z) (srv : option nat) (rs : list (LogEntry.class * list Z))
    (tr : list event) (l1 : LocalLogger.t) (fuel : nat) :
  0 < QUICKLOG_ALIGN → 1 ≤ N ≤ 255 → 0 ≤ B ≤ PTRDIFF_MAX →
  Forall (λ r, class_ok r.1) rs →
  produce rs (LocalLogger.set_server srv (LocalLogger.init N B)) = (tr, Ret (tt, l1)) →
  no_errors tr →
  (Z.to_nat N < fuel)%nat →
  printed tr = [] ∧
  ∃ l2, drain fuel l1 = (EvPrint <$> rs.*2, Ret (tt, l2)).
Proof.
  intros HA HN HB Hrs Hprod Hne Hfuel. split.
  { apply printed_silent.
    pose proof (silent_produce rs (LocalLogger.set_server srv (LocalLogger.init N B)))
      as Hs.
    by rewrite Hprod in Hs. }
  unfold produce in Hprod.
  apply bind_inv_ret in Hprod as (tr1 & [] & l0 & tr2 & Hlogs & Hflush & ->).
  apply no_errors_app in Hne as [Hne1 Hne2].
  pose proof (producing_init N B srv (proj1 HN) HB) as Hinit.
  destruct (log_all_producing N B rs [] [] _ tr1 l0 HA HN Hrs Hinit Hlogs Hne1)
    as [(done & cur & Hp & Heq)|Hwrap].
  2:{ by destruct (wrapped_flush _ _ _ Hwrap Hflush). }
  destruct (flush_producing N B done cur l0 tr2 l1 HA HN Hp Hflush Hne2)
    as (handed & Hdr & Hcat).
  pose proof (draining_length _ _ _ _ _ Hdr) as Hlen.
  destruct (drain_draining N B handed 0 l1 fuel HA (proj2 HN) Hdr) as (l2 & Hdrain);
    [lia|].
  exists l2. rewrite Hdrain, Hcat, Heq. cbn [concat app]. f_equal.
  rewrite <- !list_fmap_compose. done.
Qed.

Lemma produce_then_drain_prints_in_order_example :
  ∃ l1 l2,
    @produce cfg_exits records_same_size logger_2x64
      = ([EvNotify; EvNotify], Ret (tt, l1)) ∧
    @drain cfg_exits 3 l1 = ([EvPrint [1]; EvPrint [2]; EvPrint [3]], Ret (tt, l2)).
Proof.
  destruct (@produce cfg_exits records_same_size logger_2x64) as [tr o] eqn:Hp.
  pose proof Hp as Hp'. vm_compute in Hp'. injection Hp' as <- <-.
  match type of Hp with
  | _ = (?tr, Ret (tt, ?l1)) =>
      exists l1;
      destruct (@produce_then_drain_prints_in_order cfg_exits 2 64 (Some 0%nat)
                  records_same_size tr l1 3%nat) as (_ & l2 & Hdrain)
  end.
  - reflexivity.
  - lia.
  - unfold PTRDIFF_MAX. lia.
  - repeat constructor; unfold class_ok; cbn; unfold PTRDIFF_MAX; lia.
  - exact Hp.
  - intros msg Hin. repeat (apply elem_of_cons in Hin as [Hin|Hin]; [discriminate Hin|]).
    by apply elem_of_nil in Hin.
  - cbn. lia.
  - exists l2. split; [reflexivity|]. exact Hdrain.
Defined.


(** ** The states of a logger are kept by its calls *)

Lemma logger_ok_init N B srv :
  1 ≤ N → 0 ≤ B ≤ PTRDIFF_MAX →
  logger_ok (LocalLogger.set_server srv (LocalLogger.init N B)).
Proof.
  intros HN HB. unfold logger_ok; cbn. rewrite length_replicate.
  split; [done|]. split; [done|]. split; [lia|].
  apply Forall_replicate. split; [by apply buffer_ok_init|done].
Qed.

Lemma buffer_dump_frame `{!Config} b tr b' :
  EntryBuffer.dump b = (tr, Ret (tt, b')) →
  b' = EntryBuffer.mk (EntryBuffer.size b) 0 0 (EntryBuffer.m_buffer b).
Proof.
  unfold EntryBuffer.dump.
  rewrite (bind_ret_run _ _ _ _ _ _ (gets_run id b)), after_events_nil.
  rewrite bind_run, dump_loop_reads.
  destruct (reads_complete _); [|done]. rewrite clear_run. by intros [= _ <-].
Qed.

Lemma logger_ok_taken l b :
  logger_ok l → buffer_ok b → EntryBuffer.size b = LocalLogger.bufferSize l →
  logger_ok (taken (<[Z.to_nat (LocalLogger.readIndex l) := b]> (LocalLogger.buffers l)) l).
Proof.
  intros (HN & Hlen & Hw & Hall) Hb Hsz. unfold logger_ok, taken; cbn.
  split; [done|]. split; [by rewrite length_insert|]. split; [done|].
  by apply Forall_insert.
Qed.

Lemma run_logger_op_ok `{!Config} o l tr l' :
  0 < QUICKLOG_ALIGN → logger_ok l →
  (∀ c vs, o = OpLog c vs → class_ok c) →
  run_logger_op o l = (tr, Ret (tt, l')) → logger_ok l'.
Proof.
  intros HA Hl Hcl Hrun. destruct o as [c vs| |]; cbn [run_logger_op] in Hrun.
  - specialize (Hcl c vs eq_refl).
    destruct (decide (logger_count l = LocalLogger.numBuffers l)) as [Hfull|Hfull].
    { rewrite (log_run_full c vs l Hfull) in Hrun. unfold after_hook in Hrun.
      destruct error_hook; [done|]. by injection Hrun as _ <-. }
    apply log_inv in Hrun as (tr1 & ok1 & l1 & Hat1 & Hcases); [|done].
    assert (∀ l0 i t ok l1,
              logger_ok l0 →
              LocalLogger.at_buffer i (EntryBuffer.pushElem (LogEntry.make c vs)) l0
                = (t, Ret (ok, l1)) → logger_ok l1) as Hpush.
    { intros l0 i t ok l2 Hl0 (b & b1 & Hb & Hp & ->)%at_buffer_frame.
      destruct Hl0 as (HN & Hlen & Hw & Hall).
      destruct (Forall_lookup_1 _ _ _ _ Hall Hb) as [Hbok Hbsz].
      destruct (pushElem_total b (LogEntry.make c vs) HA Hbok Hcl)
        as (ok' & b' & Hrun' & Hok' & Hsz' & _).
      rewrite Hrun' in Hp. injection Hp as _ _ <-.
      apply logger_ok_set_buffer; [done|done|congruence]. }
    pose proof (Hpush _ _ _ _ _ Hl Hat1) as Hl1.
    destruct ok1; [by destruct Hcases as [_ ->]|].
    destruct Hcases as (tr2 & l2 & tr3 & ok2 & l3 & Hnext & Hat2 & Hcases).
    assert (logger_ok l2) as Hl2.
    { apply nextIndex_frame in Hnext as [[_ ->]|[_ ->]]; [done|].
      by apply logger_ok_advanced. }
    pose proof (Hpush _ _ _ _ _ Hl2 Hat2) as Hl3.
    destruct ok2; by destruct Hcases as [_ ->].
  - apply flush_frame in Hrun as [->|[_ ->]]; [done|by apply logger_ok_advanced].
  - apply bind_inv_ret in Hrun as (tr1 & d & l1 & tr2 & Hd & Hret & _).
    injection Hret as _ ->.
    apply dump_inv in Hd as [(_ & _ & -> & _)|(_ & Hnz & l2 & Hat & ->)]; [done|].
    apply at_buffer_frame in Hat as (b & b1 & Hb & Hdump & ->).
    apply buffer_dump_frame in Hdump as ->.
    destruct Hl as (HN & Hlen & Hw & Hall).
    destruct (Forall_lookup_1 _ _ _ _ Hall Hb) as [(Hc & Hp & Hs & Hlb) Hbsz].
    apply (logger_ok_taken l); [done| |done].
    unfold buffer_ok; cbn. repeat split; lia.
Qed.

(** * Further properties of the code *)

(** ** alignedSize *)

(** X1.  For a size that leaves room for one more alignment unit below the
    top of [size_t], [alignedSize] returns the least multiple of
    [QUICKLOG_ALIGN] that is not below the size; applied to its own result
    it changes nothing. *)
Theorem alignedSize_least_multiple `{!Config} (sz : Z) :
  0 < QUICKLOG_ALIGN → 0 ≤ sz → sz + QUICKLOG_ALIGN ≤ SIZE_WIDTH →
  (QUICKLOG_ALIGN | alignedSize sz) ∧
  sz ≤ alignedSize sz ∧
  (∀ m, (QUICKLOG_ALIGN | m) → sz ≤ m → alignedSize sz ≤ m) ∧
  alignedSize (alignedSize sz) = alignedSize sz.
Proof.
  intros HA Hsz Hfit.
  destruct (alignedSize_bounds sz HA Hsz Hfit) as [[Hlo Hhi] Hmod].
  split; [apply Z.mod_divide; [lia|done]|]. split; [done|]. split.
  - intros m [k ->] Hm.
    apply Z.mod_divide in Hmod as [k' Hk']; [|lia]. rewrite Hk' in *.
    assert (k' < k + 1) as Hk by (apply (Z.mul_lt_mono_pos_r QUICKLOG_ALIGN); lia).
    apply Z.mul_le_mono_nonneg_r; lia.
  - unfold alignedSize at 1. by rewrite decide_False by (by intros ?).
Qed.

Lemma alignedSize_least_multiple_witness :
  (16 | @alignedSize cfg_exits 40) ∧
  40 ≤ @alignedSize cfg_exits 40 ∧
  (∀ m, (16 | m) → 40 ≤ m → @alignedSize cfg_exits 40 ≤ m) ∧
  @alignedSize cfg_exits (@alignedSize cfg_exits 40) = @alignedSize cfg_exits 40.
Proof.
  apply (@alignedSize_least_multiple cfg_exits 40).
  - reflexivity.
  - lia.
  - unfold SIZE_WIDTH. cbn. lia.
Defined.

(** X2.  The addition in [alignedSize] is unsigned and wraps: when the
    alignment unit divides the range of [size_t], a size less than one unit
    below the top of the range is rounded up to 0. *)
Theorem alignedSize_wraps_at_top `{!Config} (sz : Z) :
  0 < QUICKLOG_ALIGN → SIZE_WIDTH mod QUICKLOG_ALIGN = 0 →
  SIZE_WIDTH - QUICKLOG_ALIGN < sz < SIZE_WIDTH →
  alignedSize sz = 0.
Proof.
  intros HA Hdiv Hsz.
  apply Z.mod_divide in Hdiv as [q Hq]; [|lia].
  assert (sz mod QUICKLOG_ALIGN = sz - (q - 1) * QUICKLOG_ALIGN) as Hm.
  { symmetry. apply (Z.mod_unique_pos _ _ (q - 1)); lia. }
  unfold alignedSize. rewrite decide_True by lia.
  rewrite Hm. unfold size_t.
  replace (sz + (QUICKLOG_ALIGN - (sz - (q - 1) * QUICKLOG_ALIGN))) with SIZE_WIDTH by lia.
  apply Z_mod_same_full.
Qed.

Lemma alignedSize_wraps_at_top_witness :
  @alignedSize cfg_exits (SIZE_WIDTH - 1) = 0.
Proof.
  apply (@alignedSize_wraps_at_top cfg_exits (SIZE_WIDTH - 1)).
  - reflexivity.
  - reflexivity.
  - unfold SIZE_WIDTH. cbn. lia.
Defined.

(** ** The arena: emptiness, capacity and reuse *)

Lemma extent_empty_iff `{!Config} es :
  0 < QUICKLOG_ALIGN → Forall entry_ok es → extent es = 0 ↔ es = [].
Proof.
  intros HA Hok. split; [|by intros ->].
  destruct Hok as [|e es [Hcl _] Hes]; [done|]. cbn.
  pose proof (alignedSize_class _ HA Hcl) as [Hlo _].
  pose proof (extent_nonneg es HA Hes). destruct Hcl. lia.
Qed.

Lemma arena_holds_cleared `{!Config} es b :
  arena_holds es b →
  arena_holds [] (EntryBuffer.mk (EntryBuffer.size b) 0 0 (EntryBuffer.m_buffer b)).
Proof.
  intros ((Hc & Hp & Hs & Hl) & _). unfold arena_holds, buffer_ok; cbn.
  repeat split; try done; lia.
Qed.

(** X3.  In an arena that holds the records [es], [isEmpty] answers whether
    there is no record: it returns [true] exactly when [es] is empty, and
    changes nothing.  After [dump] it returns [true]. *)
Theorem isEmpty_iff_no_records `{!Config} (es : list LogEntry.t) (b : EntryBuffer.t) :
  0 < QUICKLOG_ALIGN → Forall entry_ok es → arena_holds es b →
  EntryBuffer.isEmpty b = ([], Ret (bool_decide (es = []), b)) ∧
  ∃ b', EntryBuffer.dump b = (prints es, Ret (tt, b')) ∧
        EntryBuffer.isEmpty b' = ([], Ret (true, b')).
Proof.
  intros HA Hok Hb. split.
  - rewrite isEmpty_run. do 3 f_equal. apply bool_decide_ext.
    destruct Hb as (_ & _ & -> & _). by apply extent_empty_iff.
  - destruct (arena_holds_dump es b HA Hok Hb) as [Hdump _].
    eexists. split; [exact Hdump|]. reflexivity.
Qed.

Lemma isEmpty_iff_no_records_witness :
  EntryBuffer.isEmpty arena_one_record = ([], Ret (false, arena_one_record)) ∧
  ∃ b', @EntryBuffer.dump cfg_exits arena_one_record = ([EvPrint [1]], Ret (tt, b')) ∧
        EntryBuffer.isEmpty b' = ([], Ret (true, b')).
Proof.
  apply (@isEmpty_iff_no_records cfg_exits [LogEntry.make class24 [1]] arena_one_record).
  - reflexivity.
  - repeat constructor; unfold class_ok; cbn; unfold PTRDIFF_MAX; lia.
  - unfold arena_holds, buffer_ok, arena_one_record, PTRDIFF_MAX.
    cbn [EntryBuffer.m_count EntryBuffer.m_pos EntryBuffer.size EntryBuffer.m_buffer].
    split; [split; [lia|split; [lia|split; [lia|reflexivity]]]|].
    split; [reflexivity|]. split; [reflexivity|]. split; [|exact I].
    vm_compute. reflexivity.
Defined.

Lemma push_all_length `{!Config} es : ∀ b tr acc b',
  push_all es b = (tr, Ret (acc, b')) → length acc = length es.
Proof.
  induction es as [|e es IH]; intros b tr acc b' Hrun.
  - by injection Hrun as _ <- _.
  - cbn [push_all] in Hrun.
    rewrite (bind_ret_run _ _ _ _ _ _ (gets_run _ _)), after_events_nil in Hrun.
    apply bind_inv_ret in Hrun as (t1 & ok & b1 & t2 & _ & Hrest & _).
    apply bind_inv_ret in Hrest as (t3 & r & b2 & t4 & Hrec & Hret & _).
    injection Hret as _ <- _. cbn. f_equal. by eapply IH.
Qed.

Lemma push_all_fits `{!Config} es : ∀ es0 b,
  0 < QUICKLOG_ALIGN → Forall entry_ok es0 → Forall entry_ok es → arena_holds es0 b →
  EntryBuffer.m_pos b + extent es ≤ EntryBuffer.size b →
  ∃ acc b',
    push_all es b = ([], Ret (acc, b')) ∧ Forall (λ x, x.2 = true) acc ∧
    arena_holds (es0 ++ es) b' ∧ EntryBuffer.size b' = EntryBuffer.size b.
Proof.
  induction es as [|e es IH]; intros es0 b HA Hes0 Hes Hb Hfit.
  - exists [], b. rewrite app_nil_r. split; [done|]. split; [constructor|]. by split.
  - apply Forall_cons in Hes as [He Hes]. cbn [extent] in Hfit.
    pose proof (extent_nonneg es HA Hes) as Hext.
    destruct (arena_holds_push es0 b e HA Hes0 He Hb) as (b1 & Hrun & Hb1 & Hsz1); [lia|].
    destruct (IH (es0 ++ [e]) b1 HA) as (acc & b' & Hrest & Hall & Hh & Hsz);
      [by apply Forall_app; split; [|apply Forall_singleton]|done|done| |].
    { destruct Hb as (_ & _ & Hpos & _), Hb1 as (_ & _ & Hpos1 & _).
      rewrite Hpos1, extent_app, Hsz1. cbn. lia. }
    exists ((EntryBuffer.m_pos b, true) :: acc), b'.
    cbn [push_all]. rewrite (bind_ret_run _ _ _ _ _ _ (gets_run _ _)), after_events_nil.
    rewrite (bind_ret_run _ _ _ _ _ _ Hrun), after_events_nil.
    rewrite (bind_ret_run _ _ _ _ _ _ Hrest), after_events_nil.
    split; [done|]. split; [by constructor|]. rewrite <- app_assoc in Hh.
    split; [done|congruence].
Qed.

(** X4.  The capacity of an arena.  [pushElem] called on each of the
    records [es] in turn, on an arena that holds [es0], answers once per
    record, and accepts them all exactly when their aligned sizes add up to
    no more than the bytes left, [size - m_pos]. *)
Theorem push_all_accepts_iff_extent_fits `{!Config}
    (es0 es : list LogEntry.t) (b : EntryBuffer.t) :
  0 < QUICKLOG_ALIGN → Forall entry_ok es0 → Forall entry_ok es → arena_holds es0 b →
  ∃ acc b',
    push_all es b = ([], Ret (acc, b')) ∧ length acc = length es ∧
    (Forall (λ x, x.2 = true) acc
     ↔ EntryBuffer.m_pos b + extent es ≤ EntryBuffer.size b).
Proof.
  intros HA Hes0 Hes Hb.
  destruct (push_all_holds es es0 b HA Hes0 Hes Hb) as (acc & b' & Hrun & Hsz & Hacc).
  exists acc, b'. split; [done|]. split; [by eapply push_all_length|]. split.
  - intros Hall. destruct (Hacc Hall) as [((_ & Hle & _) & _ & Hpos & _) _].
    destruct Hb as (_ & _ & Hpos0 & _). rewrite Hpos0, <- extent_app, <- Hpos, <- Hsz. done.
  - intros Hfit.
    destruct (push_all_fits es es0 b HA Hes0 Hes Hb Hfit) as (acc2 & b2 & Hrun2 & Hall & _).
    rewrite Hrun in Hrun2. by injection Hrun2 as -> _.
Qed.

Lemma push_all_accepts_iff_extent_fits_witness :
  ∃ acc b',
    @push_all cfg_exits [LogEntry.make class24 [2]; LogEntry.make class24 [3]]
      arena_one_record = ([], Ret (acc, b')) ∧ length acc = 2%nat ∧
    (Forall (λ x, x.2 = true) acc ↔ 32 + (32 + (32 + 0)) ≤ 64).
Proof.
  apply (@push_all_accepts_iff_extent_fits cfg_exits [LogEntry.make class24 [1]]
           [LogEntry.make class24 [2]; LogEntry.make class24 [3]] arena_one_record).
  - reflexivity.
  - repeat constructor; unfold class_ok; cbn; unfold PTRDIFF_MAX; lia.
  - repeat constructor; unfold class_ok; cbn; unfold PTRDIFF_MAX; lia.
  - unfold arena_holds, buffer_ok, arena_one_record, PTRDIFF_MAX.
    cbn [EntryBuffer.m_count EntryBuffer.m_pos EntryBuffer.size EntryBuffer.m_buffer].
    split; [split; [lia|split; [lia|split; [lia|reflexivity]]]|].
    split; [reflexivity|]. split; [reflexivity|]. split; [|exact I].
    vm_compute. reflexivity.
Defined.

(** X5.  An arena can be used again after [dump].  From an arena that
    holds [es1], [dump] prints [es1] in order; the records [es2], if their
    aligned sizes add up to no more than the arena's size, are then all
    accepted, and the next [dump] prints exactly [es2]: nothing of what the
    arena held before is printed again, and the arena ends empty. *)
Theorem arena_reuse_after_dump `{!Config}
    (es1 es2 : list LogEntry.t) (b : EntryBuffer.t) :
  0 < QUICKLOG_ALIGN → Forall entry_ok es1 → Forall entry_ok es2 → arena_holds es1 b →
  extent es2 ≤ EntryBuffer.size b →
  ∃ b1 acc b2 b3,
    EntryBuffer.dump b = (prints es1, Ret (tt, b1)) ∧
    push_all es2 b1 = ([], Ret (acc, b2)) ∧ Forall (λ x, x.2 = true) acc ∧
    EntryBuffer.dump b2 = (prints es2, Ret (tt, b3)) ∧
    EntryBuffer.m_count b3 = 0 ∧ EntryBuffer.m_pos b3 = 0 ∧
    EntryBuffer.size b3 = EntryBuffer.size b.
Proof.
  intros HA Hes1 Hes2 Hb Hfit.
  destruct (arena_holds_dump es1 b HA Hes1 Hb) as [Hdump1 _].
  pose proof (arena_holds_cleared es1 b Hb) as Hb1.
  destruct (push_all_fits es2 [] _ HA (Forall_nil_2 _) Hes2 Hb1)
    as (acc & b2 & Hrun & Hall & Hb2 & Hsz2); [cbn; lia|].
  cbn [app] in Hb2.
  destruct (arena_holds_dump es2 b2 HA Hes2 Hb2) as [Hdump2 _].
  eexists _, acc, b2, _. split; [exact Hdump1|]. split; [exact Hrun|].
  split; [done|]. split; [exact Hdump2|]. cbn. by rewrite Hsz2.
Qed.

Lemma arena_reuse_after_dump_witness :
  ∃ b1 acc b2 b3,
    @EntryBuffer.dump cfg_exits arena_one_record = ([EvPrint [1]], Ret (tt, b1)) ∧
    @push_all cfg_exits [LogEntry.make class40 [2; 3]] b1 = ([], Ret (acc, b2)) ∧
    Forall (λ x, x.2 = true) acc ∧
    @EntryBuffer.dump cfg_exits b2 = ([EvPrint [2; 3]], Ret (tt, b3)) ∧
    EntryBuffer.m_count b3 = 0 ∧ EntryBuffer.m_pos b3 = 0 ∧ EntryBuffer.size b3 = 64.
Proof.
  apply (@arena_reuse_after_dump cfg_exits [LogEntry.make class24 [1]]
           [LogEntry.make class40 [2; 3]] arena_one_record).
  - reflexivity.
  - repeat constructor; unfold class_ok; cbn; unfold PTRDIFF_MAX; lia.
  - repeat constructor; unfold class_ok; cbn; unfold PTRDIFF_MAX; lia.
  - unfold arena_holds, buffer_ok, arena_one_record, PTRDIFF_MAX.
    cbn [EntryBuffer.m_count EntryBuffer.m_pos EntryBuffer.size EntryBuffer.m_buffer].
    split; [split; [lia|split; [lia|split; [lia|reflexivity]]]|].
    split; [reflexivity|]. split; [reflexivity|]. split; [|exact I].
    vm_compute. reflexivity.
  - vm_compute. discriminate.
Defined.

(** ** Who prints, who reports errors *)

Lemma only_ret {St A} P (a : A) : emits_only P (mret a : M St A).
Proof. intros s. constructor. Qed.

Lemma only_bind {St A B} P (m : M St A) (f : A → M St B) :
  emits_only P m → (∀ a, emits_only P (f a)) → emits_only P (m ≫= f).
Proof.
  intros Hm Hf s. rewrite bind_run. specialize (Hm s).
  destruct (m s) as [tr [[a s']| | |]]; try done.
  specialize (Hf a s'). destruct (f a s') as [tr' o]. by apply Forall_app.
Qed.

Lemma only_get {St} P : emits_only P (@get St).
Proof. intros s. constructor. Qed.

Lemma only_gets {St A} P (f : St → A) : emits_only P (gets f).
Proof. intros s. constructor. Qed.

Lemma only_modify {St} P (f : St → St) : emits_only P (modify f).
Proof. intros s. constructor. Qed.

Lemma only_emit {St} (P : event → Prop) e : P e → emits_only P (@emit St e).
Proof. intros He s. by repeat constructor. Qed.

Lemma only_undefined {St A} P : emits_only P (@undefined St A).
Proof. intros s. constructor. Qed.

Lemma only_out_of_fuel {St A} P : emits_only P (@out_of_fuel St A).
Proof. intros s. constructor. Qed.

Lemma only_zoom {St T A} P (proj : St → option T) upd (m : M T A) :
  emits_only P m → emits_only P (zoom proj upd m).
Proof.
  intros Hm s. unfold zoom. destruct (proj s) as [t|]; [|constructor].
  specialize (Hm t). by destruct (m t) as [tr [[a t']| | |]].
Qed.

Lemma only_weaken {St A} (P Q : event → Prop) (m : M St A) :
  (∀ e, P e → Q e) → emits_only P m → emits_only Q m.
Proof. intros HPQ Hm s. eapply Forall_impl; [apply Hm|done]. Qed.

Lemma only_dump_loop `{!Config} n : ∀ p, emits_only is_print (EntryBuffer.dump_loop n p).
Proof.
  induction n as [|n IH]; intros p; cbn [EntryBuffer.dump_loop].
  - apply only_ret.
  - apply only_bind.
    + unfold EntryBuffer.read. apply only_bind; [apply only_get|].
      intros b. destruct (load p _); [apply only_ret|apply only_undefined].
    + intros e. apply only_bind; [by apply only_emit|]. intros _. apply IH.
Qed.

Lemma only_buffer_dump `{!Config} : emits_only is_print EntryBuffer.dump.
Proof.
  unfold EntryBuffer.dump, EntryBuffer.clear.
  apply only_bind; [apply only_get|]. intros b.
  apply only_bind; [apply only_dump_loop|]. intros _.
  apply only_bind; [apply only_modify|]. intros _. apply only_modify.
Qed.

Lemma only_logger_dump `{!Config} : emits_only is_print LocalLogger.dump.
Proof.
  intros l. destruct (decide (logger_count l = 0)) as [Hz|Hnz].
  { rewrite (dump_run_idle l Hz). constructor. }
  pose proof (only_zoom is_print _ _ _ only_buffer_dump l
              : Forall is_print
                  (LocalLogger.at_buffer (LocalLogger.readIndex l) EntryBuffer.dump l).1)
    as Hat.
  destruct (LocalLogger.at_buffer (LocalLogger.readIndex l) EntryBuffer.dump l)
    as [tr1 [[[] l1]| | |]] eqn:E1.
  { by rewrite (dump_run_take l _ _ Hnz E1). }
  all: unfold LocalLogger.dump;
    rewrite (bind_ret_run _ _ _ _ _ _ (logger_peek_run l)), after_events_nil;
    rewrite decide_True by done;
    rewrite (bind_ret_run _ _ _ _ _ _ (gets_run _ _)), after_events_nil;
    by rewrite bind_run, E1.
Qed.

Lemma only_dump_loggers `{!Config} ixs : ∀ d,
  emits_only is_print (LogServer.dump_loggers ixs d).
Proof.
  induction ixs as [|i ixs IH]; intros d; cbn [LogServer.dump_loggers].
  - apply only_ret.
  - apply only_bind; [apply only_gets|]. intros s.
    destruct (LogServer.localLoggers s !! i) as [[a|]|]; try apply only_undefined.
    apply only_bind; [|intros ?; apply IH].
    apply only_zoom, only_logger_dump.
Qed.

Lemma only_dumpAll_loop `{!Config} fuel : emits_only is_print (LogServer.dumpAll_loop fuel).
Proof.
  induction fuel as [|fuel IH]; cbn [LogServer.dumpAll_loop].
  - apply only_out_of_fuel.
  - apply only_bind; [apply only_gets|]. intros s.
    apply only_bind; [apply only_dump_loggers|]. intros [|]; [done|apply only_ret].
Qed.

(** X6.  The print callable is invoked only between [platform.lock()] and
    [platform.unlock()].  A drain pass does this to the outside world: it
    takes the lock, invokes the print callable some number of times and
    nothing else, and releases the lock if it returns. *)
Theorem dumpAll_prints_under_lock `{!Config} (fuel : nat) (w : LogServer.World) :
  ∃ ps, Forall is_print ps ∧
        (LogServer._dumpAll fuel w).1 =
          EvLock :: ps ++ match (LogServer._dumpAll fuel w).2 with
                          | Ret _ => [EvUnlock]
                          | _ => []
                          end.
Proof.
  pose proof (only_dumpAll_loop fuel w) as Hps.
  unfold LogServer._dumpAll. rewrite bind_run. cbn [Platform.lock emit].
  rewrite bind_run.
  destruct (LogServer.dumpAll_loop fuel w) as [ps [[[] w1]| | |]]; cbn in *;
    exists ps; (split; [done|]); by rewrite ?app_nil_r.
Qed.

Lemma only_dumpAll `{!Config} fuel : emits_only consumer_event (LogServer._dumpAll fuel).
Proof.
  unfold LogServer._dumpAll.
  apply only_bind; [by apply only_emit|]. intros _.
  apply only_bind; [|intros _; by apply only_emit].
  eapply only_weaken; [|apply only_dumpAll_loop]. by intros [].
Qed.

Lemma only_process `{!Config} fuel others :
  emits_only consumer_event (LogServer._process fuel others).
Proof.
  induction others as [|o others IH]; cbn [LogServer._process];
    (apply only_bind; [apply only_get|]); intros w;
    destruct (LogServer.run (LogServer.server w)); try apply only_dumpAll.
  - apply only_out_of_fuel.
  - apply only_bind.
    { unfold Platform.wait. apply only_bind; [by apply only_emit|].
      intros _. apply only_modify. }
    intros _. apply only_bind; [apply only_dumpAll|]. by intros _.
Qed.

(** X7.  The consumer never invokes the error hook and never notifies.
    [LocalLogger::dump] does nothing to the outside world but invoke the
    print callable: the [get] after a [peek] that returned nonzero finds
    [numPuts != numGets].  Whatever the state and whatever the other threads
    do during its waits, the consumer thread only waits, locks, unlocks and
    prints. *)
Theorem consumer_never_invokes_error_hook `{!Config} :
  (∀ l e, e ∈ (LocalLogger.dump l).1 → ∃ vs, e = EvPrint vs) ∧
  (∀ fuel others w e, e ∈ (LogServer.process fuel others w).1 →
     e = EvWait ∨ e = EvLock ∨ e = EvUnlock ∨ ∃ vs, e = EvPrint vs).
Proof.
  split.
  - intros l e He.
    pose proof (proj1 (Forall_forall _ _) (only_logger_dump l) e He) as Hp.
    destruct e; try done. eauto.
  - intros fuel others w e He.
    pose proof (proj1 (Forall_forall _ _) (only_process fuel others w) e He) as Hp.
    destruct e; try done; eauto.
Qed.

Lemma silent_addLogger `{!Config} a : silent (LogServer.addLogger a).
Proof.
  unfold LogServer.addLogger, LogServer.modify_server, LogServer.at_logger,
    Platform.lock, Platform.unlock, QUICKLOG_ERROR.
  silent_steps; by apply silent_emit.
Qed.

Lemma silent_shutdown : silent LogServer.shutdown.
Proof.
  unfold LogServer.shutdown, LogServer.modify_server, Platform.notify. silent_steps.
Qed.

Lemma silent_run_call `{!Config} k : by_host k → silent (run_call k).
Proof.
  destruct k as [a|a c vs|a| |fuel]; cbn [run_call by_host]; intros Hk; try done.
  - apply silent_addLogger.
  - apply silent_zoom, silent_log.
  - apply silent_zoom, silent_flush.
  - apply silent_shutdown.
Qed.

(** X8.  Nothing but the consumer's drain pass invokes the print callable:
    whatever the state, a sequence of calls of [addLogger], [log], [flush]
    and [shutdown] prints nothing. *)
Theorem host_calls_never_print `{!Config} (ks : list server_call) (w : LogServer.World) :
  Forall by_host ks → printed (run_calls ks w).1 = [].
Proof.
  intros Hks. apply printed_silent. revert w.
  change (silent (run_calls ks)).
  induction Hks as [|k ks Hk _ IH]; cbn [run_calls]; [apply silent_ret|].
  apply silent_bind; [by apply silent_run_call|]. by intros _.
Qed.

Lemma host_calls_never_print_witness :
  printed (@run_calls cfg_exits
             [CallAddLogger 0; CallLog 0 class24 [1]; CallFlush 0; CallShutdown]
             world_fresh).1 = [].
Proof.
  apply (@host_calls_never_print cfg_exits
           [CallAddLogger 0; CallLog 0 class24 [1]; CallFlush 0; CallShutdown]
           world_fresh).
  repeat constructor.
Defined.

(** ** The default error hook *)

Lemma no_errors_nil : no_errors [].
Proof. intros msg Hin. by apply elem_of_nil in Hin. Qed.

Lemma eae_ret {St A} (a : A) : ends_at_error (mret a : M St A).
Proof. intros s. apply no_errors_nil. Qed.

Lemma eae_bind {St A B} (m : M St A) (f : A → M St B) :
  ends_at_error m → (∀ a, ends_at_error (f a)) → ends_at_error (m ≫= f).
Proof.
  intros Hm Hf s. rewrite bind_run. specialize (Hm s).
  destruct (m s) as [tr [[a s']| | |]]; cbn in *; try done.
  specialize (Hf a s'). destruct (f a s') as [tr' o]. cbn in *.
  destruct o as [x| | |]; try (by apply no_errors_app).
  destruct Hf as (t & msg & -> & Hne). exists (tr ++ t), msg.
  split; [by rewrite app_assoc|]. by apply no_errors_app.
Qed.

Lemma eae_get {St} : ends_at_error (@get St).
Proof. intros s. apply no_errors_nil. Qed.

Lemma eae_gets {St A} (f : St → A) : ends_at_error (gets f).
Proof. intros s. apply no_errors_nil. Qed.

Lemma eae_modify {St} (f : St → St) : ends_at_error (modify f).
Proof. intros s. apply no_errors_nil. Qed.

Lemma eae_emit {St} e : (∀ msg, e ≠ EvError msg) → ends_at_error (@emit St e).
Proof.
  intros He s msg Hin. apply list_elem_of_singleton in Hin. by apply (He msg).
Qed.

Lemma eae_undefined {St A} : ends_at_error (@undefined St A).
Proof. intros s. apply no_errors_nil. Qed.

Lemma eae_out_of_fuel {St A} : ends_at_error (@out_of_fuel St A).
Proof. intros s. apply no_errors_nil. Qed.

Lemma eae_zoom {St T A} (proj : St → option T) upd (m : M T A) :
  ends_at_error m → ends_at_error (zoom proj upd m).
Proof.
  intros Hm s. unfold zoom. destruct (proj s) as [t|]; [|apply no_errors_nil].
  specialize (Hm t). by destruct (m t) as [tr [[a t']| | |]].
Qed.

Lemma eae_QUICKLOG_ERROR `{!Config} {St} msg :
  error_hook = HookExits → ends_at_error (@QUICKLOG_ERROR _ St msg).
Proof.
  intros Hh s. rewrite QUICKLOG_ERROR_run. unfold after_hook. rewrite Hh. cbn.
  exists [], msg. split; [done|apply no_errors_nil].
Qed.

Lemma eae_write p e : ends_at_error (EntryBuffer.write p e).
Proof. intros b. unfold EntryBuffer.write. destruct (store _ _ _); apply no_errors_nil. Qed.

Create HintDb eae.
#[local] Hint Resolve eae_ret eae_get eae_gets eae_modify eae_emit eae_undefined
  eae_out_of_fuel eae_zoom eae_QUICKLOG_ERROR eae_write : eae.
#[local] Hint Extern 1 (_ ≠ EvError _) => discriminate : eae.

Ltac eae_steps :=
  repeat first
    [ solve [auto with eae]
    | apply eae_bind; [|intros ?]
    | apply eae_zoom
    | match goal with |- ends_at_error (if ?c then _ else _) => destruct c end
    | match goal with |- ends_at_error (match ?c with _ => _ end) => destruct c end ].

Section default_hook.
Context `{!Config} (Hhook : error_hook = HookExits).

Lemma eae_sem_get : ends_at_error semaphore.get.
Proof. unfold semaphore.get. eae_steps. Qed.

Lemma eae_pushElem e : ends_at_error (EntryBuffer.pushElem e).
Proof. unfold EntryBuffer.pushElem. eae_steps. Qed.

Lemma eae_nextIndex : ends_at_error LocalLogger.nextIndex.
Proof.
  unfold LocalLogger.nextIndex, LocalLogger.full, LocalLogger.at_buffersFull,
    semaphore.peek, semaphore.put, LogServerBase._onDumpAvail, Platform.notify.
  eae_steps.
Qed.

Lemma eae_log c vs : ends_at_error (LocalLogger.log c vs).
Proof.
  pose proof eae_nextIndex. pose proof (eae_pushElem (LogEntry.make c vs)).
  unfold LocalLogger.log, LocalLogger.full, LocalLogger.at_buffersFull,
    LocalLogger.at_buffer, semaphore.peek.
  eae_steps.
Qed.

Lemma eae_flush : ends_at_error LocalLogger.flush.
Proof.
  pose proof eae_nextIndex.
  unfold LocalLogger.flush, LocalLogger.at_buffer, EntryBuffer.isEmpty.
  eae_steps.
Qed.

Lemma eae_dump_loop n : ∀ p, ends_at_error (EntryBuffer.dump_loop n p).
Proof.
  induction n as [|n IH]; intros p; cbn [EntryBuffer.dump_loop].
  - apply eae_ret.
  - unfold EntryBuffer.read, LogEntry.printSelf. pose proof IH. eae_steps.
Qed.

Lemma eae_buffer_dump : ends_at_error EntryBuffer.dump.
Proof.
  pose proof eae_dump_loop. unfold EntryBuffer.dump, EntryBuffer.clear. eae_steps.
Qed.

Lemma eae_logger_dump : ends_at_error LocalLogger.dump.
Proof.
  pose proof eae_buffer_dump. pose proof eae_sem_get.
  unfold LocalLogger.dump, LocalLogger.at_buffersFull, LocalLogger.at_buffer,
    semaphore.peek.
  eae_steps.
Qed.

Lemma eae_dump_loggers ixs : ∀ d, ends_at_error (LogServer.dump_loggers ixs d).
Proof.
  induction ixs as [|i ixs IH]; intros d; cbn [LogServer.dump_loggers].
  - apply eae_ret.
  - pose proof eae_logger_dump. pose proof IH. unfold LogServer.at_logger. eae_steps.
Qed.

Lemma eae_dumpAll fuel : ends_at_error (LogServer._dumpAll fuel).
Proof.
  unfold LogServer._dumpAll, Platform.lock, Platform.unlock.
  apply eae_bind; [eae_steps|]. intros _.
  apply eae_bind; [|intros _; eae_steps].
  induction fuel as [|fuel IH]; cbn [LogServer.dumpAll_loop]; [apply eae_out_of_fuel|].
  pose proof eae_dump_loggers. eae_steps.
Qed.

Lemma eae_addLogger a : ends_at_error (LogServer.addLogger a).
Proof.
  unfold LogServer.addLogger, LogServer.modify_server, LogServer.at_logger,
    Platform.lock, Platform.unlock.
  eae_steps.
Qed.

Lemma eae_run_calls ks : ends_at_error (run_calls ks).
Proof.
  induction ks as [|k ks IH]; cbn [run_calls]; [apply eae_ret|].
  apply eae_bind; [|by intros _].
  destruct k as [a|a c vs|a| |fuel]; cbn [run_call].
  - apply eae_addLogger.
  - apply eae_zoom, eae_log.
  - apply eae_zoom, eae_flush.
  - unfold LogServer.shutdown, LogServer.modify_server, Platform.notify. eae_steps.
  - apply eae_dumpAll.
Qed.

End default_hook.

(** X9.  With the default [QUICKLOG_ERROR], which ends in [exit(1)], no
    call goes on after an error.  In every run of calls of [addLogger],
    [log], [flush], [shutdown] and drain passes, from every state: either
    the process has exited, and then the error hook was invoked exactly
    once, as the last thing done; or the error hook was not invoked. *)
Theorem default_hook_ends_the_run `{!Config}
    (ks : list server_call) (w : LogServer.World) :
  error_hook = HookExits →
  match (run_calls ks w).2 with
  | Exit => ∃ tr msg, (run_calls ks w).1 = tr ++ [EvError msg] ∧ no_errors tr
  | _ => no_errors (run_calls ks w).1
  end.
Proof. intros Hhook. by apply eae_run_calls. Qed.

Lemma default_hook_ends_the_run_witness :
  ∃ tr msg,
    (@run_calls cfg_exits [CallLog 0 class24 [1]; CallFlush 0; CallShutdown]
       world_fresh).1 = tr ++ [EvError msg] ∧ no_errors tr.
Proof.
  exact (@default_hook_ends_the_run cfg_exits
           [CallLog 0 class24 [1]; CallFlush 0; CallShutdown] world_fresh eq_refl).
Defined.

Lemma consumer_never_invokes_error_hook_witness :
  ∃ vs, EvPrint [1] = EvPrint vs.
Proof.
  apply (proj1 (@consumer_never_invokes_error_hook cfg_exits)
           logger_arena0_handed (EvPrint [1])).
  vm_compute. left.
Defined.

(** ** Producer and consumer write different variables *)

Lemma at_buffer_other {A} i (m : M EntryBuffer.t A) l tr a l' :
  LocalLogger.at_buffer i m l = (tr, Ret (a, l')) →
  ∃ b', l' = LocalLogger.set_buffers (<[Z.to_nat i := b']> (LocalLogger.buffers l)) l.
Proof. intros (b & b' & _ & _ & ->)%at_buffer_frame. eauto. Qed.

Lemma log_touches `{!Config} c vs l tr l' :
  LocalLogger.log c vs l = (tr, Ret (tt, l')) →
  LocalLogger.readIndex l' = LocalLogger.readIndex l ∧
  semaphore.numGets (LocalLogger.buffersFull l')
    = semaphore.numGets (LocalLogger.buffersFull l) ∧
  LocalLogger.server l' = LocalLogger.server l ∧
  ∀ i, i ≠ Z.to_nat (LocalLogger.writeIndex l) →
       i ≠ Z.to_nat (LocalLogger.writeIndex l') →
       LocalLogger.buffers l' !! i = LocalLogger.buffers l !! i.
Proof.
  destruct (decide (logger_count l = LocalLogger.numBuffers l)) as [Hfull|Hfull].
  { rewrite (log_run_full c vs l Hfull). unfold after_hook.
    destruct error_hook; [done|]. by intros [= _ <-]. }
  intros (tr1 & ok1 & l1 & Hat1 & Hcases)%log_inv; [|done].
  apply at_buffer_other in Hat1 as [b1 ->].
  destruct ok1.
  { destruct Hcases as [_ ->]. cbn. repeat split; try done.
    intros i Hi _. by apply list_lookup_insert_ne. }
  destruct Hcases as (tr2 & l2 & tr3 & ok2 & l3 & Hnext & Hat2 & Hcases).
  assert (l' = l3) as -> by (destruct ok2; by destruct Hcases).
  apply at_buffer_other in Hat2 as [b2 ->].
  apply nextIndex_frame in Hnext as [[_ ->]|[_ ->]]; cbn; repeat split; try done.
  all: intros i Hi Hi'; rewrite list_lookup_insert_ne by done;
    by apply list_lookup_insert_ne.
Qed.

Lemma log_writeIndex `{!Config} c vs l tr l' :
  LocalLogger.log c vs l = (tr, Ret (tt, l')) →
  LocalLogger.writeIndex l' = LocalLogger.writeIndex l ∨
  LocalLogger.writeIndex l' = LocalLogger.writeIndex (advanced l).
Proof.
  destruct (decide (logger_count l = LocalLogger.numBuffers l)) as [Hfull|Hfull].
  { rewrite (log_run_full c vs l Hfull). unfold after_hook.
    destruct error_hook; [done|]. intros [= _ <-]. by left. }
  intros (tr1 & ok1 & l1 & Hat1 & Hcases)%log_inv; [|done].
  apply at_buffer_other in Hat1 as [b1 ->].
  destruct ok1.
  { destruct Hcases as [_ ->]. by left. }
  destruct Hcases as (tr2 & l2 & tr3 & ok2 & l3 & Hnext & Hat2 & Hcases).
  assert (l' = l3) as -> by (destruct ok2; by destruct Hcases).
  apply at_buffer_other in Hat2 as [b2 ->].
  apply nextIndex_frame in Hnext as [[_ ->]|[_ ->]]; [by left|by right].
Qed.

Lemma flush_touches `{!Config} l tr l' :
  LocalLogger.flush l = (tr, Ret (tt, l')) →
  LocalLogger.readIndex l' = LocalLogger.readIndex l ∧
  semaphore.numGets (LocalLogger.buffersFull l')
    = semaphore.numGets (LocalLogger.buffersFull l) ∧
  LocalLogger.server l' = LocalLogger.server l ∧
  LocalLogger.buffers l' = LocalLogger.buffers l.
Proof. intros [->|[_ ->]]%flush_frame; done. Qed.

Lemma dump_touches `{!Config} l tr d l' :
  LocalLogger.dump l = (tr, Ret (d, l')) →
  LocalLogger.writeIndex l' = LocalLogger.writeIndex l ∧
  semaphore.numPuts (LocalLogger.buffersFull l')
    = semaphore.numPuts (LocalLogger.buffersFull l) ∧
  LocalLogger.server l' = LocalLogger.server l ∧
  ∀ i, i ≠ Z.to_nat (LocalLogger.readIndex l) →
       LocalLogger.buffers l' !! i = LocalLogger.buffers l !! i.
Proof.
  intros [(_ & _ & -> & _)|(_ & _ & l1 & Hat & ->)]%dump_inv; [done|].
  apply at_buffer_other in Hat as [b' ->]. cbn. repeat split.
  intros i Hi. by apply list_lookup_insert_ne.
Qed.

(** ** One notify for every arena handed over *)

Lemma only_write P p e : emits_only P (EntryBuffer.write p e).
Proof. intros b. unfold EntryBuffer.write. destruct (store _ _ _); constructor. Qed.

Lemma pushElem_no_events `{!Config} e : emits_only (λ _, False) (EntryBuffer.pushElem e).
Proof.
  unfold EntryBuffer.pushElem. apply only_bind; [apply only_get|]. intros b.
  destruct (decide _); [apply only_ret|].
  repeat (apply only_bind; [first [apply only_write|apply only_modify]|intros _]).
  apply only_ret.
Qed.

Lemma at_buffer_pushElem_trace `{!Config} i e l tr o :
  LocalLogger.at_buffer i (EntryBuffer.pushElem e) l = (tr, o) → tr = [].
Proof.
  intros E. pose proof (only_zoom _ _ _ _ (pushElem_no_events e) l
                        : Forall (λ _, False) (LocalLogger.at_buffer i _ l).1) as Hno.
  rewrite E in Hno. cbn in Hno. by destruct Hno.
Qed.

Lemma nextIndex_inv_registered `{!Config} l srv tr l' :
  LocalLogger.server l = Some srv →
  LocalLogger.nextIndex l = (tr, Ret (tt, l')) →
  (logger_count l = LocalLogger.numBuffers l ∧
   tr = [EvError "localLogger full, can't nextIndex()"] ∧ l' = l) ∨
  (logger_count l ≠ LocalLogger.numBuffers l ∧ tr = [EvNotify] ∧ l' = advanced l).
Proof.
  intros Hsrv.
  destruct (decide (logger_count l = LocalLogger.numBuffers l)) as [Hfull|Hfull].
  - rewrite (nextIndex_run_full l Hfull). unfold after_hook.
    destruct error_hook; [done|]. intros [= <- <-]. by left.
  - destruct (decide (LocalLogger.numBuffers l = 0)) as [HN|HN].
    + unfold LocalLogger.nextIndex.
      rewrite (bind_ret_run _ _ _ _ _ _ (full_run l)), after_events_nil.
      rewrite bool_decide_eq_false_2 by done. cbn [negb].
      rewrite bind_run. cbn [get]. rewrite decide_True by done. done.
    + rewrite (nextIndex_run l Hfull HN), Hsrv. intros [= <- <-]. by right.
Qed.

Lemma flush_inv_registered `{!Config} l srv tr l' :
  LocalLogger.server l = Some srv →
  LocalLogger.flush l = (tr, Ret (tt, l')) →
  (tr = [] ∧ l' = l) ∨
  (tr = [EvError "localLogger full, can't nextIndex()"] ∧ l' = l) ∨
  (logger_count l ≠ LocalLogger.numBuffers l ∧ tr = [EvNotify] ∧ l' = advanced l).
Proof.
  intros Hsrv.
  destruct (LocalLogger.buffers l !! Z.to_nat (LocalLogger.writeIndex l)) as [b|] eqn:Hb.
  - destruct (decide (EntryBuffer.m_pos b = 0)) as [Hz|Hnz].
    + rewrite (flush_run_empty l b Hb Hz). intros [= <- <-]. by left.
    + rewrite (flush_run_advance l b Hb Hnz).
      intros [(_ & -> & ->)|?]%(nextIndex_inv_registered _ srv); auto.
  - unfold LocalLogger.flush.
    rewrite (bind_ret_run _ _ _ _ _ _ (gets_run _ _)), after_events_nil.
    by rewrite bind_run, (at_buffer_outside _ _ _ Hb).
Qed.

Lemma log_inv_registered `{!Config} c vs l srv tr l' :
  LocalLogger.server l = Some srv →
  LocalLogger.log c vs l = (tr, Ret (tt, l')) →
  (∃ bs, l' = LocalLogger.set_buffers bs l ∧ notifies tr = 0) ∨
  (∃ bs, logger_count l ≠ LocalLogger.numBuffers l ∧
         l' = LocalLogger.set_buffers bs (advanced l) ∧ notifies tr = 1).
Proof.
  intros Hsrv Hlog.
  destruct (decide (logger_count l = LocalLogger.numBuffers l)) as [Hfull|Hfull].
  { rewrite (log_run_full c vs l Hfull) in Hlog. unfold after_hook in Hlog.
    destruct error_hook; [done|]. injection Hlog as <- <-.
    left. exists (LocalLogger.buffers l). by rewrite set_buffers_id. }
  pose proof Hlog as (tr1 & ok1 & l1 & Hat1 & Hcases)%log_inv; [|done].
  pose proof (at_buffer_pushElem_trace _ _ _ _ _ Hat1) as ->.
  destruct ok1.
  { destruct Hcases as [-> ->]. apply at_buffer_other in Hat1 as [b1 ->].
    left. eauto. }
  destruct Hcases as (tr2 & l2 & tr3 & ok2 & l3 & Hnext & Hat2 & _).
  pose proof (at_buffer_pushElem_trace _ _ _ _ _ Hat2) as ->.
  rewrite (log_run_second c vs l _ _ _ _ _ _ _ Hfull Hat1 Hnext Hat2) in Hlog.
  apply at_buffer_other in Hat2 as [b2 ->].
  apply at_buffer_other in Hat1 as [b1 ->].
  apply (nextIndex_inv_registered _ srv) in Hnext as [(Hf & _)|(_ & -> & ->)];
    [exfalso; exact (Hfull Hf)| |done].
  right. eexists. split; [done|].
  destruct ok2.
  - injection Hlog as <- <-. split; [reflexivity|reflexivity].
  - unfold after_hook in Hlog. destruct error_hook; [done|].
    injection Hlog as <- <-. split; reflexivity.
Qed.

Lemma notifies_app tr1 tr2 : notifies (tr1 ++ tr2) = notifies tr1 + notifies tr2.
Proof. unfold notifies. rewrite filter_app, length_app. lia. Qed.

Lemma notifies_prints tr : Forall is_print tr → notifies tr = 0.
Proof.
  unfold notifies. induction 1 as [|e tr He _ IH]; [done|].
  rewrite filter_cons. destruct (decide (e = EvNotify)) as [->|]; [done|]. exact IH.
Qed.

Lemma run_logger_op_notifies `{!Config} o l srv tr l' :
  LocalLogger.server l = Some srv →
  run_logger_op o l = (tr, Ret (tt, l')) →
  LocalLogger.server l' = Some srv ∧
  ((notifies tr = 0 ∧
    LocalLogger.writeIndex l' = LocalLogger.writeIndex l ∧
    semaphore.numPuts (LocalLogger.buffersFull l')
      = semaphore.numPuts (LocalLogger.buffersFull l)) ∨
   (notifies tr = 1 ∧
    LocalLogger.writeIndex l'
      = uint8_t ((LocalLogger.writeIndex l + 1) mod LocalLogger.numBuffers l) ∧
    semaphore.numPuts (LocalLogger.buffersFull l')
      = uint8_t (semaphore.numPuts (LocalLogger.buffersFull l) + 1))).
Proof.
  intros Hsrv Hrun. destruct o as [c vs| |]; cbn [run_logger_op] in Hrun.
  - apply (log_inv_registered _ _ _ srv) in Hrun
      as [(bs & -> & Hn)|(bs & _ & -> & Hn)]; [| |done]; (split; [done|]); auto.
  - apply (flush_inv_registered _ srv) in Hrun
      as [[-> ->]|[[-> ->]|(_ & -> & ->)]]; [| | |done]; (split; [done|]); auto.
  - apply bind_inv_ret in Hrun as (tr1 & d & l1 & tr2 & Hd & Hret & ->).
    injection Hret as <- ->. rewrite app_nil_r.
    pose proof (only_logger_dump l) as Hp. rewrite Hd in Hp.
    apply dump_frame in Hd as [(_ & _ & -> & _)|(_ & _ & bs & ->)];
      (split; [done|]); left; (split; [by apply notifies_prints|done]).
Qed.

(** X11.  On a registered logger, [platform.notify()] is called once for
    every arena handed over.  A call of [log], [flush] or [dump] that
    returns either notifies no one and leaves [writeIndex] and [numPuts]
    alone, or notifies once, moves [writeIndex] on modulo [numBuffers] and
    increments [numPuts]; over any sequence of such calls, [numPuts] has
    advanced, modulo 256, by the number of calls of [notify]. *)
Theorem notify_once_per_handover `{!Config}
    (ops : list logger_op) (l : LocalLogger.t) (srv : nat)
    (tr : list event) (l' : LocalLogger.t) :
  LocalLogger.server l = Some srv →
  run_logger_ops ops l = (tr, Ret (tt, l')) →
  uint8_t (semaphore.numPuts (LocalLogger.buffersFull l'))
    = uint8_t (semaphore.numPuts (LocalLogger.buffersFull l) + notifies tr) ∧
  (∀ o, ops = [o] →
     (notifies tr = 0 ∧ LocalLogger.writeIndex l' = LocalLogger.writeIndex l) ∨
     (notifies tr = 1 ∧
      LocalLogger.writeIndex l'
        = uint8_t ((LocalLogger.writeIndex l + 1) mod LocalLogger.numBuffers l))).
Proof.
  intros Hsrv Hrun. split.
  - revert l tr Hsrv Hrun. induction ops as [|o ops IH]; intros l tr Hsrv Hrun.
    + injection Hrun as <- <-. by rewrite Z.add_0_r.
    + cbn [run_logger_ops] in Hrun.
      apply bind_inv_ret in Hrun as (tr1 & [] & l1 & tr2 & Hstep & Hrest & ->).
      destruct (run_logger_op_notifies o l srv tr1 l1 Hsrv Hstep) as [Hsrv1 Hcases].
      rewrite (IH l1 tr2 Hsrv1 Hrest), notifies_app.
      destruct Hcases as [(-> & _ & ->)|(-> & _ & ->)]; [done|].
      unfold uint8_t. rewrite Zplus_mod_idemp_l. f_equal. lia.
  - intros o ->. cbn [run_logger_ops] in Hrun.
    apply bind_inv_ret in Hrun as (tr1 & [] & l1 & tr2 & Hstep & Hrest & ->).
    injection Hrest as <- <-. rewrite app_nil_r.
    destruct (run_logger_op_notifies o l srv tr1 l1 Hsrv Hstep)
      as [_ [(? & ? & _)|(? & ? & _)]]; auto.
Qed.

Lemma notify_once_per_handover_witness :
  ∃ l', @run_logger_ops cfg_exits (one_round ++ one_round) logger_2x32
          = ([EvNotify; EvPrint [1]; EvNotify; EvPrint [1]], Ret (tt, l')) ∧
        uint8_t (semaphore.numPuts (LocalLogger.buffersFull l')) = uint8_t (0 + 2).
Proof.
  destruct (@run_logger_ops cfg_exits (one_round ++ one_round) logger_2x32)
    as [tr o] eqn:Hr.
  pose proof Hr as Hr'. vm_compute in Hr'. injection Hr' as <- <-.
  eexists. split; [reflexivity|].
  exact (proj1 (@notify_once_per_handover cfg_exits (one_round ++ one_round)
                  logger_2x32 0%nat _ _ eq_refl Hr)).
Defined.

(** ** The producer stays inside the array *)

Lemma after_hook_defined `{!Config} {St} (s : St) : after_hook s ≠ Undef.
Proof. unfold after_hook. by destruct error_hook. Qed.

Lemma nextIndex_defined `{!Config} l :
  LocalLogger.numBuffers l ≠ 0 → (LocalLogger.nextIndex l).2 ≠ Undef.
Proof.
  intros HN. destruct (decide (logger_count l = LocalLogger.numBuffers l)) as [Hfull|Hfull].
  - rewrite (nextIndex_run_full l Hfull). apply after_hook_defined.
  - rewrite (nextIndex_run l Hfull HN).
    destruct (LocalLogger.server l); [done|apply after_hook_defined].
Qed.

Lemma flush_defined `{!Config} l : logger_ok l → (LocalLogger.flush l).2 ≠ Undef.
Proof.
  intros Hl. destruct (logger_ok_lookup l Hl) as (b & Hb & _).
  destruct (decide (EntryBuffer.m_pos b = 0)) as [Hz|Hnz].
  - by rewrite (flush_run_empty l b Hb Hz).
  - rewrite (flush_run_advance l b Hb Hnz). apply nextIndex_defined.
    destruct Hl. lia.
Qed.

Lemma log_defined `{!Config} c vs l :
  0 < QUICKLOG_ALIGN → logger_ok l → class_ok c → (LocalLogger.log c vs l).2 ≠ Undef.
Proof.
  intros HA Hl Hcl. set (ent := LogEntry.make c vs).
  destruct (decide (logger_count l = LocalLogger.numBuffers l)) as [Hfull|Hfull].
  { rewrite (log_run_full c vs l Hfull). apply after_hook_defined. }
  destruct (logger_ok_lookup l Hl) as (b & Hb & Hbok & Hbsz).
  destruct (pushElem_total b ent HA Hbok Hcl) as (ok1 & b1 & Hrun1 & _ & _ & Hrej1 & _).
  pose proof (at_buffer_run _ (EntryBuffer.pushElem ent) l b Hb) as Hat1.
  rewrite Hrun1 in Hat1. destruct ok1.
  { by rewrite (log_run_first c vs l _ _ Hfull Hat1). }
  rewrite (Hrej1 eq_refl), list_insert_id, set_buffers_id in Hat1 by done.
  assert (LocalLogger.numBuffers l ≠ 0) as HN by (destruct Hl; lia).
  pose proof (nextIndex_defined l HN) as Hdef.
  pose proof (logger_ok_advanced l Hl) as Hl'.
  destruct (logger_ok_lookup _ Hl') as (b' & Hb' & Hbok' & Hbsz').
  destruct (pushElem_total b' ent HA Hbok' Hcl) as (ok2 & b2 & Hrun2 & _).
  pose proof (at_buffer_run _ (EntryBuffer.pushElem ent) (advanced l) b' Hb') as Hat2.
  rewrite Hrun2 in Hat2.
  destruct (LocalLogger.nextIndex l) as [tr2 [[[] l2]| | |]] eqn:Hnext; [| |done|].
  - apply nextIndex_frame in Hnext as Hl2. destruct Hl2 as [[Hf _]|[_ ->]]; [done|].
    rewrite (log_run_second c vs l _ _ _ _ _ _ _ Hfull Hat1 Hnext Hat2).
    destruct ok2; [done|apply after_hook_defined].
  - unfold LocalLogger.log.
    rewrite (bind_ret_run _ _ _ _ _ _ (full_run l)), after_events_nil.
    rewrite bool_decide_eq_false_2 by done.
    rewrite (bind_ret_run _ _ _ _ _ _ (gets_run _ _)), after_events_nil.
    rewrite (bind_ret_run _ _ _ _ _ _ Hat1). cbn [negb].
    by rewrite bind_run, Hnext.
  - unfold LocalLogger.log.
    rewrite (bind_ret_run _ _ _ _ _ _ (full_run l)), after_events_nil.
    rewrite bool_decide_eq_false_2 by done.
    rewrite (bind_ret_run _ _ _ _ _ _ (gets_run _ _)), after_events_nil.
    rewrite (bind_ret_run _ _ _ _ _ _ Hat1). cbn [negb].
    by rewrite bind_run, Hnext.
Qed.

Lemma run_logger_ops_ok `{!Config} ops : ∀ l tr l',
  0 < QUICKLOG_ALIGN → logger_ok l → Forall op_ok ops →
  run_logger_ops ops l = (tr, Ret (tt, l')) →
  logger_ok l' ∧ LocalLogger.numBuffers l' = LocalLogger.numBuffers l.
Proof.
  induction ops as [|o ops IH]; intros l tr l' HA Hl Hops Hrun.
  - by injection Hrun as _ <-.
  - apply Forall_cons in Hops as [Ho Hops]. cbn [run_logger_ops] in Hrun.
    apply bind_inv_ret in Hrun as (tr1 & [] & l1 & tr2 & Hstep & Hrest & _).
    assert (logger_ok l1) as Hl1.
    { eapply run_logger_op_ok; [done|exact Hl| |exact Hstep].
      intros c vs ->. exact Ho. }
    destruct (IH l1 tr2 l' HA Hl1 Hops Hrest) as [Hl' HN]. split; [done|].
    rewrite HN.
    by apply run_logger_op_frame in Hstep as [bs [->|[[_ ->]|[_ ->]]]].
Qed.

(** X12.  The producer never indexes outside the array.  After any
    sequence of calls of [log], [flush] and [dump] that returned, on a
    logger with at least one arena, [writeIndex] is inside the array, which
    still has [numBuffers] arenas, and the next [log] or [flush] returns or
    ends in the error hook: its behaviour is defined. *)
Theorem producer_stays_inside_the_array `{!Config}
    (N B : Z) (srv : option nat) (ops : list logger_op)
    (tr : list event) (l : LocalLogger.t) :
  0 < QUICKLOG_ALIGN → 1 ≤ N → 0 ≤ B ≤ PTRDIFF_MAX → Forall op_ok ops →
  run_logger_ops ops (LocalLogger.set_server srv (LocalLogger.init N B))
    = (tr, Ret (tt, l)) →
  0 ≤ LocalLogger.writeIndex l < N ∧
  length (LocalLogger.buffers l) = Z.to_nat N ∧
  (∀ c vs, class_ok c → (LocalLogger.log c vs l).2 ≠ Undef) ∧
  (LocalLogger.flush l).2 ≠ Undef.
Proof.
  intros HA HN HB Hops Hrun.
  destruct (run_logger_ops_ok ops _ tr l HA (logger_ok_init N B srv HN HB) Hops Hrun)
    as [Hl HNl].
  change (LocalLogger.numBuffers l = N) in HNl.
  pose proof Hl as (_ & Hlen & Hw & _). rewrite HNl in Hlen, Hw.
  split; [done|]. split; [done|]. split.
  - intros c vs Hc. by apply log_defined.
  - by apply flush_defined.
Qed.

Lemma producer_stays_inside_the_array_witness :
  ∃ l, @run_logger_ops cfg_exits (one_round ++ one_round) logger_2x32
         = ([EvNotify; EvPrint [1]; EvNotify; EvPrint [1]], Ret (tt, l)) ∧
       0 ≤ LocalLogger.writeIndex l < 2 ∧
       length (LocalLogger.buffers l) = 2%nat ∧
       (∀ c vs, @class_ok cfg_exits c → (@LocalLogger.log cfg_exits c vs l).2 ≠ Undef) ∧
       (@LocalLogger.flush cfg_exits l).2 ≠ Undef.
Proof.
  destruct (@run_logger_ops cfg_exits (one_round ++ one_round) logger_2x32)
    as [tr o] eqn:Hr.
  pose proof Hr as Hr'. vm_compute in Hr'. injection Hr' as <- <-.
  eexists. split; [reflexivity|].
  refine (@producer_stays_inside_the_array cfg_exits 2 32 (Some 0%nat)
            (one_round ++ one_round) _ _ _ _ _ _ Hr).
  - reflexivity.
  - lia.
  - unfold PTRDIFF_MAX. lia.
  - repeat constructor; unfold class_ok; cbn; unfold PTRDIFF_MAX; lia.
Defined.

(** X13.  A record too large for any arena costs an arena.  On a
    registered logger that is not full, [log] of a record whose aligned size
    exceeds [bufferSize] hands over the current arena, even an empty one,
    notifies the server, and only then invokes the error hook with the
    entry-too-large message; the record is stored nowhere. *)
Theorem oversized_record_costs_an_arena `{!Config}
    (l : LocalLogger.t) (c : LogEntry.class) (vs : list Z) (srv : nat) :
  0 < QUICKLOG_ALIGN → logger_ok l → class_ok c → LocalLogger.server l = Some srv →
  logger_count l ≠ LocalLogger.numBuffers l →
  LocalLogger.bufferSize l < alignedSize (LogEntry.sizeof c) →
  LocalLogger.log c vs l =
    ([EvNotify; EvError "Log entries bigger than buffer size\n"],
     after_hook (advanced l)).
Proof.
  intros HA Hl Hcl Hsrv Hfull Hbig. set (ent := LogEntry.make c vs).
  assert (∀ l0, logger_ok l0 → LocalLogger.bufferSize l0 = LocalLogger.bufferSize l →
            LocalLogger.at_buffer (LocalLogger.writeIndex l0)
              (EntryBuffer.pushElem ent) l0 = ([], Ret (false, l0))) as Hrej.
  { intros l0 Hl0 HB. destruct (logger_ok_lookup l0 Hl0) as (b & Hb & Hbok & Hbsz).
    rewrite (at_buffer_run _ _ _ _ Hb), (pushElem_no_fit b ent HA Hbok Hcl).
    - by rewrite list_insert_id, set_buffers_id.
    - destruct Hbok as (? & ? & _). cbn. lia. }
  assert (LocalLogger.numBuffers l ≠ 0) as HN by (destruct Hl; lia).
  pose proof (nextIndex_run l Hfull HN) as Hnext. rewrite Hsrv in Hnext.
  rewrite (log_run_second c vs l _ _ _ _ _ _ _ Hfull (Hrej l Hl eq_refl) Hnext
             (Hrej (advanced l) (logger_ok_advanced l Hl) eq_refl)).
  reflexivity.
Qed.

Lemma oversized_record_costs_an_arena_witness :
  @LocalLogger.log cfg_returns class48 [1] logger_2x32 =
    ([EvNotify; EvError "Log entries bigger than buffer size\n"],
     Ret (tt, advanced logger_2x32)).
Proof.
  apply (@oversized_record_costs_an_arena cfg_returns logger_2x32 class48 [1] 0%nat).
  - reflexivity.
  - apply logger_ok_init; [lia|unfold PTRDIFF_MAX; lia].
  - unfold class_ok; cbn; unfold PTRDIFF_MAX; lia.
  - reflexivity.
  - vm_compute. discriminate.
  - vm_compute. reflexivity.
Defined.

(** ** More arenas than a byte can count *)

Lemma only_exit {St A} P : emits_only P (@exit St A).
Proof. intros s. constructor. Qed.

Lemma only_QUICKLOG_ERROR `{!Config} {St} (P : event → Prop) msg :
  P (EvError msg) → emits_only P (@QUICKLOG_ERROR _ St msg).
Proof.
  intros HP. unfold QUICKLOG_ERROR. apply only_bind; [by apply only_emit|].
  intros _. destruct error_hook; [apply only_exit|apply only_ret].
Qed.

Lemma only_nextIndex `{!Config} (P : event → Prop) :
  P EvNotify → P (EvError "LocalLogger not registered to LogServer\n") →
  P (EvError "localLogger full, can't nextIndex()") →
  emits_only P LocalLogger.nextIndex.
Proof.
  intros Hn Hr Hf. unfold LocalLogger.nextIndex, LocalLogger.full.
  apply only_bind.
  { apply only_bind; [apply only_zoom|intros n; apply only_bind; [apply only_gets|]].
    - unfold semaphore.peek. apply only_bind; [apply only_get|]. intros s. apply only_ret.
    - intros N. apply only_ret. }
  intros [|]; cbn [negb]; [by apply only_QUICKLOG_ERROR|].
  apply only_bind; [apply only_get|]. intros l.
  apply only_bind.
  { destruct (decide _); [apply only_undefined|apply only_modify]. }
  intros _. apply only_bind; [apply only_zoom, only_modify|]. intros _.
  destruct (LocalLogger.server l); [by apply only_emit|by apply only_QUICKLOG_ERROR].
Qed.

(** X14.  [full()] compares a [uint8_t] count with [numBuffers].  In a
    logger with more than 255 arenas it returns [false] in every state, and
    [log] never reports the logger full. *)
Theorem full_is_never_true_above_255 `{!Config} (l : LocalLogger.t) :
  255 < LocalLogger.numBuffers l →
  LocalLogger.full l = ([], Ret (false, l)) ∧
  ∀ c vs, EvError "LocalLogger full. Can't log()\n" ∉ (LocalLogger.log c vs l).1.
Proof.
  intros HN. pose proof (logger_count_range l) as Hr.
  assert (logger_count l ≠ LocalLogger.numBuffers l) as Hfull by lia.
  split; [by rewrite full_run, bool_decide_eq_false_2|].
  intros c vs.
  set (P := λ e, e ≠ EvError "LocalLogger full. Can't log()\n").
  assert (emits_only P (EntryBuffer.pushElem (LogEntry.make c vs))) as Hpush.
  { eapply only_weaken; [|apply pushElem_no_events]. done. }
  assert (emits_only P LocalLogger.nextIndex) as Hnext by (by apply only_nextIndex).
  unfold LocalLogger.log.
  rewrite (bind_ret_run _ _ _ _ _ _ (full_run l)), after_events_nil.
  rewrite bool_decide_eq_false_2 by done.
  match goal with |- _ ∉ (?m l).1 => assert (emits_only P m) as Hall end.
  { apply only_bind; [apply only_gets|]. intros w.
    apply only_bind; [by apply only_zoom|]. intros [|]; cbn [negb]; [apply only_ret|].
    apply only_bind; [done|]. intros _.
    apply only_bind; [apply only_gets|]. intros w'.
    apply only_bind; [by apply only_zoom|]. intros [|]; cbn [negb]; [apply only_ret|].
    by apply only_QUICKLOG_ERROR. }
  intros Hin. by apply (proj1 (Forall_forall _ _) (Hall l) _ Hin).
Qed.

Lemma full_is_never_true_above_255_witness :
  LocalLogger.full (LocalLogger.mk 256 32 (replicate 256 (EntryBuffer.init 32))
                      0 0 (semaphore.mk 255 0) None)
    = ([], Ret (false, LocalLogger.mk 256 32 (replicate 256 (EntryBuffer.init 32))
                         0 0 (semaphore.mk 255 0) None)) ∧
  ∀ c vs, EvError "LocalLogger full. Can't log()\n"
            ∉ (@LocalLogger.log cfg_exits c vs
                 (LocalLogger.mk 256 32 (replicate 256 (EntryBuffer.init 32))
                    0 0 (semaphore.mk 255 0) None)).1.
Proof.
  apply (@full_is_never_true_above_255 cfg_exits
           (LocalLogger.mk 256 32 (replicate 256 (EntryBuffer.init 32))
              0 0 (semaphore.mk 255 0) None)).
  cbn. lia.
Defined.

(** ** Records that were not flushed *)

Lemma log_all_stays `{!Config} N B rs : ∀ cur l,
  0 < QUICKLOG_ALIGN → 1 ≤ N ≤ 255 → Forall (λ r, class_ok r.1) rs →
  producing N B [] cur l →
  extent cur + extent ((λ r, LogEntry.make r.1 r.2) <$> rs) ≤ B →
  ∃ l', log_all rs l = ([], Ret (tt, l')) ∧
        producing N B [] (cur ++ ((λ r, LogEntry.make r.1 r.2) <$> rs)) l'.
Proof.
  induction rs as [|[c vs] rs IH]; intros cur l HA HN Hrs Hprod Hfit.
  - exists l. by rewrite app_nil_r.
  - apply Forall_cons in Hrs as [Hc Hrs]. cbn in Hc.
    cbn [fmap list_fmap extent fst snd] in Hfit.
    set (e := LogEntry.make c vs) in *.
    assert (Forall entry_ok ((λ r, LogEntry.make r.1 r.2) <$> rs)) as Hes.
    { apply Forall_fmap. eapply Forall_impl; [exact Hrs|].
      intros [c' vs'] Hc'. by apply entry_ok_make. }
    pose proof (extent_nonneg _ HA Hes) as Hext.
    destruct (producing_facts N B [] cur l HN Hprod) as (_ & Hcount & Hfull & _).
    pose proof Hprod as (bs_done & b_cur & bs_free & Hbs & Hdone & (Hcur & Hsz & Hok)
                         & _ & _ & _ & Hw & _).
    apply Forall2_nil_inv_l in Hdone as ->. cbn in Hbs, Hw.
    assert (LocalLogger.buffers l !! Z.to_nat (LocalLogger.writeIndex l) = Some b_cur)
      as Hb by (by rewrite Hbs, Hw).
    destruct (arena_holds_push cur b_cur e HA Hok (entry_ok_make c vs Hc) Hcur)
      as (b' & Hrun & _ & _).
    { destruct Hcur as (_ & _ & -> & _). rewrite Hsz. lia. }
    pose proof (at_buffer_run _ (EntryBuffer.pushElem e) l b_cur Hb) as Hat.
    rewrite Hrun in Hat.
    pose proof (log_run_first c vs l _ _ Hfull Hat) as Hlog.
    destruct (log_producing N B [] cur l c vs _ _ HA HN Hc Hprod Hlog no_errors_nil)
      as [(done' & cur' & Hprod' & Heq)|[Hwrap _]].
    2:{ exfalso. exact (Hfull Hwrap). }
    assert (done' = []) as ->.
    { destruct Hprod' as (? & ? & ? & _ & _ & _ & _ & _ & _ & Hw' & _).
      cbn in Hw'. rewrite Hw in Hw'. destruct done'; [done|]. cbn in Hw'. lia. }
    cbn in Heq. subst cur'.
    destruct (IH (cur ++ [e]) _ HA HN Hrs Hprod') as (l' & Hrest & Hprod'').
    { rewrite extent_app. cbn [extent]. lia. }
    exists l'. cbn [log_all fst snd].
    rewrite (bind_ret_run _ _ _ _ _ _ Hlog), after_events_nil.
    split; [done|]. cbn [fmap list_fmap]. by rewrite <- app_assoc in Hprod''.
Qed.

(** X15.  Records that were logged and not flushed are not printed.  On a
    fresh logger, records whose aligned sizes add up to no more than one
    arena are all stored, in order, in arena 0, without a hand-over and
    without an event; the consumer's [dump] then finds nothing to do and
    prints nothing, as long as [flush] is not called. *)
Theorem unflushed_records_are_not_printed `{!Config}
    (N B : Z) (srv : option nat) (rs : list (LogEntry.class * list Z)) :
  0 < QUICKLOG_ALIGN → 1 ≤ N ≤ 255 → 0 ≤ B ≤ PTRDIFF_MAX →
  Forall (λ r, class_ok r.1) rs →
  extent ((λ r, LogEntry.make r.1 r.2) <$> rs) ≤ B →
  ∃ l b,
    log_all rs (LocalLogger.set_server srv (LocalLogger.init N B)) = ([], Ret (tt, l)) ∧
    LocalLogger.buffers l !! 0%nat = Some b ∧
    arena_holds ((λ r, LogEntry.make r.1 r.2) <$> rs) b ∧
    LocalLogger.dump l = ([], Ret (false, l)) ∧
    ∀ fuel, drain (S fuel) l = ([], Ret (tt, l)).
Proof.
  intros HA HN HB Hrs Hfit.
  destruct (log_all_stays N B rs [] _ HA HN Hrs (producing_init N B srv (proj1 HN) HB))
    as (l & Hrun & Hprod); [cbn; lia|].
  destruct (producing_facts N B [] _ l HN Hprod) as (_ & Hcount & _).
  destruct Hprod as (bs_done & b_cur & bs_free & Hbs & Hdone & (Hcur & _) & _).
  apply Forall2_nil_inv_l in Hdone as ->. cbn in Hbs, Hcur, Hcount.
  exists l, b_cur. split; [done|]. split; [by rewrite Hbs|]. split; [done|].
  pose proof (dump_run_idle l Hcount) as Hdump. split; [done|].
  intros fuel. cbn [drain]. by rewrite (bind_ret_run _ _ _ _ _ _ Hdump).
Qed.

Lemma unflushed_records_are_not_printed_witness :
  ∃ l b,
    @log_all cfg_exits [(class24, [1]); (class24, [2])] (LocalLogger.init 2 64)
      = ([], Ret (tt, l)) ∧
    LocalLogger.buffers l !! 0%nat = Some b ∧
    @arena_holds cfg_exits [LogEntry.make class24 [1]; LogEntry.make class24 [2]] b ∧
    @LocalLogger.dump cfg_exits l = ([], Ret (false, l)) ∧
    ∀ fuel, @drain cfg_exits (S fuel) l = ([], Ret (tt, l)).
Proof.
  apply (@unflushed_records_are_not_printed cfg_exits 2 64 None
           [(class24, [1]); (class24, [2])]).
  - reflexivity.
  - lia.
  - unfold PTRDIFF_MAX. lia.
  - repeat constructor; unfold class_ok; cbn; unfold PTRDIFF_MAX; lia.
  - vm_compute. discriminate.
Defined.

(** ** The registry *)

Lemma addLogger_inv `{!Config} a w tr w' :
  LogServer.addLogger a w = (tr, Ret (tt, w')) →
  let s := LogServer.server w in
  ∃ l, LogServer.loggers w !! a = Some l ∧
       LogServer.this w' = LogServer.this w ∧
       LogServer.loggers w'
         = <[a := LocalLogger.set_server (Some (LogServer.this w)) l]> (LogServer.loggers w) ∧
       ((LogServer.nLoggers s = LogServer.maxLoggers s ∧ LogServer.server w' = s ∧
         tr = [EvLock;
               EvError "Attempt to add more than maxLoggers loggers to LogServer.\n";
               EvUnlock]) ∨
        (LogServer.nLoggers s ≠ LogServer.maxLoggers s ∧
         0 ≤ LogServer.nLoggers s ∧
         (Z.to_nat (LogServer.nLoggers s) < length (LogServer.localLoggers s))%nat ∧
         LogServer.server w'
           = LogServer.mk (LogServer.maxLoggers s)
               (<[Z.to_nat (LogServer.nLoggers s) := Some a]> (LogServer.localLoggers s))
               (size_t (LogServer.nLoggers s + 1)) (LogServer.run s) ∧
         tr = [EvLock; EvUnlock])).
Proof.
  intros Hrun s. unfold LogServer.addLogger in Hrun.
  apply bind_inv_ret in Hrun as (t1 & [] & w1 & t2 & Hlock & Hrun & ->).
  injection Hlock as <- <-.
  apply bind_inv_ret in Hrun as (t3 & s' & w2 & t4 & Hgets & Hrun & ->).
  injection Hgets as <- <- <-. fold s in Hrun.
  apply bind_inv_ret in Hrun as (t5 & [] & w3 & t6 & Hslot & Hrun & ->).
  apply bind_inv_ret in Hrun as (t7 & w4 & w5 & t8 & Hget & Hrun & ->).
  injection Hget as <- <- <-.
  apply bind_inv_ret in Hrun as (t9 & [] & w6 & t10 & Hat & Hunlock & ->).
  injection Hunlock as <- <-.
  apply at_logger_frame in Hat as (l & l' & Hl & Hmod & ->).
  injection Hmod as <- <-.
  destruct (decide (LogServer.nLoggers s = LogServer.maxLoggers s)) as [Hfull|Hroom].
  - rewrite QUICKLOG_ERROR_run in Hslot. unfold after_hook in Hslot.
    destruct error_hook; [done|]. injection Hslot as <- <-.
    exists l. cbn. auto 10.
  - apply bind_inv_ret in Hslot as (tA & [] & wA & tB & Hset & Hinc & ->).
    injection Hinc as <- <-.
    destruct (decide (0 ≤ LogServer.nLoggers s ∧ _)) as [[H0 Hlt]|Hout] in Hset; [|done].
    injection Hset as <- <-. exists l. cbn. fold s. auto 10.
Qed.

Lemma addLogger_room `{!Config} a w l :
  let s := LogServer.server w in
  0 ≤ LogServer.nLoggers s < LogServer.maxLoggers s →
  LogServer.maxLoggers s < SIZE_WIDTH →
  length (LogServer.localLoggers s) = Z.to_nat (LogServer.maxLoggers s) →
  LogServer.loggers w !! a = Some l →
  LogServer.addLogger a w =
    ([EvLock; EvUnlock],
     Ret (tt, LogServer.mkWorld (LogServer.this w)
                (LogServer.mk (LogServer.maxLoggers s)
                   (<[Z.to_nat (LogServer.nLoggers s) := Some a]>
                      (LogServer.localLoggers s))
                   (LogServer.nLoggers s + 1) (LogServer.run s))
                (<[a := LocalLogger.set_server (Some (LogServer.this w)) l]>
                   (LogServer.loggers w)))).
Proof.
  intros s Hn Hmax Hlen Hl. subst s. unfold LogServer.addLogger.
  rewrite bind_run. cbn [Platform.lock emit].
  rewrite (bind_ret_run _ _ _ _ _ _ (gets_run _ _)), after_events_nil.
  rewrite decide_False by lia. rewrite decide_True by (split; lia).
  cbv [mbind M_mbind M_bind LogServer.modify_server modify get Platform.unlock emit
       LogServer.at_logger zoom].
  cbn [LogServer.loggers LogServer.set_server LogServer.this LogServer.server
       LogServer.set_nLoggers LogServer.set_localLoggers LogServer.nLoggers
       LogServer.maxLoggers LogServer.localLoggers LogServer.run].
  rewrite Hl. cbn [app]. unfold size_t. rewrite Z.mod_small by lia. reflexivity.
Qed.

Lemma registry_ok_keep w w' :
  registry_ok w →
  LogServer.this w' = LogServer.this w →
  LogServer.maxLoggers (LogServer.server w') = LogServer.maxLoggers (LogServer.server w) →
  LogServer.localLoggers (LogServer.server w')
    = LogServer.localLoggers (LogServer.server w) →
  LogServer.nLoggers (LogServer.server w') = LogServer.nLoggers (LogServer.server w) →
  (∀ a l, LogServer.loggers w !! a = Some l →
     ∃ l', LogServer.loggers w' !! a = Some l' ∧
           (LocalLogger.server l = Some (LogServer.this w) →
            LocalLogger.server l' = Some (LogServer.this w))) →
  registry_ok w'.
Proof.
  intros (Hn & Hmax & Hlen & Hslots) Ht Hm Hreg Hcnt Hls.
  unfold registry_ok. rewrite Ht, Hm, Hreg, Hcnt.
  split; [done|]. split; [done|]. split; [done|].
  intros i Hi. destruct (Hslots i Hi) as (a & l & Hslot & Hl & Hsrv).
  destruct (Hls a l Hl) as (l' & Hl' & Hsrv'). exists a, l'. auto.
Qed.

Lemma registry_ok_update w a l l' :
  registry_ok w → LogServer.loggers w !! a = Some l →
  LocalLogger.server l' = LocalLogger.server l →
  registry_ok (LogServer.set_loggers (<[a := l']> (LogServer.loggers w)) w).
Proof.
  intros Hw Hl Hsrv. apply (registry_ok_keep w); try done.
  intros a0 l0 Hl0. cbn. destruct (decide (a0 = a)) as [->|Hne].
  - exists l'. rewrite list_lookup_insert_eq by (by eapply lookup_lt_Some).
    split; [done|]. rewrite Hsrv. congruence.
  - exists l0. by rewrite list_lookup_insert_ne.
Qed.

Lemma registry_ok_addLogger `{!Config} a w tr w' :
  registry_ok w → LogServer.addLogger a w = (tr, Ret (tt, w')) → registry_ok w'.
Proof.
  intros Hw (l & Hl & Ht & Hls & Hcases)%addLogger_inv.
  assert (∀ a0 l0, LogServer.loggers w !! a0 = Some l0 →
            ∃ l', LogServer.loggers w' !! a0 = Some l' ∧
                  (LocalLogger.server l0 = Some (LogServer.this w) →
                   LocalLogger.server l' = Some (LogServer.this w))) as Hkeep.
  { intros a0 l0 Hl0. rewrite Hls. destruct (decide (a0 = a)) as [->|Hne].
    - eexists. rewrite list_lookup_insert_eq by (by eapply lookup_lt_Some). done.
    - exists l0. by rewrite list_lookup_insert_ne. }
  destruct Hcases as [(_ & Hsrv & _)|(Hroom & H0 & Hlt & Hsrv & _)].
  { apply (registry_ok_keep w); try done; by rewrite Hsrv. }
  destruct Hw as (Hn & Hmax & Hlen & Hslots).
  unfold registry_ok. rewrite Hsrv, Ht. cbn.
  assert (size_t (LogServer.nLoggers (LogServer.server w) + 1)
          = LogServer.nLoggers (LogServer.server w) + 1) as ->.
  { unfold size_t. apply Z.mod_small. lia. }
  split; [lia|]. split; [done|]. split; [by rewrite length_insert|].
  intros i Hi.
  destruct (decide (i = Z.to_nat (LogServer.nLoggers (LogServer.server w)))) as [->|Hne].
  - exists a. rewrite list_lookup_insert_eq by done. rewrite Hls.
    eexists. rewrite list_lookup_insert_eq by (by eapply lookup_lt_Some). done.
  - rewrite list_lookup_insert_ne by done.
    destruct (Hslots i) as (a0 & l0 & Hslot & Hl0 & Hsrv0); [lia|].
    destruct (Hkeep a0 l0 Hl0) as (l' & Hl' & Hsrv'). exists a0, l'. auto.
Qed.

(** X16.  [addLogger] with room in the registry.  On a registry in order
    that is not full, [addLogger] takes and releases the lock, invokes no
    hook, stores the logger's address in slot [nLoggers], leaves the other
    slots and the run flag as they were, increments [nLoggers], sets the
    logger's [server] pointer to this server and touches no other logger;
    the registry is in order afterwards. *)
Theorem addLogger_registers `{!Config}
    (w : LogServer.World) (logger : nat) (l : LocalLogger.t) :
  registry_ok w →
  LogServer.nLoggers (LogServer.server w) < LogServer.maxLoggers (LogServer.server w) →
  LogServer.loggers w !! logger = Some l →
  ∃ w', LogServer.addLogger logger w = ([EvLock; EvUnlock], Ret (tt, w')) ∧
        LogServer.localLoggers (LogServer.server w')
          !! Z.to_nat (LogServer.nLoggers (LogServer.server w)) = Some (Some logger) ∧
        (∀ i, i ≠ Z.to_nat (LogServer.nLoggers (LogServer.server w)) →
              LogServer.localLoggers (LogServer.server w') !! i
              = LogServer.localLoggers (LogServer.server w) !! i) ∧
        LogServer.nLoggers (LogServer.server w')
          = LogServer.nLoggers (LogServer.server w) + 1 ∧
        LogServer.run (LogServer.server w') = LogServer.run (LogServer.server w) ∧
        LogServer.loggers w' !! logger
          = Some (LocalLogger.set_server (Some (LogServer.this w)) l) ∧
        (∀ a, a ≠ logger → LogServer.loggers w' !! a = LogServer.loggers w !! a) ∧
        registry_ok w'.
Proof.
  intros Hw Hroom Hl. pose proof Hw as (Hn & Hmax & Hlen & _).
  pose proof (addLogger_room logger w l (conj (proj1 Hn) Hroom) Hmax Hlen Hl) as Hrun.
  eexists. split; [exact Hrun|]. cbn.
  split; [apply list_lookup_insert_eq; lia|].
  split; [intros i Hi; by apply list_lookup_insert_ne|].
  split; [done|]. split; [done|].
  split; [apply list_lookup_insert_eq; by eapply lookup_lt_Some|].
  split; [intros a Ha; by apply list_lookup_insert_ne|].
  by eapply registry_ok_addLogger.
Qed.

Lemma registry_ok_init this M ls :
  0 ≤ M < SIZE_WIDTH → registry_ok (LogServer.mkWorld this (LogServer.init M) ls).
Proof.
  intros HM. unfold registry_ok; cbn. rewrite length_replicate.
  split; [lia|]. split; [lia|]. split; [done|]. intros i Hi. lia.
Qed.

Lemma addLogger_registers_witness :
  ∃ w', @LogServer.addLogger cfg_exits 0 world_fresh = ([EvLock; EvUnlock], Ret (tt, w')) ∧
        LogServer.localLoggers (LogServer.server w') !! 0%nat = Some (Some 0%nat) ∧
        LogServer.nLoggers (LogServer.server w') = 0 + 1 ∧
        LogServer.loggers w' !! 0%nat
          = Some (LocalLogger.set_server (Some 0%nat) (LocalLogger.init 2 32)) ∧
        registry_ok w'.
Proof.
  destruct (@addLogger_registers cfg_exits world_fresh 0%nat (LocalLogger.init 2 32))
    as (w' & Hrun & Hslot & _ & Hn & _ & Hl & _ & Hok).
  - apply registry_ok_init. unfold SIZE_WIDTH. cbn. lia.
  - cbn. lia.
  - reflexivity.
  - exists w'. auto.
Defined.

Lemma registry_ok_at_logger {A} a (m : M LocalLogger.t A) w tr x w' :
  (∀ l t y l', m l = (t, Ret (y, l')) → LocalLogger.server l' = LocalLogger.server l) →
  registry_ok w → LogServer.at_logger a m w = (tr, Ret (x, w')) →
  registry_ok w' ∧ LogServer.server w' = LogServer.server w.
Proof.
  intros Hm Hw (l & l' & Hl & Hrun & ->)%at_logger_frame. split; [|done].
  eapply registry_ok_update; [done|done|]. by eapply Hm.
Qed.

Lemma dump_keeps_server `{!Config} l t d l' :
  LocalLogger.dump l = (t, Ret (d, l')) → LocalLogger.server l' = LocalLogger.server l.
Proof. by intros [(_ & _ & -> & _)|(_ & _ & bs & ->)]%dump_frame. Qed.

Lemma log_keeps_server `{!Config} c vs l t y l' :
  LocalLogger.log c vs l = (t, Ret (y, l')) → LocalLogger.server l' = LocalLogger.server l.
Proof. destruct y. by intros (_ & _ & ? & _)%log_touches. Qed.

Lemma flush_keeps_server `{!Config} l t y l' :
  LocalLogger.flush l = (t, Ret (y, l')) → LocalLogger.server l' = LocalLogger.server l.
Proof. destruct y. by intros [->|[_ ->]]%flush_frame. Qed.

Lemma registry_ok_dump_loggers `{!Config} ixs : ∀ d w tr d' w',
  registry_ok w → LogServer.dump_loggers ixs d w = (tr, Ret (d', w')) → registry_ok w'.
Proof.
  induction ixs as [|i ixs IH]; intros d w tr d' w' Hw Hrun.
  - by injection Hrun as _ _ <-.
  - cbn [LogServer.dump_loggers] in Hrun.
    rewrite (bind_ret_run _ _ _ _ _ _ (gets_run _ _)), after_events_nil in Hrun.
    destruct (LogServer.localLoggers (LogServer.server w) !! i) as [[a|]|]; try done.
    apply bind_inv_ret in Hrun as (t1 & d1 & w1 & t2 & Hd & Hrest & _).
    apply (registry_ok_at_logger _ _ _ _ _ _ dump_keeps_server Hw) in Hd as [Hw1 _].
    by eapply IH.
Qed.

Lemma registry_ok_dumpAll `{!Config} fuel w tr w' :
  registry_ok w → LogServer._dumpAll fuel w = (tr, Ret (tt, w')) → registry_ok w'.
Proof.
  intros Hw (_ & _ & tr' & _ & Hloop)%dumpAll_frame. clear tr.
  revert w tr' Hw Hloop. induction fuel as [|fuel IH]; intros w tr Hw Hrun; [done|].
  cbn [LogServer.dumpAll_loop] in Hrun.
  rewrite (bind_ret_run _ _ _ _ _ _ (gets_run _ _)), after_events_nil in Hrun.
  apply bind_inv_ret in Hrun as (t1 & d & w1 & t2 & Hd & Hrest & _).
  apply (registry_ok_dump_loggers _ _ _ _ _ _ Hw) in Hd.
  destruct d; [by eapply IH|]. by injection Hrest as _ <-.
Qed.

Lemma registry_ok_run_call `{!Config} k w tr w' :
  registry_ok w → run_call k w = (tr, Ret (tt, w')) → registry_ok w'.
Proof.
  intros Hw. destruct k as [a|a c vs|a| |fuel]; cbn [run_call].
  - by apply registry_ok_addLogger.
  - intros Hrun.
    by apply (registry_ok_at_logger _ _ _ _ _ _ (log_keeps_server c vs) Hw) in Hrun as [? _].
  - intros Hrun.
    by apply (registry_ok_at_logger _ _ _ _ _ _ flush_keeps_server Hw) in Hrun as [? _].
  - rewrite shutdown_run. intros [= _ <-]. apply (registry_ok_keep w); try done.
    intros a l Hl. by exists l.
  - by apply registry_ok_dumpAll.
Qed.

Lemma registry_ok_run_calls `{!Config} ks : ∀ w0 tr w,
  registry_ok w0 → run_calls ks w0 = (tr, Ret (tt, w)) →
  registry_ok w ∧ LogServer.this w = LogServer.this w0 ∧
  LogServer.maxLoggers (LogServer.server w) = LogServer.maxLoggers (LogServer.server w0).
Proof.
  induction ks as [|k ks IH]; intros w0 tr w Hw0 Hrun.
  - by injection Hrun as _ <-.
  - cbn [run_calls] in Hrun.
    apply bind_inv_ret in Hrun as (t1 & [] & w1 & t2 & Hstep & Hrest & _).
    pose proof (registry_ok_run_call k w0 t1 w1 Hw0 Hstep) as Hw1.
    destruct (IH _ _ _ Hw1 Hrest) as (Hw & -> & ->). split; [done|].
    destruct k as [a|a c vs|a| |fuel]; cbn [run_call] in Hstep.
    + apply addLogger_inv in Hstep
        as (l & _ & -> & _ & [(_ & -> & _)|(_ & _ & _ & -> & _)]); done.
    + by apply at_logger_frame in Hstep as (l & l' & _ & _ & ->).
    + by apply at_logger_frame in Hstep as (l & l' & _ & _ & ->).
    + rewrite shutdown_run in Hstep. by injection Hstep as _ <-.
    + apply dumpAll_frame in Hstep as (-> & -> & _). done.
Qed.

(** X17.  The registry stays in order.  From a new server with room for
    [M] loggers, after any sequence of calls of [addLogger], [log], [flush],
    [shutdown] and drain passes that returned: [nLoggers] is at most [M],
    and every slot below [nLoggers] holds the address of a logger there is
    whose [server] pointer is this server; so a drain pass reads no slot
    that was never assigned. *)
Theorem registry_stays_in_order `{!Config}
    (M : Z) (this : nat) (ls : list LocalLogger.t) (ks : list server_call)
    (tr : list event) (w : LogServer.World) :
  0 ≤ M < SIZE_WIDTH →
  run_calls ks (LogServer.mkWorld this (LogServer.init M) ls) = (tr, Ret (tt, w)) →
  0 ≤ LogServer.nLoggers (LogServer.server w) ≤ M ∧
  ∀ i, (i < Z.to_nat (LogServer.nLoggers (LogServer.server w)))%nat →
    ∃ a l, LogServer.localLoggers (LogServer.server w) !! i = Some (Some a) ∧
           LogServer.loggers w !! a = Some l ∧
           LocalLogger.server l = Some this.
Proof.
  intros HM Hrun.
  destruct (registry_ok_run_calls ks _ tr w (registry_ok_init this M ls HM) Hrun)
    as (Hw & Ht & Hm).
  cbn in Ht, Hm.
  destruct Hw as (Hn & _ & _ & Hslots). rewrite Hm in Hn. split; [done|].
  intros i Hi. destruct (Hslots i Hi) as (a & l & ? & ? & ?).
  exists a, l. by rewrite <- Ht.
Qed.

Lemma registry_stays_in_order_witness :
  ∃ tr w,
    @run_calls cfg_exits
      [CallAddLogger 0; CallLog 0 class24 [1]; CallFlush 0; CallDumpAll 2; CallShutdown]
      world_fresh = (tr, Ret (tt, w)) ∧
    0 ≤ LogServer.nLoggers (LogServer.server w) ≤ 2 ∧
    ∀ i, (i < Z.to_nat (LogServer.nLoggers (LogServer.server w)))%nat →
      ∃ a l, LogServer.localLoggers (LogServer.server w) !! i = Some (Some a) ∧
             LogServer.loggers w !! a = Some l ∧
             LocalLogger.server l = Some 0%nat.
Proof.
  destruct (@run_calls cfg_exits
              [CallAddLogger 0; CallLog 0 class24 [1]; CallFlush 0; CallDumpAll 2;
               CallShutdown] world_fresh) as [tr o] eqn:Hr.
  pose proof Hr as Hr'. vm_compute in Hr'. injection Hr' as <- <-.
  eexists _, _. split; [reflexivity|].
  refine (@registry_stays_in_order cfg_exits 2 0%nat [LocalLogger.init 2 32] _ _ _ _ Hr).
  unfold SIZE_WIDTH. cbn. lia.
Defined.

(** ** The run flag *)

Lemma run_call_flag `{!Config} k w tr w' :
  run_call k w = (tr, Ret (tt, w')) →
  LogServer.run (LogServer.server w')
  = match k with
    | CallShutdown => false
    | _ => LogServer.run (LogServer.server w)
    end.
Proof.
  destruct k as [a|a c vs|a| |fuel]; cbn [run_call]; intros Hstep.
  - apply addLogger_inv in Hstep
      as (l & _ & _ & _ & [(_ & -> & _)|(_ & _ & _ & -> & _)]); done.
  - by apply at_logger_frame in Hstep as (l & l' & _ & _ & ->).
  - by apply at_logger_frame in Hstep as (l & l' & _ & _ & ->).
  - rewrite shutdown_run in Hstep. by injection Hstep as _ <-.
  - by apply dumpAll_frame in Hstep as (-> & _).
Qed.

(** X18.  The run flag is written by [shutdown] only, and only cleared.
    Over any sequence of calls of [addLogger], [log], [flush], [shutdown] and
    drain passes that returned: if [shutdown] is among them the flag is
    cleared at the end, if not the flag is what it was, and a flag that was
    cleared stays cleared: no call restarts the server. *)
Theorem run_flag_is_only_cleared `{!Config}
    (ks : list server_call) (w : LogServer.World) (tr : list event)
    (w' : LogServer.World) :
  run_calls ks w = (tr, Ret (tt, w')) →
  (CallShutdown ∈ ks → LogServer.run (LogServer.server w') = false) ∧
  (CallShutdown ∉ ks →
     LogServer.run (LogServer.server w') = LogServer.run (LogServer.server w)) ∧
  (LogServer.run (LogServer.server w) = false →
     LogServer.run (LogServer.server w') = false).
Proof.
  revert w tr. induction ks as [|k ks IH]; intros w tr Hrun.
  - injection Hrun as _ <-. split; [by intros ?%elem_of_nil|]. done.
  - cbn [run_calls] in Hrun.
    apply bind_inv_ret in Hrun as (t1 & [] & w1 & t2 & Hstep & Hrest & _).
    apply run_call_flag in Hstep. destruct (IH _ _ Hrest) as (Hin & Hout & Hclr).
    split; [|split].
    + intros [<-|Hks]%elem_of_cons; [by apply Hclr|by apply Hin].
    + intros [Hk Hks]%not_elem_of_cons. rewrite (Hout Hks), Hstep. by destruct k.
    + intros Hw. apply Hclr. rewrite Hstep. by destruct k.
Qed.

Lemma run_flag_is_only_cleared_witness :
  ∃ tr w',
    @run_calls cfg_exits [CallAddLogger 0; CallShutdown; CallLog 0 class24 [1]]
      world_fresh = (tr, Ret (tt, w')) ∧
    LogServer.run (LogServer.server w') = false.
Proof.
  destruct (@run_calls cfg_exits [CallAddLogger 0; CallShutdown; CallLog 0 class24 [1]]
              world_fresh) as [tr o] eqn:Hr.
  pose proof Hr as Hr'. vm_compute in Hr'. injection Hr' as <- <-.
  eexists _, _. split; [reflexivity|].
  apply (proj1 (@run_flag_is_only_cleared cfg_exits
                  [CallAddLogger 0; CallShutdown; CallLog 0 class24 [1]]
                  world_fresh _ _ Hr)).
  apply elem_of_cons. right. apply elem_of_cons. by left.
Defined.

(** ** What a drain pass leaves *)

Lemma set_loggers_id w a l :
  LogServer.loggers w !! a = Some l →
  LogServer.set_loggers (<[a := l]> (LogServer.loggers w)) w = w.
Proof. intros Hl. rewrite list_insert_id by done. by destruct w. Qed.

Lemma dump_loggers_quiet `{!Config} ixs : ∀ d w tr w',
  LogServer.dump_loggers ixs d w = (tr, Ret (false, w')) →
  d = false ∧ w' = w ∧ tr = [] ∧
  Forall (λ i, ∃ a l, LogServer.localLoggers (LogServer.server w) !! i = Some (Some a) ∧
                      LogServer.loggers w !! a = Some l ∧ logger_count l = 0) ixs.
Proof.
  induction ixs as [|i ixs IH]; intros d w tr w' Hrun.
  - by injection Hrun as <- <- <-.
  - cbn [LogServer.dump_loggers] in Hrun.
    rewrite (bind_ret_run _ _ _ _ _ _ (gets_run _ _)), after_events_nil in Hrun.
    destruct (LogServer.localLoggers (LogServer.server w) !! i) as [[a|]|] eqn:Hslot;
      try done.
    apply bind_inv_ret in Hrun as (t1 & d1 & w1 & t2 & Hd & Hrest & ->).
    apply IH in Hrest as (Hor & -> & -> & Hall).
    apply orb_false_iff in Hor as [-> ->].
    apply at_logger_frame in Hd as (l & l' & Hl & Hdump & ->).
    apply dump_inv in Hdump as [(_ & Hz & -> & ->)|(? & _)]; [|done].
    rewrite (set_loggers_id w a l Hl) in *.
    split; [done|]. split; [done|]. split; [done|].
    constructor; [|done]. by exists a, l.
Qed.

Lemma dump_loggers_idle `{!Config} ixs : ∀ w,
  Forall (λ i, ∃ a l, LogServer.localLoggers (LogServer.server w) !! i = Some (Some a) ∧
                      LogServer.loggers w !! a = Some l ∧ logger_count l = 0) ixs →
  LogServer.dump_loggers ixs false w = ([], Ret (false, w)).
Proof.
  induction ixs as [|i ixs IH]; intros w Hall; [done|].
  apply Forall_cons in Hall as [(a & l & Hslot & Hl & Hz) Hall].
  cbn [LogServer.dump_loggers].
  rewrite (bind_ret_run _ _ _ _ _ _ (gets_run _ _)), after_events_nil. rewrite Hslot.
  assert (LogServer.at_logger a LocalLogger.dump w = ([], Ret (false, w))) as Hat.
  { unfold LogServer.at_logger, zoom. rewrite Hl, (dump_run_idle l Hz).
    by rewrite (set_loggers_id w a l Hl). }
  rewrite (bind_ret_run _ _ _ _ _ _ Hat), after_events_nil. by apply IH.
Qed.

Lemma dumpAll_loop_last `{!Config} fuel : ∀ w tr w',
  LogServer.dumpAll_loop fuel w = (tr, Ret (tt, w')) →
  LogServer.dump_loggers
    (seq 0 (Z.to_nat (LogServer.nLoggers (LogServer.server w')))) false w'
  = ([], Ret (false, w')).
Proof.
  induction fuel as [|fuel IH]; intros w tr w' Hrun; [done|].
  cbn [LogServer.dumpAll_loop] in Hrun.
  rewrite (bind_ret_run _ _ _ _ _ _ (gets_run _ _)), after_events_nil in Hrun.
  apply bind_inv_ret in Hrun as (t1 & d & w1 & t2 & Hd & Hrest & _).
  destruct d; [by eapply IH|]. injection Hrest as _ <-.
  pose proof Hd as Hq. apply dump_loggers_quiet in Hq as (_ & -> & -> & _).
  exact Hd.
Qed.

(** X19.  A drain pass that returns leaves nothing pending.  When
    [_dumpAll] returns, every registered logger has [buffersFull.peek() == 0],
    and a second pass right after it takes and releases the lock, prints
    nothing and changes nothing. *)
Theorem dumpAll_leaves_nothing_pending `{!Config}
    (fuel : nat) (w : LogServer.World) (tr : list event) (w' : LogServer.World) :
  LogServer._dumpAll fuel w = (tr, Ret (tt, w')) →
  (∀ i, (i < Z.to_nat (LogServer.nLoggers (LogServer.server w')))%nat →
     ∃ a l, LogServer.localLoggers (LogServer.server w') !! i = Some (Some a) ∧
            LogServer.loggers w' !! a = Some l ∧
            LocalLogger.at_buffersFull semaphore.peek l = ([], Ret (0, l))) ∧
  LogServer._dumpAll fuel w' = ([EvLock; EvUnlock], Ret (tt, w')).
Proof.
  intros (_ & _ & tr' & _ & Hloop)%dumpAll_frame.
  pose proof (dumpAll_loop_last fuel w tr' w' Hloop) as Hlast. split.
  - intros i Hi. apply dump_loggers_quiet in Hlast as (_ & _ & _ & Hall).
    destruct (proj1 (Forall_forall _ _) Hall i) as (a & l & Hslot & Hl & Hz).
    { apply elem_of_seq. lia. }
    exists a, l. split; [done|]. split; [done|]. by rewrite logger_peek_run, Hz.
  - destruct fuel as [|fuel]; [done|].
    assert (LogServer.dumpAll_loop (S fuel) w' = ([], Ret (tt, w'))) as Hidle.
    { cbn [LogServer.dumpAll_loop].
      rewrite (bind_ret_run _ _ _ _ _ _ (gets_run _ _)), after_events_nil.
      by rewrite (bind_ret_run _ _ _ _ _ _ Hlast). }
    unfold LogServer._dumpAll. rewrite bind_run. cbn [Platform.lock emit].
    by rewrite (bind_ret_run _ _ _ _ _ _ Hidle).
Qed.

Lemma dumpAll_leaves_nothing_pending_witness :
  ∃ w', @LogServer._dumpAll cfg_exits 2 world_one_pending
          = ([EvLock; EvPrint [1]; EvUnlock], Ret (tt, w')) ∧
        @LogServer._dumpAll cfg_exits 2 w' = ([EvLock; EvUnlock], Ret (tt, w')).
Proof.
  destruct (@LogServer._dumpAll cfg_exits 2 world_one_pending) as [tr o] eqn:Hr.
  pose proof Hr as Hr'. vm_compute in Hr'. injection Hr' as <- <-.
  eexists. split; [reflexivity|].
  exact (proj2 (@dumpAll_leaves_nothing_pending cfg_exits 2 world_one_pending _ _ Hr)).
Defined.

(** ** A whole session *)

Lemma produce_draining `{!Config} N B srv rs tr l :
  0 < QUICKLOG_ALIGN → 1 ≤ N ≤ 255 → 0 ≤ B ≤ PTRDIFF_MAX →
  Forall (λ r, class_ok r.1) rs →
  produce rs (LocalLogger.set_server srv (LocalLogger.init N B)) = (tr, Ret (tt, l)) →
  no_errors tr →
  ∃ handed, draining N B 0 handed l ∧
            concat handed = (λ r, LogEntry.make r.1 r.2) <$> rs.
Proof.
  intros HA HN HB Hrs Hprod Hne. unfold produce in Hprod.
  apply bind_inv_ret in Hprod as (tr1 & [] & l0 & tr2 & Hlogs & Hflush & ->).
  apply no_errors_app in Hne as [Hne1 Hne2].
  pose proof (producing_init N B srv (proj1 HN) HB) as Hinit.
  destruct (log_all_producing N B rs [] [] _ tr1 l0 HA HN Hrs Hinit Hlogs Hne1)
    as [(done & cur & Hp & Heq)|Hwrap].
  2:{ by destruct (wrapped_flush _ _ _ Hwrap Hflush). }
  destruct (flush_producing N B done cur l0 tr2 l HA HN Hp Hflush Hne2)
    as (handed & Hdr & Hcat).
  exists handed. split; [done|]. by rewrite Hcat, Heq.
Qed.

Lemma dumpAll_loop_single `{!Config} fuel : ∀ w a l,
  LogServer.nLoggers (LogServer.server w) = 1 →
  LogServer.localLoggers (LogServer.server w) !! 0%nat = Some (Some a) →
  LogServer.loggers w !! a = Some l →
  LogServer.dumpAll_loop fuel w = LogServer.at_logger a (drain fuel) w.
Proof.
  induction fuel as [|fuel IH]; intros w a l Hn Hslot Hl.
  { unfold LogServer.at_logger, zoom. by rewrite Hl. }
  cbn [LogServer.dumpAll_loop].
  rewrite (bind_ret_run _ _ _ _ _ _ (gets_run _ _)), after_events_nil.
  rewrite Hn. change (seq 0 (Z.to_nat 1)) with [0%nat].
  cbn [LogServer.dump_loggers].
  rewrite bind_run.
  rewrite (bind_ret_run _ _ _ _ _ _ (gets_run _ _)), after_events_nil.
  rewrite Hslot. rewrite bind_run.
  unfold LogServer.at_logger at 1 2. unfold zoom at 1 2. rewrite Hl.
  cbn [drain]. rewrite bind_run.
  destruct (LocalLogger.dump l) as [tr [[d l1]| | |]]; try done.
  cbn [mret M_mret M_ret orb app]. rewrite app_nil_r.
  set (w1 := LogServer.set_loggers (<[a:=l1]> (LogServer.loggers w)) w).
  assert (LogServer.loggers w1 !! a = Some l1) as Hl1.
  { apply list_lookup_insert_eq. by eapply lookup_lt_Some. }
  destruct d.
  - rewrite (IH w1 a l1 Hn Hslot Hl1). unfold LogServer.at_logger, zoom. rewrite Hl1.
    destruct (drain fuel l1) as [tr' [[[] l2]| | |]]; try done.
    subst w1. cbn. by rewrite list_insert_insert_eq.
  - reflexivity.
Qed.

(** X20.  A whole session with one producer.  On a new server, the
    producer registers a fresh logger ([N] arenas, [1 <= N <= 255]), logs
    the records [rs] and flushes, and the server is shut down.  If these
    calls returned without invoking the error hook, they printed nothing,
    and the consumer, started then or waiting since, takes the lock once,
    invokes the print callable once per record, in the order the records
    were logged, releases the lock and returns. *)
Theorem session_prints_every_record_in_order `{!Config}
    (M N B : Z) (this a : nat) (ls : list LocalLogger.t)
    (rs : list (LogEntry.class * list Z)) (tr : list event) (w1 : LogServer.World)
    (fuel : nat) (others : list (LogServer.World → LogServer.World)) :
  0 < QUICKLOG_ALIGN → 1 ≤ M < SIZE_WIDTH → 1 ≤ N ≤ 255 → 0 ≤ B ≤ PTRDIFF_MAX →
  Forall (λ r, class_ok r.1) rs →
  ls !! a = Some (LocalLogger.init N B) →
  session a rs (LogServer.mkWorld this (LogServer.init M) ls) = (tr, Ret (tt, w1)) →
  no_errors tr →
  (Z.to_nat N < fuel)%nat →
  printed tr = [] ∧
  ∃ w2, LogServer.process fuel others w1
        = (EvLock :: (EvPrint <$> rs.*2) ++ [EvUnlock], Ret (tt, w2)).
Proof.
  intros HA HM HN HB Hrs Ha Hrun Hne Hfuel. unfold session in Hrun.
  split.
  { apply printed_silent.
    assert (silent (session a rs)) as Hs.
    { unfold session. apply silent_bind; [apply silent_addLogger|]. intros _.
      apply silent_bind; [apply silent_zoom, silent_produce|]. intros _.
      apply silent_shutdown. }
    specialize (Hs (LogServer.mkWorld this (LogServer.init M) ls)).
    unfold session in Hs. by rewrite Hrun in Hs. }
  apply bind_inv_ret in Hrun as (t1 & [] & wa & t2 & Hadd & Hrun & ->).
  apply bind_inv_ret in Hrun as (t3 & [] & wb & t4 & Hprod & Hshut & ->).
  rewrite shutdown_run in Hshut. injection Hshut as <- <-.
  apply no_errors_app in Hne as [_ Hne]. apply no_errors_app in Hne as [Hne _].
  apply addLogger_inv in Hadd as (l0 & Hl0 & Hthis & Hls & Hcases).
  cbn in Hl0, Hthis, Hls, Hcases. rewrite Ha in Hl0. injection Hl0 as <-.
  destruct Hcases as [(Hfull & _)|(_ & _ & _ & Hsrv & _)]; [lia|].
  apply at_logger_frame in Hprod as (l & l1 & Hl & Hprod & ->).
  rewrite Hls, list_lookup_insert_eq in Hl by (by eapply lookup_lt_Some).
  injection Hl as <-.
  destruct (produce_draining N B _ rs t3 l1 HA HN HB Hrs Hprod Hne) as (handed & Hdr & Hcat).
  pose proof (draining_length _ _ _ _ _ Hdr) as Hlen.
  destruct (drain_draining N B handed 0 l1 fuel HA (proj2 HN) Hdr) as (l2 & Hdrain); [lia|].
  set (wc := LogServer.set_loggers _ wa). 
  assert (LogServer.loggers wc !! a = Some l1) as Hl1.
  { subst wc. cbn. apply list_lookup_insert_eq. rewrite Hls, length_insert.
    by eapply lookup_lt_Some. }
  eexists. unfold LogServer.process. rewrite process_stopped by done.
  unfold LogServer._dumpAll. rewrite bind_run. cbn [Platform.lock emit].
  rewrite bind_run.
  rewrite (dumpAll_loop_single fuel _ a l1); [| | |exact Hl1].
  - unfold LogServer.at_logger, zoom.
    cbn [LogServer.loggers LogServer.set_server]. rewrite Hl1, Hdrain.
    cbn. rewrite Hcat. rewrite <- !list_fmap_compose. reflexivity.
  - cbn. rewrite Hsrv. cbn. unfold size_t. by rewrite Z.mod_small by (unfold SIZE_WIDTH; lia).
  - cbn. rewrite Hsrv. cbn. apply list_lookup_insert_eq. rewrite length_replicate. lia.
Qed.

Lemma session_prints_every_record_in_order_witness :
  ∃ w1 w2,
    @session cfg_exits 0 records_same_size
      (LogServer.mkWorld 0 (LogServer.init 2) [LocalLogger.init 2 64])
      = ([EvLock; EvUnlock; EvNotify; EvNotify; EvNotify], Ret (tt, w1)) ∧
    @LogServer.process cfg_exits 3 [] w1
      = ([EvLock; EvPrint [1]; EvPrint [2]; EvPrint [3]; EvUnlock], Ret (tt, w2)).
Proof.
  destruct (@session cfg_exits 0 records_same_size
              (LogServer.mkWorld 0 (LogServer.init 2) [LocalLogger.init 2 64]))
    as [tr o] eqn:Hr.
  pose proof Hr as Hr'. vm_compute in Hr'. injection Hr' as <- <-.
  match type of Hr with
  | _ = (?tr, Ret (tt, ?w1)) =>
      exists w1;
      destruct (@session_prints_every_record_in_order cfg_exits 2 2 64 0%nat 0%nat
                  [LocalLogger.init 2 64] records_same_size tr w1 3%nat [])
        as (_ & w2 & Hproc)
  end.
  - reflexivity.
  - unfold SIZE_WIDTH. cbn. lia.
  - lia.
  - unfold PTRDIFF_MAX. lia.
  - repeat constructor; unfold class_ok; cbn; unfold PTRDIFF_MAX; lia.
  - reflexivity.
  - exact Hr.
  - intros msg Hin. repeat (apply elem_of_cons in Hin as [Hin|Hin]; [discriminate Hin|]).
    by apply elem_of_nil in Hin.
  - cbn. lia.
  - exists w2. split; [reflexivity|]. exact Hproc.
Defined.

(** ** Producer and consumer at work on the same logger *)

Lemma ring_facts `{!Config} N B j handed cur l :
  1 ≤ N ≤ 255 → ring N B j handed cur l →
  Z.of_nat (j + length handed) < N ∧
  logger_count l = Z.of_nat (length handed) ∧
  logger_count l ≠ LocalLogger.numBuffers l ∧
  LocalLogger.numBuffers l ≠ 0.
Proof.
  intros HN (bs_taken & bs_handed & b_cur & bs_free & Hbs & Hj & Hh & _ & _ & HnumN
             & Hlen & _ & _ & Hsem).
  pose proof (Forall2_length _ _ _ Hh) as Hlh.
  rewrite Hbs, !length_app in Hlen. cbn [length] in Hlen.
  assert (logger_count l = Z.of_nat (length handed)) as Hc.
  { unfold logger_count. rewrite Hsem. unfold sem_count, uint8_t; cbn.
    rewrite Z.mod_small; lia. }
  repeat split; lia.
Qed.

Lemma ring_init `{!Config} N B srv :
  1 ≤ N → 0 ≤ B ≤ PTRDIFF_MAX →
  ring N B 0 [] [] (LocalLogger.set_server srv (LocalLogger.init N B)).
Proof.
  intros HN HB.
  destruct (producing_init N B srv HN HB)
    as (bs_done & b_cur & bs_free & Hbs & Hdone & Hcur & Hfree & Hrest).
  apply Forall2_nil_inv_l in Hdone as ->.
  exists [], [], b_cur, bs_free. split; [done|]. split; [done|].
  split; [constructor|]. split; [done|]. split; [done|]. exact Hrest.
Qed.

Lemma ring_current `{!Config} N B j handed cur l :
  ring N B j handed cur l →
  ∃ b, LocalLogger.buffers l !! Z.to_nat (LocalLogger.writeIndex l) = Some b ∧
       arena B cur b.
Proof.
  intros (bs_taken & bs_handed & b_cur & bs_free & Hbs & Hj & Hh & Hcur & _ & _
          & _ & Hw & _).
  pose proof (Forall2_length _ _ _ Hh) as Hlh.
  exists b_cur. split; [|done]. rewrite Hbs, Hw, Nat2Z.id.
  apply list_lookup_middle. rewrite length_app. lia.
Qed.

Lemma ring_advanced `{!Config} N B j handed cur l :
  1 ≤ N ≤ 255 → ring N B j handed cur l →
  Z.of_nat (j + length handed) + 1 < N →
  ring N B j (handed ++ [cur]) [] (advanced l).
Proof.
  intros HN (bs_taken & bs_handed & b_cur & bs_free & Hbs & Hj & Hh & Hcur & Hfree
             & HnumN & Hlen & Hw & Hr & Hsem) Hroom.
  pose proof (Forall2_length _ _ _ Hh) as Hlh.
  pose proof Hlen as Hlen'. rewrite Hbs, !length_app in Hlen'. cbn [length] in Hlen'.
  destruct bs_free as [|b_n bs_free']; [cbn [length] in Hlen'; lia|].
  apply Forall_cons in Hfree as [Hn Hfree].
  exists bs_taken, (bs_handed ++ [b_cur]), b_n, bs_free'.
  unfold advanced; cbn. rewrite length_app. cbn [length].
  split; [by rewrite Hbs, <- !app_assoc|]. split; [done|].
  split; [apply Forall2_app; [done|by apply Forall2_cons]|].
  split; [done|]. split; [done|]. split; [done|]. split; [done|].
  split.
  { rewrite Hw, HnumN. rewrite Z.mod_small by lia.
    unfold uint8_t. rewrite Z.mod_small; lia. }
  split; [done|]. rewrite Hsem; cbn. f_equal.
  unfold uint8_t. rewrite Z.mod_small; lia.
Qed.

Lemma ring_set_current `{!Config} N B j handed cur cur' l b' :
  ring N B j handed cur l → arena B cur' b' →
  ring N B j handed cur'
    (LocalLogger.set_buffers
       (<[Z.to_nat (LocalLogger.writeIndex l) := b']> (LocalLogger.buffers l)) l).
Proof.
  intros (bs_taken & bs_handed & b_cur & bs_free & Hbs & Hj & Hh & Hcur & Hfree
          & HnumN & Hlen & Hw & Hr & Hsem) Hb'.
  pose proof (Forall2_length _ _ _ Hh) as Hlh.
  exists bs_taken, bs_handed, b', bs_free. cbn.
  split.
  { rewrite Hbs, Hw, Nat2Z.id. apply list_insert_middle. rewrite length_app. lia. }
  split; [done|]. split; [done|]. split; [done|]. split; [done|]. split; [done|].
  split; [by rewrite length_insert|]. done.
Qed.

Lemma ring_log `{!Config} N B j handed cur l c vs tr l' :
  0 < QUICKLOG_ALIGN → 1 ≤ N ≤ 255 → class_ok c → ring N B j handed cur l →
  LocalLogger.log c vs l = (tr, Ret (tt, l')) → no_errors tr →
  Z.of_nat (j + length handed) + notifies tr < N →
  (notifies tr = 0 ∧ ring N B j handed (cur ++ [LogEntry.make c vs]) l') ∨
  (notifies tr = 1 ∧ ring N B j (handed ++ [cur]) [LogEntry.make c vs] l').
Proof.
  intros HA HN Hcl Hring Hlog Hne Hroom.
  destruct (ring_facts N B j handed cur l HN Hring) as (Hk & Hcount & Hfull & HN0).
  destruct (ring_current N B j handed cur l Hring) as (b_cur & Hb & Hcur & Hsz & Hok).
  set (e := LogEntry.make c vs) in *.
  assert (entry_ok e) as He by (by apply entry_ok_make).
  destruct (decide (alignedSize (LogEntry.sizeof (LogEntry.vptr e))
                    + EntryBuffer.m_pos b_cur ≤ EntryBuffer.size b_cur)) as [Hfit|Hno].
  - destruct (arena_holds_push cur b_cur e HA Hok He Hcur Hfit) as (b' & Hrun & Hb' & Hsz').
    pose proof (at_buffer_run _ (EntryBuffer.pushElem e) l b_cur Hb) as Hat.
    rewrite Hrun in Hat.
    rewrite (log_run_first c vs l _ _ Hfull Hat) in Hlog. injection Hlog as <- <-.
    left. split; [reflexivity|]. apply (ring_set_current N B j handed cur); [done|].
    split; [done|]. split; [congruence|].
    apply Forall_app. split; [done|]. by apply Forall_singleton.
  - pose proof (arena_buffer_ok _ _ _ (conj Hcur (conj Hsz Hok))) as Hbok.
    pose proof (at_buffer_run _ (EntryBuffer.pushElem e) l b_cur Hb) as Hat1.
    rewrite (pushElem_no_fit b_cur e HA Hbok (proj1 He) Hno) in Hat1.
    rewrite list_insert_id, set_buffers_id in Hat1 by done.
    apply log_inv in Hlog as (tr1 & ok1 & l1 & Hat1' & Hcases); [|done].
    fold e in Hat1'. rewrite Hat1 in Hat1'. injection Hat1' as <- <- <-.
    destruct Hcases as (tr2 & l2 & tr3 & ok2 & l3 & Hnext & Hat2 & Hcases).
    fold e in Hat2.
    pose proof (at_buffer_pushElem_trace _ _ _ _ _ Hat2) as ->.
    destruct ok2; [|by destruct Hcases]. destruct Hcases as [-> ->].
    rewrite (nextIndex_run l Hfull HN0) in Hnext.
    destruct (LocalLogger.server l) as [srv|].
    2:{ injection Hnext as <- _. cbn in Hne. by apply no_errors_error in Hne. }
    injection Hnext as <- <-. cbn [app] in Hroom |- *.
    change (notifies [EvNotify]) with 1 in *.
    right. split; [done|].
    pose proof (ring_advanced N B j handed cur l HN Hring Hroom) as Hring'.
    destruct (ring_current _ _ _ _ _ _ Hring') as (b_n & Hb_n & Hn & Hszn & _).
    rewrite (at_buffer_run _ _ _ _ Hb_n) in Hat2.
    destruct (decide (alignedSize (LogEntry.sizeof (LogEntry.vptr e))
                      + EntryBuffer.m_pos b_n ≤ EntryBuffer.size b_n)) as [Hfit|Hno'].
    2:{ rewrite (pushElem_no_fit b_n e HA (proj1 Hn) (proj1 He) Hno') in Hat2. done. }
    destruct (arena_holds_push [] b_n e HA (Forall_nil_2 _) He Hn Hfit)
      as (b' & Hrun & Hb' & Hsz').
    rewrite Hrun in Hat2. injection Hat2 as <-.
    apply (ring_set_current N B j (handed ++ [cur]) [] [e] (advanced l) b'); [done|].
    split; [done|]. split; [congruence|]. by apply Forall_singleton.
Qed.

Lemma ring_flush `{!Config} N B j handed cur l tr l' :
  0 < QUICKLOG_ALIGN → 1 ≤ N ≤ 255 → ring N B j handed cur l →
  LocalLogger.flush l = (tr, Ret (tt, l')) → no_errors tr →
  Z.of_nat (j + length handed) + notifies tr < N →
  (notifies tr = 0 ∧ cur = [] ∧ l' = l) ∨
  (notifies tr = 1 ∧ ring N B j (handed ++ [cur]) [] l').
Proof.
  intros HA HN Hring Hflush Hne Hroom.
  destruct (ring_facts N B j handed cur l HN Hring) as (Hk & Hcount & Hfull & HN0).
  destruct (ring_current N B j handed cur l Hring) as (b_cur & Hb & Hcur).
  destruct (decide (EntryBuffer.m_pos b_cur = 0)) as [Hz|Hnz].
  - rewrite (flush_run_empty l b_cur Hb Hz) in Hflush. injection Hflush as <- <-.
    left. split; [reflexivity|]. split; [|done].
    by apply (arena_empty_iff B cur b_cur HA Hcur).
  - rewrite (flush_run_advance l b_cur Hb Hnz), (nextIndex_run l Hfull HN0) in Hflush.
    destruct (LocalLogger.server l) as [srv|].
    2:{ injection Hflush as <- _. by apply no_errors_error in Hne. }
    injection Hflush as <- <-. change (notifies [EvNotify]) with 1 in *.
    right. split; [done|]. by apply ring_advanced.
Qed.

Lemma ring_dump `{!Config} N B j handed cur l :
  0 < QUICKLOG_ALIGN → 1 ≤ N ≤ 255 → ring N B j handed cur l →
  match handed with
  | [] => LocalLogger.dump l = ([], Ret (false, l))
  | es :: handed' =>
      ∃ l', LocalLogger.dump l = (prints es, Ret (true, l')) ∧
            ring N B (S j) handed' cur l'
  end.
Proof.
  intros HA HN Hring.
  destruct (ring_facts N B j handed cur l HN Hring) as (Hk & Hcount & Hfull & HN0).
  destruct handed as [|es handed']; [by apply dump_run_idle|].
  destruct Hring as (bs_taken & bs_handed & b_cur & bs_free & Hbs & Hj & Hh & Hcur
                     & Hfree & HnumN & Hlen & Hw & Hr & Hsem).
  apply Forall2_cons_inv_l in Hh as (b & bs_h & (Hb & Hsz & Hok) & Hh & ->).
  pose proof (Forall2_length _ _ _ Hh) as Hlh.
  assert (logger_count l ≠ 0) as Hnz by (rewrite Hcount; cbn [length]; lia).
  assert (LocalLogger.buffers l !! Z.to_nat (LocalLogger.readIndex l) = Some b) as Hlk.
  { rewrite Hbs, Hr, Nat2Z.id, <- app_assoc. cbn [app]. by apply list_lookup_middle. }
  destruct (arena_holds_dump es b HA Hok Hb) as [Hdump _].
  pose proof (at_buffer_run _ EntryBuffer.dump l b Hlk) as Hat. rewrite Hdump in Hat.
  eexists. split; [exact (dump_run_take l _ _ Hnz Hat)|].
  cbn [LocalLogger.set_buffers LocalLogger.buffers].
  exists (bs_taken ++ [EntryBuffer.mk (EntryBuffer.size b) 0 0 (EntryBuffer.m_buffer b)]),
    bs_h, b_cur, bs_free.
  unfold taken; cbn [LocalLogger.buffers LocalLogger.readIndex LocalLogger.buffersFull
                     LocalLogger.numBuffers LocalLogger.writeIndex].
  split.
  { rewrite Hbs, Hr, Nat2Z.id, <- !app_assoc. cbn [app]. by apply list_insert_middle. }
  split; [rewrite length_app; cbn; lia|]. split; [done|]. split; [done|].
  split; [done|]. split; [done|].
  split; [by rewrite length_insert|].
  cbn [length] in *.
  split; [rewrite Hw; lia|].
  rewrite Hr, Hsem. cbn [semaphore.numPuts semaphore.numGets].
  assert (uint8_t (Z.of_nat j + 1) = Z.of_nat (S j)) as ->.
  { unfold uint8_t. rewrite Z.mod_small; lia. }
  split; [done|]. f_equal. lia.
Qed.

Lemma printed_app tr1 tr2 : printed (tr1 ++ tr2) = printed tr1 ++ printed tr2.
Proof. unfold printed. apply omap_app. Qed.

Lemma printed_prints es : printed (prints es) = LogEntry.values <$> es.
Proof. induction es as [|e es IH]; [done|]. cbn. by f_equal. Qed.

Lemma prints_are_prints es : Forall is_print (prints es).
Proof. unfold prints. apply Forall_fmap. by apply Forall_true. Qed.

Lemma notifies_nonneg tr : 0 ≤ notifies tr.
Proof. unfold notifies. lia. Qed.

Lemma ring_run_ops `{!Config} N B ops : ∀ j handed cur l tr l',
  0 < QUICKLOG_ALIGN → 1 ≤ N ≤ 255 → Forall op_ok ops → ring N B j handed cur l →
  run_logger_ops ops l = (tr, Ret (tt, l')) → no_errors tr →
  Z.of_nat (j + length handed) + notifies tr < N →
  ∃ j' handed' cur',
    ring N B j' handed' cur' l' ∧
    Z.of_nat (j' + length handed') = Z.of_nat (j + length handed) + notifies tr ∧
    (LogEntry.values <$> (concat handed ++ cur)) ++ logged ops
    = printed tr ++ (LogEntry.values <$> (concat handed' ++ cur')).
Proof.
  induction ops as [|o ops IH]; intros j handed cur l tr l' HA HN Hops Hring Hrun Hne Hroom.
  { injection Hrun as <- <-. exists j, handed, cur. split; [done|].
    split; [change (notifies []) with 0; lia|]. by rewrite app_nil_r. }
  apply Forall_cons in Hops as [Ho Hops]. cbn [run_logger_ops] in Hrun.
  apply bind_inv_ret in Hrun as (tr1 & [] & l1 & tr2 & Hstep & Hrest & ->).
  apply no_errors_app in Hne as [Hne1 Hne2].
  rewrite notifies_app in Hroom. rewrite printed_app, notifies_app.
  pose proof (notifies_nonneg tr1) as Hn1. pose proof (notifies_nonneg tr2) as Hn2.
  destruct o as [c vs| |]; cbn [run_logger_op] in Hstep; cbn [op_ok] in Ho.
  - assert (printed tr1 = []) as ->.
    { apply printed_silent. pose proof (silent_log c vs l) as Hs. by rewrite Hstep in Hs. }
    assert (logged (OpLog c vs :: ops) = vs :: logged ops) as -> by done.
    destruct (ring_log N B j handed cur l c vs tr1 l1 HA HN Ho Hring Hstep Hne1)
      as [[Hz Hring1]|[Hone Hring1]]; [lia| |].
    + destruct (IH _ _ _ _ _ _ HA HN Hops Hring1 Hrest Hne2)
        as (j' & h' & c' & Hr' & Hsum & Heq); [lia|].
      exists j', h', c'. split; [done|]. split; [lia|]. cbn [app]. rewrite <- Heq.
      rewrite !fmap_app. cbn. by rewrite <- !app_assoc.
    + destruct (IH _ _ _ _ _ _ HA HN Hops Hring1 Hrest Hne2)
        as (j' & h' & c' & Hr' & Hsum & Heq).
      { rewrite length_app. cbn [length]. lia. }
      rewrite length_app in Hsum. cbn [length] in Hsum.
      exists j', h', c'. split; [done|]. split; [lia|]. cbn [app]. rewrite <- Heq.
      rewrite concat_app. cbn. rewrite app_nil_r, !fmap_app. cbn.
      by rewrite <- !app_assoc.
  - assert (printed tr1 = []) as ->.
    { apply printed_silent. pose proof (silent_flush l) as Hs. by rewrite Hstep in Hs. }
    assert (logged (OpFlush :: ops) = logged ops) as -> by done.
    destruct (ring_flush N B j handed cur l tr1 l1 HA HN Hring Hstep Hne1)
      as [(Hz & -> & ->)|[Hone Hring1]]; [lia| |].
    + destruct (IH _ _ _ _ _ _ HA HN Hops Hring Hrest Hne2)
        as (j' & h' & c' & Hr' & Hsum & Heq); [lia|].
      exists j', h', c'. split; [done|]. split; [lia|done].
    + destruct (IH _ _ _ _ _ _ HA HN Hops Hring1 Hrest Hne2)
        as (j' & h' & c' & Hr' & Hsum & Heq).
      { rewrite length_app. cbn [length]. lia. }
      rewrite length_app in Hsum. cbn [length] in Hsum.
      exists j', h', c'. split; [done|]. split; [lia|]. cbn [app]. rewrite <- Heq.
      rewrite concat_app. cbn. by rewrite !app_nil_r.
  - assert (logged (OpDump :: ops) = logged ops) as -> by done.
    apply bind_inv_ret in Hstep as (t1 & d & l0 & t2 & Hd & Hret & ->).
    injection Hret as <- <-. rewrite app_nil_r in *.
    pose proof (ring_dump N B j handed cur l HA HN Hring) as Hdump.
    destruct handed as [|es handed'].
    + rewrite Hdump in Hd. injection Hd as <- <- <-.
      destruct (IH _ _ _ _ _ _ HA HN Hops Hring Hrest Hne2)
        as (j' & h' & c' & Hr' & Hsum & Heq); [lia|].
      exists j', h', c'. split; [done|]. split; [|done].
      change (notifies []) with 0. lia.
    + destruct Hdump as (l1' & Hdump & Hring1). rewrite Hdump in Hd.
      injection Hd as <- <- <-.
      rewrite (notifies_prints _ (prints_are_prints es)) in Hroom |- *.
      destruct (IH _ _ _ _ _ _ HA HN Hops Hring1 Hrest Hne2)
        as (j' & h' & c' & Hr' & Hsum & Heq).
      { cbn [length] in Hroom. lia. }
      cbn [length] in Hsum.
      exists j', h', c'. split; [done|]. split; [cbn [length]; lia|].
      rewrite printed_prints, <- app_assoc, <- Heq. cbn [concat].
      by rewrite <- !app_assoc, !fmap_app, <- !app_assoc.
Qed.

Lemma ring_flush_draining `{!Config} N B j handed cur l srv :
  0 < QUICKLOG_ALIGN → 1 ≤ N ≤ 255 → ring N B j handed cur l →
  LocalLogger.server l = Some srv →
  ∃ tr l' handed',
    LocalLogger.flush l = (tr, Ret (tt, l')) ∧ printed tr = [] ∧
    draining N B j handed' l' ∧ concat handed' = concat handed ++ cur.
Proof.
  intros HA HN Hring Hsrv.
  destruct (ring_facts N B j handed cur l HN Hring) as (Hk & Hcount & Hfull & HN0).
  destruct (ring_current N B j handed cur l Hring) as (b_cur & Hb & Hcur).
  destruct Hring as (bs_taken & bs_handed & b' & bs_free & Hbs & Hj & Hh & Hcur'
                     & Hfree & HnumN & Hlen & Hw & Hr & Hsem).
  pose proof (Forall2_length _ _ _ Hh) as Hlh.
  destruct (decide (EntryBuffer.m_pos b_cur = 0)) as [Hz|Hnz].
  - exists [], l, handed. split; [by apply (flush_run_empty l b_cur)|]. split; [done|].
    apply (arena_empty_iff B cur b_cur HA Hcur) in Hz as ->.
    split; [|by rewrite app_nil_r].
    exists bs_taken, bs_handed, (b' :: bs_free).
    split; [by rewrite Hbs, <- app_assoc|]. done.
  - exists [EvNotify], (advanced l), (handed ++ [cur]).
    split.
    { by rewrite (flush_run_advance l b_cur Hb Hnz), (nextIndex_run l Hfull HN0), Hsrv. }
    split; [done|]. split; [|rewrite concat_app; cbn; by rewrite app_nil_r].
    exists bs_taken, (bs_handed ++ [b']), bs_free. unfold advanced; cbn.
    split; [by rewrite Hbs, <- !app_assoc|]. split; [done|].
    split; [apply Forall2_app; [done|by apply Forall2_cons]|].
    split; [done|]. split; [done|].
    rewrite Hsem, length_app; cbn. f_equal.
    unfold uint8_t. rewrite Z.mod_small; lia.
Qed.

Lemma run_logger_ops_server `{!Config} ops : ∀ l tr l',
  run_logger_ops ops l = (tr, Ret (tt, l')) →
  LocalLogger.server l' = LocalLogger.server l.
Proof.
  induction ops as [|o ops IH]; intros l tr l' Hrun.
  - by injection Hrun as _ <-.
  - cbn [run_logger_ops] in Hrun.
    apply bind_inv_ret in Hrun as (tr1 & [] & l1 & tr2 & Hstep & Hrest & _).
    rewrite (IH _ _ _ Hrest).
    by apply run_logger_op_frame in Hstep as [bs [->|[[_ ->]|[_ ->]]]].
Qed.

(** X21.  Producer and consumer at work on the same logger, in the first
    lap of the ring.  On a fresh registered logger ([N] arenas,
    [1 <= N <= 255]) the producer's [log] and [flush] and the consumer's
    [dump] are called in any order.  If the calls returned, none invoked the
    error hook, and fewer than [N] arenas were handed over, then the records
    printed so far are, in order, the first of the records logged; and a
    [flush] followed by the consumer's drains prints the others, in order. *)
Theorem first_lap_prints_in_logged_order `{!Config}
    (N B : Z) (srv : nat) (ops : list logger_op)
    (tr : list event) (l : LocalLogger.t) (fuel : nat) :
  0 < QUICKLOG_ALIGN → 1 ≤ N ≤ 255 → 0 ≤ B ≤ PTRDIFF_MAX → Forall op_ok ops →
  run_logger_ops ops (LocalLogger.set_server (Some srv) (LocalLogger.init N B))
    = (tr, Ret (tt, l)) →
  no_errors tr → notifies tr < N → (Z.to_nat N < fuel)%nat →
  ∃ rest tr2 l2,
    logged ops = printed tr ++ rest ∧
    (LocalLogger.flush ;; drain fuel) l = (tr2, Ret (tt, l2)) ∧
    printed tr2 = rest.
Proof.
  intros HA HN HB Hops Hrun Hne Hlap Hfuel.
  destruct (ring_run_ops N B ops 0 [] [] _ tr l HA HN Hops
              (ring_init N B (Some srv) (proj1 HN) HB) Hrun Hne)
    as (j & handed & cur & Hring & _ & Heq); [cbn; lia|].
  cbn in Heq.
  pose proof (run_logger_ops_server ops _ _ _ Hrun) as Hsrv. cbn in Hsrv.
  destruct (ring_flush_draining N B j handed cur l srv HA HN Hring Hsrv)
    as (t1 & l1 & handed' & Hflush & Hp1 & Hdr & Hcat).
  pose proof (draining_length _ _ _ _ _ Hdr) as Hlen.
  destruct (drain_draining N B handed' j l1 fuel HA (proj2 HN) Hdr) as (l2 & Hdrain);
    [lia|].
  exists (LogEntry.values <$> (concat handed ++ cur)), (t1 ++ prints (concat handed')), l2.
  split; [done|]. split.
  - rewrite (bind_ret_run _ _ _ _ _ _ Hflush), Hdrain. reflexivity.
  - by rewrite printed_app, Hp1, printed_prints, Hcat.
Qed.

Lemma first_lap_prints_in_logged_order_witness :
  ∃ l tr2 l2,
    @run_logger_ops cfg_exits
      [OpLog class24 [1]; OpFlush; OpLog class24 [2]; OpDump; OpLog class24 [3]]
      (LocalLogger.set_server (Some 0%nat) (LocalLogger.init 3 64))
      = ([EvNotify; EvPrint [1]], Ret (tt, l)) ∧
    (@LocalLogger.flush cfg_exits ;; @drain cfg_exits 4) l = (tr2, Ret (tt, l2)) ∧
    [[1]; [2]; [3]] = [[1]] ++ printed tr2.
Proof.
  destruct (@run_logger_ops cfg_exits
              [OpLog class24 [1]; OpFlush; OpLog class24 [2]; OpDump; OpLog class24 [3]]
              (LocalLogger.set_server (Some 0%nat) (LocalLogger.init 3 64)))
    as [tr o] eqn:Hr.
  pose proof Hr as Hr'. vm_compute in Hr'. injection Hr' as <- <-.
  match type of Hr with
  | _ = (?tr, Ret (tt, ?l)) =>
      exists l;
      destruct (@first_lap_prints_in_logged_order cfg_exits 3 64 0%nat
                  [OpLog class24 [1]; OpFlush; OpLog class24 [2]; OpDump;
                   OpLog class24 [3]] tr l 4%nat)
        as (rest & tr2 & l2 & Heq & Hrun2 & Hrest)
  end.
  - reflexivity.
  - lia.
  - unfold PTRDIFF_MAX. lia.
  - repeat constructor; unfold class_ok; cbn; unfold PTRDIFF_MAX; lia.
  - exact Hr.
  - intros msg Hin. repeat (apply elem_of_cons in Hin as [Hin|Hin]; [discriminate Hin|]).
    by apply elem_of_nil in Hin.
  - vm_compute. reflexivity.
  - cbn. lia.
  - exists tr2, l2. split; [reflexivity|]. split; [exact Hrun2|].
    rewrite Hrest. exact Heq.
Defined.

(** X22.  [flush] twice is [flush] once, as long as the ring has room.  On
    a fresh registered logger, after calls of [log], [flush] and [dump] in any
    order that returned without invoking the error hook and handed over
    fewer than [N - 1] arenas, a second [flush] right after a [flush] does
    nothing: no hand-over, no notify, no event. *)
Theorem flush_twice_is_flush_once `{!Config}
    (N B : Z) (srv : nat) (ops : list logger_op)
    (tr : list event) (l : LocalLogger.t) :
  0 < QUICKLOG_ALIGN → 1 ≤ N ≤ 255 → 0 ≤ B ≤ PTRDIFF_MAX → Forall op_ok ops →
  run_logger_ops ops (LocalLogger.set_server (Some srv) (LocalLogger.init N B))
    = (tr, Ret (tt, l)) →
  no_errors tr → notifies tr + 1 < N →
  (LocalLogger.flush ;; LocalLogger.flush) l = LocalLogger.flush l.
Proof.
  intros HA HN HB Hops Hrun Hne Hlap.
  destruct (ring_run_ops N B ops 0 [] [] _ tr l HA HN Hops
              (ring_init N B (Some srv) (proj1 HN) HB) Hrun Hne)
    as (j & handed & cur & Hring & Hsum & _); [cbn; lia|].
  cbn in Hsum.
  pose proof (run_logger_ops_server ops _ _ _ Hrun) as Hsrv. cbn in Hsrv.
  destruct (ring_facts N B j handed cur l HN Hring) as (Hk & Hcount & Hfull & HN0).
  destruct (ring_current N B j handed cur l Hring) as (b_cur & Hb & Hcur).
  destruct (decide (EntryBuffer.m_pos b_cur = 0)) as [Hz|Hnz].
  - pose proof (flush_run_empty l b_cur Hb Hz) as Hflush.
    by rewrite (bind_ret_run _ _ _ _ _ _ Hflush), after_events_nil.
  - assert (LocalLogger.flush l = ([EvNotify], Ret (tt, advanced l))) as Hflush.
    { by rewrite (flush_run_advance l b_cur Hb Hnz), (nextIndex_run l Hfull HN0), Hsrv. }
    rewrite (bind_ret_run _ _ _ _ _ _ Hflush), Hflush.
    assert (ring N B j (handed ++ [cur]) [] (advanced l)) as Hring'
      by (apply ring_advanced; [done|done|lia]).
    destruct (ring_current _ _ _ _ _ _ Hring') as (b_n & Hb_n & (_ & _ & Hpos & _) & _).
    by rewrite (flush_run_empty (advanced l) b_n Hb_n Hpos).
Qed.

Lemma flush_twice_is_flush_once_witness :
  ∃ l, @run_logger_ops cfg_exits [OpLog class24 [1]; OpFlush; OpLog class24 [2]]
         (LocalLogger.set_server (Some 0%nat) (LocalLogger.init 3 64))
       = ([EvNotify], Ret (tt, l)) ∧
       (@LocalLogger.flush cfg_exits ;; @LocalLogger.flush cfg_exits) l
       = @LocalLogger.flush cfg_exits l.
Proof.
  destruct (@run_logger_ops cfg_exits [OpLog class24 [1]; OpFlush; OpLog class24 [2]]
              (LocalLogger.set_server (Some 0%nat) (LocalLogger.init 3 64)))
    as [tr o] eqn:Hr.
  pose proof Hr as Hr'. vm_compute in Hr'. injection Hr' as <- <-.
  eexists. split; [reflexivity|].
  refine (@flush_twice_is_flush_once cfg_exits 3 64 0%nat
            [OpLog class24 [1]; OpFlush; OpLog class24 [2]] _ _ _ _ _ _ Hr _ _).
  - reflexivity.
  - lia.
  - unfold PTRDIFF_MAX. lia.
  - repeat constructor; unfold class_ok; cbn; unfold PTRDIFF_MAX; lia.
  - intros msg Hin. repeat (apply elem_of_cons in Hin as [Hin|Hin]; [discriminate Hin|]).
    by apply elem_of_nil in Hin.
  - vm_compute. reflexivity.
Defined.

(** ** A logger that was not registered *)

(** X23.  A logger that was never registered fails at its first hand-over,
    and only there.  On a logger whose [server] pointer is null and that is
    not full, [flush] with a record in the current arena advances
    [writeIndex], increments [numPuts], and then invokes the error hook with
    the not-registered message instead of notifying; with the current arena
    empty it does nothing. *)
Theorem unregistered_logger_fails_at_hand_over `{!Config} (l : LocalLogger.t) :
  logger_ok l → LocalLogger.server l = None →
  logger_count l ≠ LocalLogger.numBuffers l →
  ∃ b, LocalLogger.buffers l !! Z.to_nat (LocalLogger.writeIndex l) = Some b ∧
       LocalLogger.flush l =
         if decide (EntryBuffer.m_pos b = 0) then ([], Ret (tt, l))
         else ([EvError "LocalLogger not registered to LogServer\n"],
               after_hook (advanced l)).
Proof.
  intros Hl Hsrv Hfull. destruct (logger_ok_lookup l Hl) as (b & Hb & _).
  exists b. split; [done|]. destruct (decide _) as [Hz|Hnz].
  - by apply (flush_run_empty l b).
  - rewrite (flush_run_advance l b Hb Hnz), nextIndex_run, Hsrv; [done|done|].
    destruct Hl. lia.
Qed.

Lemma unregistered_logger_fails_at_hand_over_witness :
  ∃ b, LocalLogger.buffers (LocalLogger.set_server None logger_arena0_filled)
         !! 0%nat = Some b ∧
       @LocalLogger.flush cfg_returns (LocalLogger.set_server None logger_arena0_filled) =
         if decide (EntryBuffer.m_pos b = 0)
         then ([], Ret (tt, LocalLogger.set_server None logger_arena0_filled))
         else ([EvError "LocalLogger not registered to LogServer\n"],
               Ret (tt, advanced (LocalLogger.set_server None logger_arena0_filled))).
Proof.
  apply (@unregistered_logger_fails_at_hand_over cfg_returns
           (LocalLogger.set_server None logger_arena0_filled)).
  - unfold logger_ok, logger_arena0_filled; cbn. split; [lia|]. split; [done|].
    split; [lia|]. repeat constructor; cbn; unfold PTRDIFF_MAX; lia.
  - reflexivity.
  - vm_compute. discriminate.
Defined.

(** ** The drain pass in the first lap *)

Lemma first_lap_dump `{!Config} l :
  0 < QUICKLOG_ALIGN → first_lap l →
  ∃ tr d l', LocalLogger.dump l = (tr, Ret (d, l')) ∧ first_lap l'.
Proof.
  intros HA (N & B & j & handed & cur & HN & Hring).
  pose proof (ring_dump N B j handed cur l HA HN Hring) as Hdump.
  destruct handed as [|es handed'].
  - exists [], false, l. split; [done|]. by exists N, B, j, [], cur.
  - destruct Hdump as (l' & Hdump & Hring'). exists (prints es), true, l'.
    split; [done|]. by exists N, B, (S j), handed', cur.
Qed.

Lemma dump_loggers_first_lap `{!Config} ixs : ∀ d w,
  0 < QUICKLOG_ALIGN → registry_ok w → Forall first_lap (LogServer.loggers w) →
  Forall (λ i, (i < Z.to_nat (LogServer.nLoggers (LogServer.server w)))%nat) ixs →
  ∃ tr d' w',
    LogServer.dump_loggers ixs d w = (tr, Ret (d', w')) ∧
    registry_ok w' ∧ Forall first_lap (LogServer.loggers w') ∧
    LogServer.server w' = LogServer.server w.
Proof.
  induction ixs as [|i ixs IH]; intros d w HA Hw Hlaps Hixs.
  { by exists [], d, w. }
  apply Forall_cons in Hixs as [Hi Hixs].
  pose proof Hw as (_ & _ & _ & Hslots).
  destruct (Hslots i Hi) as (a & l & Hslot & Hl & _).
  destruct (first_lap_dump l HA (Forall_lookup_1 _ _ _ _ Hlaps Hl))
    as (t1 & d1 & l' & Hdump & Hlap').
  set (w1 := LogServer.set_loggers (<[a := l']> (LogServer.loggers w)) w).
  assert (LogServer.at_logger a LocalLogger.dump w = (t1, Ret (d1, w1))) as Hat.
  { unfold LogServer.at_logger, zoom. by rewrite Hl, Hdump. }
  destruct (IH (d || d1) w1 HA) as (t2 & d' & w' & Hrest & Hw' & Hlaps' & Hsrv').
  - eapply registry_ok_update; [done|done|by eapply dump_keeps_server].
  - by apply Forall_insert.
  - done.
  - exists (t1 ++ t2), d', w'.
    cbn [LogServer.dump_loggers].
    rewrite (bind_ret_run _ _ _ _ _ _ (gets_run _ _)), after_events_nil, Hslot.
    rewrite (bind_ret_run _ _ _ _ _ _ Hat), Hrest. done.
Qed.

Lemma dumpAll_loop_first_lap `{!Config} fuel : ∀ w,
  0 < QUICKLOG_ALIGN → registry_ok w → Forall first_lap (LogServer.loggers w) →
  pending w < Z.of_nat fuel →
  ∃ tr w', LogServer.dumpAll_loop fuel w = (tr, Ret (tt, w')) ∧
           registry_ok w' ∧ Forall first_lap (LogServer.loggers w').
Proof.
  induction fuel as [|fuel IH]; intros w HA Hw Hlaps Hfuel.
  { pose proof (pending_nonneg w). lia. }
  destruct (dump_loggers_first_lap
              (seq 0 (Z.to_nat (LogServer.nLoggers (LogServer.server w)))) false w
              HA Hw Hlaps)
    as (t1 & d & w1 & Hd & Hw1 & Hlaps1 & _).
  { apply Forall_forall. intros i Hi%elem_of_seq. lia. }
  cbn [LogServer.dumpAll_loop].
  rewrite (bind_ret_run _ _ _ _ _ _ (gets_run _ _)), after_events_nil.
  rewrite (bind_ret_run _ _ _ _ _ _ Hd).
  pose proof (dump_loggers_frame _ _ _ _ _ _ Hd) as (_ & _ & Hle & Hlt).
  destruct d.
  - destruct (Hlt eq_refl) as [?|Hlt']; [done|].
    destruct (IH w1 HA Hw1 Hlaps1) as (t2 & w' & Hrest & Hw' & Hlaps'); [lia|].
    exists (t1 ++ t2), w'. by rewrite Hrest.
  - exists t1, w1. unfold after_events; cbn. by rewrite app_nil_r.
Qed.

(** X24.  The drain pass is safe while the loggers are in their first lap.
    With the registry in order and every logger in the first lap of its
    ring, a drain pass given more rounds than there are arenas pending
    returns: it indexes no arena outside an array, reads no record that is
    not there, and leaves every logger in its first lap and the registry in
    order. *)
Theorem drain_pass_returns_in_first_lap `{!Config} (fuel : nat) (w : LogServer.World) :
  0 < QUICKLOG_ALIGN → registry_ok w → Forall first_lap (LogServer.loggers w) →
  pending w < Z.of_nat fuel →
  ∃ tr w', LogServer._dumpAll fuel w = (tr, Ret (tt, w')) ∧
           registry_ok w' ∧ Forall first_lap (LogServer.loggers w').
Proof.
  intros HA Hw Hlaps Hfuel.
  destruct (dumpAll_loop_first_lap fuel w HA Hw Hlaps Hfuel)
    as (tr & w' & Hloop & Hw' & Hlaps').
  exists (EvLock :: tr ++ [EvUnlock]), w'. split; [|done].
  unfold LogServer._dumpAll. rewrite bind_run. cbn [Platform.lock emit].
  by rewrite (bind_ret_run _ _ _ _ _ _ Hloop).
Qed.

Lemma drain_pass_returns_in_first_lap_witness :
  ∃ tr w', @LogServer._dumpAll cfg_exits 2 world_one_pending = (tr, Ret (tt, w')) ∧
           registry_ok w' ∧ Forall (@first_lap cfg_exits) (LogServer.loggers w').
Proof.
  apply (@drain_pass_returns_in_first_lap cfg_exits 2 world_one_pending).
  - reflexivity.
  - unfold registry_ok, world_one_pending, SIZE_WIDTH; cbn.
    split; [lia|]. split; [lia|]. split; [done|].
    intros [|i] Hi; [|lia]. eexists _, _. split; [reflexivity|]. split; reflexivity.
  - repeat constructor.
    exists 2, 32, 0%nat, [[LogEntry.make class24 [1]]], [].
    split; [lia|].
    exists [], [EntryBuffer.mk 32 1 32
                  (obj_bytes (LogEntry.make class24 [1]) ++ replicate 8 Uninit)],
      (EntryBuffer.init 32), [].
    split; [reflexivity|]. split; [reflexivity|].
    assert (@arena cfg_exits 32 [] (EntryBuffer.init 32)) as Hfree.
    { split; [|by split].
      split; [apply buffer_ok_init; unfold PTRDIFF_MAX; lia|]. by cbn. }
    split.
    { repeat constructor; cbn; unfold PTRDIFF_MAX; lia. }
    split; [exact Hfree|]. split; [constructor|]. done.
  - vm_compute. reflexivity.
Defined.

(** ** How many records a logger holds *)

Lemma extent_replicate `{!Config} m e :
  extent (replicate m e) = Z.of_nat m * alignedSize (LogEntry.sizeof (LogEntry.vptr e)).
Proof. induction m as [|m IH]; [done|]. cbn [replicate extent]. rewrite IH. lia. Qed.

Lemma ring_log_fits `{!Config} N B j handed cur l c vs :
  0 < QUICKLOG_ALIGN → 1 ≤ N ≤ 255 → class_ok c → ring N B j handed cur l →
  extent cur + alignedSize (LogEntry.sizeof c) ≤ B →
  ∃ l', LocalLogger.log c vs l = ([], Ret (tt, l')) ∧
        ring N B j handed (cur ++ [LogEntry.make c vs]) l' ∧
        LocalLogger.server l' = LocalLogger.server l.
Proof.
  intros HA HN Hcl Hring Hfit.
  destruct (ring_facts N B j handed cur l HN Hring) as (Hk & Hcount & Hfull & HN0).
  destruct (ring_current N B j handed cur l Hring) as (b_cur & Hb & Hcur & Hsz & Hok).
  set (e := LogEntry.make c vs) in *.
  assert (entry_ok e) as He by (by apply entry_ok_make).
  destruct (arena_holds_push cur b_cur e HA Hok He Hcur) as (b' & Hrun & Hb' & Hsz').
  { destruct Hcur as (_ & _ & -> & _). rewrite Hsz. cbn. lia. }
  pose proof (at_buffer_run _ (EntryBuffer.pushElem e) l b_cur Hb) as Hat.
  rewrite Hrun in Hat. eexists. split; [exact (log_run_first c vs l _ _ Hfull Hat)|].
  split; [|done]. apply (ring_set_current N B j handed cur); [done|].
  split; [done|]. split; [congruence|].
  apply Forall_app. split; [done|]. by apply Forall_singleton.
Qed.

Lemma ring_log_rejected `{!Config} N B j handed cur l c vs :
  0 < QUICKLOG_ALIGN → class_ok c → ring N B j handed cur l →
  B < extent cur + alignedSize (LogEntry.sizeof c) →
  LocalLogger.at_buffer (LocalLogger.writeIndex l)
    (EntryBuffer.pushElem (LogEntry.make c vs)) l = ([], Ret (false, l)).
Proof.
  intros HA Hcl Hring Hno.
  destruct (ring_current N B j handed cur l Hring) as (b_cur & Hb & Hcur & Hsz & Hok).
  pose proof (arena_buffer_ok _ _ _ (conj Hcur (conj Hsz Hok))) as Hbok.
  rewrite (at_buffer_run _ _ _ _ Hb), (pushElem_no_fit b_cur _ HA Hbok).
  - by rewrite list_insert_id, set_buffers_id.
  - done.
  - destruct Hcur as (_ & _ & -> & _). rewrite Hsz. cbn. lia.
Qed.

Lemma ring_log_advances `{!Config} N B j handed cur l c vs srv :
  0 < QUICKLOG_ALIGN → 1 ≤ N ≤ 255 → class_ok c → ring N B j handed cur l →
  LocalLogger.server l = Some srv →
  B < extent cur + alignedSize (LogEntry.sizeof c) →
  alignedSize (LogEntry.sizeof c) ≤ B →
  Z.of_nat (j + length handed) + 1 < N →
  ∃ l', LocalLogger.log c vs l = ([EvNotify], Ret (tt, l')) ∧
        ring N B j (handed ++ [cur]) [LogEntry.make c vs] l' ∧
        LocalLogger.server l' = LocalLogger.server l.
Proof.
  intros HA HN Hcl Hring Hsrv Hno Hsmall Hroom.
  destruct (ring_facts N B j handed cur l HN Hring) as (Hk & Hcount & Hfull & HN0).
  pose proof (ring_log_rejected N B j handed cur l c vs HA Hcl Hring Hno) as Hat1.
  pose proof (nextIndex_run l Hfull HN0) as Hnext. rewrite Hsrv in Hnext.
  pose proof (ring_advanced N B j handed cur l HN Hring Hroom) as Hring'.
  destruct (ring_log_fits N B j (handed ++ [cur]) [] (advanced l) c vs HA HN Hcl Hring')
    as (l' & Hlog' & Hring'' & Hsrv'); [cbn; lia|].
  destruct (ring_facts _ _ _ _ _ _ HN Hring') as (_ & _ & Hfull' & _).
  destruct (ring_current _ _ _ _ _ _ Hring') as (b_n & Hb_n & Hn & Hszn & _).
  destruct (arena_holds_push [] b_n (LogEntry.make c vs) HA (Forall_nil_2 _)
              (entry_ok_make c vs Hcl) Hn) as (b' & Hrun & _).
  { destruct Hn as (_ & _ & -> & _). rewrite Hszn. cbn. lia. }
  pose proof (at_buffer_run _ (EntryBuffer.pushElem (LogEntry.make c vs))
                (advanced l) b_n Hb_n) as Hat2.
  rewrite Hrun in Hat2.
  rewrite (log_run_first c vs (advanced l) _ _ Hfull' Hat2) in Hlog'.
  injection Hlog' as <-.
  eexists. split; [exact (log_run_second c vs l _ _ _ _ _ _ _ Hfull Hat1 Hnext Hat2)|].
  split; [done|]. done.
Qed.

Lemma ring_log_overflows `{!Config} N B handed cur l c vs srv :
  0 < QUICKLOG_ALIGN → 1 ≤ N ≤ 255 → class_ok c → ring N B 0 handed cur l →
  LocalLogger.server l = Some srv →
  Z.of_nat (length handed) + 1 = N →
  Forall (λ es, B < extent es + alignedSize (LogEntry.sizeof c)) (handed ++ [cur]) →
  LocalLogger.log c vs l =
    ([EvNotify; EvError "Log entries bigger than buffer size\n"],
     after_hook (advanced l)).
Proof.
  intros HA HN Hcl Hring Hsrv Hlast Hall.
  destruct (ring_facts N B 0 handed cur l HN Hring) as (Hk & Hcount & Hfull & HN0).
  assert (B < extent cur + alignedSize (LogEntry.sizeof c)) as Hno.
  { pose proof (proj1 (Forall_app _ _ _) Hall) as [_ Hc].
    exact (proj1 (Forall_singleton _ _) Hc). }
  pose proof (ring_log_rejected N B 0 handed cur l c vs HA Hcl Hring Hno) as Hat1.
  pose proof (nextIndex_run l Hfull HN0) as Hnext. rewrite Hsrv in Hnext.
  destruct Hring as (bs_taken & bs_handed & b_cur & bs_free & Hbs & Hj & Hh & Hcur
                     & Hfree & HnumN & Hlen & Hw & Hr & Hsem).
  apply nil_length_inv in Hj as ->. cbn [app] in Hbs.
  assert (LocalLogger.writeIndex (advanced l) = 0) as Hw'.
  { unfold advanced; cbn. rewrite Hw, HnumN. cbn [Nat.add].
    by rewrite Hlast, Z_mod_same_full. }
  assert (∃ es b0, LocalLogger.buffers l !! 0%nat = Some b0 ∧ arena B es b0 ∧
                   B < extent es + alignedSize (LogEntry.sizeof c)) as (es & b0 & Hb0 & Ha0 & Hno0).
  { rewrite Hbs. destruct Hh as [|es b0 handed' bs_h Hb0 Hh'].
    - exists cur, b_cur. split; [done|]. by split.
    - exists es, b0. apply Forall_cons in Hall as [? _]. split; [done|]. by split. }
  assert (LocalLogger.at_buffer (LocalLogger.writeIndex (advanced l))
            (EntryBuffer.pushElem (LogEntry.make c vs)) (advanced l)
          = ([], Ret (false, advanced l))) as Hat2.
  { rewrite Hw'. rewrite (at_buffer_run 0 _ (advanced l) b0 Hb0).
    destruct Ha0 as (Hh0 & Hsz0 & Hok0).
    rewrite (pushElem_no_fit b0 _ HA (proj1 Hh0)); [| |].
    - change (LocalLogger.buffers (advanced l)) with (LocalLogger.buffers l).
      rewrite list_insert_id by done.
      by rewrite <- (set_buffers_id (advanced l)) at 2.
    - done.
    - destruct Hh0 as (_ & _ & -> & _). rewrite Hsz0. cbn. lia. }
  by rewrite (log_run_second c vs l _ _ _ _ _ _ _ Hfull Hat1 Hnext Hat2).
Qed.

Lemma no_errors_notify : no_errors [EvNotify].
Proof. intros msg Hin. apply list_elem_of_singleton in Hin. discriminate Hin. Qed.

Lemma aligned_pos `{!Config} (c : LogEntry.class) :
  0 < QUICKLOG_ALIGN → class_ok c → 0 < alignedSize (LogEntry.sizeof c).
Proof. intros HA Hcl. pose proof (alignedSize_class c HA Hcl). destruct Hcl. lia. Qed.

Section capacity.
Context `{!Config} (N B : Z) (srv : nat) (c : LogEntry.class) (vs : list Z) (q : nat).
Context (HA : 0 < QUICKLOG_ALIGN) (HN : 1 ≤ N ≤ 255) (Hcl : class_ok c).
Context (Hq : (1 ≤ q)%nat).
Context (Hlo : Z.of_nat q * alignedSize (LogEntry.sizeof c) ≤ B).
Context (Hhi : B < (Z.of_nat q + 1) * alignedSize (LogEntry.sizeof c)).

Lemma filled_room d m l : filled N B srv c vs q d m l → 0 ≤ room N q d m ∧ Z.of_nat d < N.
Proof.
  intros (Hring & _ & Hm).
  destruct (ring_facts _ _ _ _ _ _ HN Hring) as (Hk & _).
  rewrite length_replicate in Hk. unfold room. split; [nia|lia].
Qed.

Lemma filled_step d m l :
  filled N B srv c vs q d m l → 1 ≤ room N q d m →
  ∃ tr1 l1 d' m',
    LocalLogger.log c vs l = (tr1, Ret (tt, l1)) ∧ no_errors tr1 ∧
    filled N B srv c vs q d' m' l1 ∧ room N q d' m' = room N q d m - 1.
Proof.
  intros (Hring & Hsrv & Hm) Hroom. pose proof (aligned_pos c HA Hcl) as Ha.
  destruct (ring_facts _ _ _ _ _ _ HN Hring) as (Hk & _).
  rewrite length_replicate in Hk.
  assert (extent (replicate m (LogEntry.make c vs))
          = Z.of_nat m * alignedSize (LogEntry.sizeof c)) as Hext
    by apply extent_replicate.
  destruct (decide (m < q)%nat) as [Hlt|Hge].
  - destruct (ring_log_fits N B 0 _ _ l c vs HA HN Hcl Hring) as (l1 & Hlog & Hring1 & Hsrv1).
    { rewrite Hext. nia. }
    exists [], l1, d, (S m). split; [done|]. split; [apply no_errors_nil|].
    split; [|unfold room; lia].
    split; [by rewrite replicate_S_end|]. split; [congruence|lia].
  - assert (m = q) as -> by lia. unfold room in Hroom.
    destruct (ring_log_advances N B 0 _ _ l c vs srv HA HN Hcl Hring Hsrv)
      as (l1 & Hlog & Hring1 & Hsrv1).
    { rewrite Hext. lia. }
    { nia. }
    { rewrite length_replicate. nia. }
    exists [EvNotify], l1, (S d), 1%nat. split; [done|].
    split; [apply no_errors_notify|]. split; [|unfold room; lia].
    split; [by rewrite replicate_S_end|]. split; [congruence|lia].
Qed.

Lemma filled_overflow d m l :
  filled N B srv c vs q d m l → room N q d m = 0 →
  LocalLogger.log c vs l =
    ([EvNotify; EvError "Log entries bigger than buffer size\n"],
     after_hook (advanced l)).
Proof.
  intros (Hring & Hsrv & Hm) Hroom. pose proof (aligned_pos c HA Hcl) as Ha.
  destruct (ring_facts _ _ _ _ _ _ HN Hring) as (Hk & _).
  rewrite length_replicate in Hk. unfold room in Hroom.
  assert (m = q ∧ Z.of_nat d + 1 = N) as [-> Hd] by nia.
  apply (ring_log_overflows N B _ _ l c vs srv HA HN Hcl Hring Hsrv).
  - by rewrite length_replicate.
  - rewrite <- replicate_S_end. apply Forall_replicate.
    rewrite extent_replicate. cbn. lia.
Qed.

Lemma fill_ring k : ∀ d m l,
  filled N B srv c vs q d m l → Z.of_nat k ≤ room N q d m →
  ∃ tr l', log_all (replicate k (c, vs)) l = (tr, Ret (tt, l')) ∧ no_errors tr.
Proof.
  induction k as [|k IH]; intros d m l Hf Hk.
  { exists [], l. split; [done|apply no_errors_nil]. }
  destruct (filled_step d m l Hf) as (tr1 & l1 & d' & m' & Hlog & Hne1 & Hf1 & Hr1); [lia|].
  destruct (IH d' m' l1 Hf1) as (tr2 & l' & Hrest & Hne2); [lia|].
  exists (tr1 ++ tr2), l'. cbn [replicate log_all fst snd].
  rewrite (bind_ret_run _ _ _ _ _ _ Hlog), Hrest. split; [done|].
  by apply no_errors_app.
Qed.

Lemma overfill_ring k : ∀ d m l tr l',
  filled N B srv c vs q d m l → room N q d m < Z.of_nat k →
  log_all (replicate k (c, vs)) l = (tr, Ret (tt, l')) → ¬ no_errors tr.
Proof.
  induction k as [|k IH]; intros d m l tr l' Hf Hk Hrun.
  { destruct (filled_room d m l Hf). lia. }
  cbn [replicate log_all fst snd] in Hrun.
  apply bind_inv_ret in Hrun as (tr1 & [] & l1 & tr2 & Hlog & Hrest & ->).
  rewrite no_errors_app. intros [Hne1 Hne2].
  destruct (filled_room d m l Hf) as [Hr0 _].
  destruct (decide (room N q d m = 0)) as [Hz|Hnz].
  - rewrite (filled_overflow d m l Hf Hz) in Hlog. injection Hlog as <- _.
    apply (Hne1 "Log entries bigger than buffer size\n").
    apply elem_of_cons. right. apply elem_of_cons. by left.
  - destruct (filled_step d m l Hf) as (t1 & l1' & d' & m' & Hlog' & _ & Hf1 & Hr1); [lia|].
    rewrite Hlog' in Hlog. injection Hlog as <- <-.
    apply (IH d' m' l1' tr2 l' Hf1); [lia|done|done].
Qed.

End capacity.

(** X25.  How many records a logger holds.  On a fresh registered logger
    of [N] arenas of [B] bytes ([1 <= N <= 255]) that the consumer does not
    drain, [k] records of one class, of aligned size [a <= B], can be logged
    without the error hook being invoked exactly when
    [k <= N * floor(B / a)]. *)
Theorem logger_holds_N_arenas_of_records `{!Config}
    (N B : Z) (srv : nat) (c : LogEntry.class) (vs : list Z) (k : nat) :
  0 < QUICKLOG_ALIGN → 1 ≤ N ≤ 255 → 0 ≤ B ≤ PTRDIFF_MAX → class_ok c →
  alignedSize (LogEntry.sizeof c) ≤ B →
  (∃ tr l, log_all (replicate k (c, vs))
             (LocalLogger.set_server (Some srv) (LocalLogger.init N B))
           = (tr, Ret (tt, l)) ∧ no_errors tr)
  ↔ Z.of_nat k ≤ N * (B / alignedSize (LogEntry.sizeof c)).
Proof.
  intros HA HN HB Hcl Hsmall.
  pose proof (aligned_pos c HA Hcl) as Ha.
  set (a := alignedSize (LogEntry.sizeof c)) in *.
  pose proof (Z.mul_div_le B a Ha) as Hlo.
  pose proof (Z.mul_succ_div_gt B a Ha) as Hhi.
  assert (1 ≤ B / a) as Hq1 by (apply Z.div_le_lower_bound; lia).
  set (q := Z.to_nat (B / a)).
  assert (Z.of_nat q = B / a) as Hqz by (unfold q; lia).
  assert (filled N B srv c vs q 0 0
            (LocalLogger.set_server (Some srv) (LocalLogger.init N B))) as Hf.
  { split; [|split; [done|lia]]. apply ring_init; [lia|done]. }
  assert (room N q 0 0 = N * (B / a)) as Hroom by (unfold room; lia).
  assert (1 ≤ q)%nat as Hq by lia.
  assert (Z.of_nat q * a ≤ B) as Hlo' by lia.
  assert (B < (Z.of_nat q + 1) * a) as Hhi' by lia.
  split.
  - intros (tr & l & Hrun & Hne).
    destruct (decide (Z.of_nat k ≤ N * (B / a))) as [|Hgt]; [done|].
    exfalso.
    apply (overfill_ring N B srv c vs q HA HN Hcl Hq Hlo' Hhi' k 0 0 _ tr l Hf);
      [lia|done|done].
  - intros Hk.
    apply (fill_ring N B srv c vs q HA HN Hcl Hq Hlo' Hhi' k 0 0 _ Hf). lia.
Qed.

Lemma logger_holds_N_arenas_of_records_witness :
  (∃ tr l, @log_all cfg_returns (replicate 4 (class24, [7]))
             (LocalLogger.set_server (Some 0%nat) (LocalLogger.init 2 64))
           = (tr, Ret (tt, l)) ∧ no_errors tr)
  ↔ Z.of_nat 4 ≤ 2 * (64 / @alignedSize cfg_returns (LogEntry.sizeof class24)).
Proof.
  apply (@logger_holds_N_arenas_of_records cfg_returns 2 64 0%nat class24 [7] 4).
  - reflexivity.
  - lia.
  - unfold PTRDIFF_MAX. lia.
  - unfold class_ok; cbn; unfold PTRDIFF_MAX; lia.
  - vm_compute. discriminate.
Defined.

(** ** The hand-over that fills the ring *)

(** X26.  [log] does not keep off an arena that is handed over and not yet
    drained when its own hand-over fills the ring.  In the first lap with
    nothing drained yet ([readIndex = 0]), all arenas but the current one
    handed over, a record that does not fit the current arena makes
    [nextIndex] hand that one over too ([full()] is tested before the
    [put], so the call is not refused), [writeIndex] wraps to 0, and the
    record, if arena 0 has room for it, is appended there.  The call
    returns with one notify and no error; [writeIndex = readIndex = 0] and
    all [N] arenas count as full.  The consumer's drains then print the
    record right after those of arena 0, before the records of the other
    arenas, which were logged before it. *)
Theorem log_filling_the_ring_writes_undrained_arena `{!Config}
    (N B : Z) (h0 : list LogEntry.t) (handed : list (list LogEntry.t))
    (cur : list LogEntry.t) (l : LocalLogger.t)
    (c : LogEntry.class) (vs : list Z) (srv : nat) (fuel : nat) :
  0 < QUICKLOG_ALIGN → 1 ≤ N ≤ 255 → class_ok c →
  ring N B 0 (h0 :: handed) cur l → LocalLogger.server l = Some srv →
  Z.of_nat (length handed) + 2 = N →
  B < extent cur + alignedSize (LogEntry.sizeof c) →
  extent h0 + alignedSize (LogEntry.sizeof c) ≤ B →
  (Z.to_nat N < fuel)%nat →
  ∃ l' l2,
    LocalLogger.log c vs l = ([EvNotify], Ret (tt, l')) ∧
    LocalLogger.writeIndex l' = 0 ∧ LocalLogger.readIndex l' = 0 ∧
    logger_count l' = N ∧
    drain fuel l'
      = (prints (h0 ++ LogEntry.make c vs :: concat handed ++ cur), Ret (tt, l2)).
Proof.
  intros HA HN Hcl Hring Hsrv Hlast Hno Hfit Hfuel.
  destruct (ring_facts N B 0 _ cur l HN Hring) as (Hk & Hcount & Hfull & HN0).
  pose proof (ring_log_rejected N B 0 _ cur l c vs HA Hcl Hring Hno) as Hat1.
  pose proof (nextIndex_run l Hfull HN0) as Hnext. rewrite Hsrv in Hnext.
  destruct Hring as (bs_taken & bs_handed & b_cur & bs_free & Hbs & Hj & Hh & Hcur
                     & Hfree & HnumN & Hlen & Hw & Hr & Hsem).
  apply nil_length_inv in Hj as ->. cbn [app] in Hbs.
  apply Forall2_cons_inv_l in Hh as (b0 & bs_h & (Hb0 & Hsz0 & Hok0) & Hh & ->).
  pose proof (Forall2_length _ _ _ Hh) as Hlh.
  assert (bs_free = []) as ->.
  { rewrite Hbs, !length_app in Hlen. cbn [length] in Hlen.
    apply nil_length_inv. lia. }
  cbn [length Nat.add] in Hw, Hsem.
  assert (LocalLogger.writeIndex (advanced l) = 0) as Hw'.
  { unfold advanced; cbn. rewrite Hw, HnumN.
    replace (Z.of_nat (S (length handed)) + 1) with N by lia.
    by rewrite Z_mod_same_full. }
  assert (LocalLogger.buffers l !! 0%nat = Some b0) as Hlk by (by rewrite Hbs).
  set (e := LogEntry.make c vs) in *.
  assert (entry_ok e) as He by (by apply entry_ok_make).
  destruct (arena_holds_push h0 b0 e HA Hok0 He Hb0) as (b' & Hrun & Hb' & Hsz').
  { destruct Hb0 as (_ & _ & -> & _). rewrite Hsz0. cbn. lia. }
  assert (LocalLogger.at_buffer (LocalLogger.writeIndex (advanced l))
            (EntryBuffer.pushElem e) (advanced l)
          = ([], Ret (true, LocalLogger.set_buffers
                              (<[0%nat := b']> (LocalLogger.buffers l)) (advanced l))))
    as Hat2.
  { rewrite Hw'. rewrite (at_buffer_run 0 _ (advanced l) b0 Hlk). by rewrite Hrun. }
  pose proof (log_run_second c vs l _ _ _ _ _ _ _ Hfull Hat1 Hnext Hat2) as Hlog.
  cbn [app] in Hlog.
  set (l' := LocalLogger.set_buffers (<[0%nat := b']> (LocalLogger.buffers l))
               (advanced l)) in *.
  assert (LocalLogger.buffersFull l' = semaphore.mk N 0) as Hsem'.
  { unfold l', advanced; cbn. rewrite Hsem; cbn. f_equal.
    unfold uint8_t. rewrite Z.mod_small; lia. }
  assert (draining N B 0 ((h0 ++ [e]) :: handed ++ [cur]) l') as Hdr.
  { exists [], (b' :: bs_h ++ [b_cur]), [].
    split.
    { unfold l'; cbn. rewrite Hbs. cbn. by rewrite app_nil_r. }
    split; [done|]. split.
    { constructor.
      - split; [done|]. split; [congruence|].
        apply Forall_app. split; [done|]. by apply Forall_singleton.
      - apply Forall2_app; [done|]. constructor; [done|constructor]. }
    split; [unfold l'; cbn; by rewrite length_insert|].
    split; [unfold l', advanced; cbn; done|].
    rewrite Hsem'. cbn [length Nat.add]. rewrite length_app. cbn [length].
    f_equal. lia. }
  destruct (drain_draining N B _ 0 l' fuel HA (proj2 HN) Hdr) as (l2 & Hdrain).
  { cbn [length]. rewrite length_app. cbn [length]. lia. }
  exists l', l2. split; [exact Hlog|]. split; [exact Hw'|].
  split; [unfold l', advanced; cbn; by rewrite Hr|].
  split.
  { unfold logger_count. rewrite Hsem'. unfold sem_count, uint8_t; cbn.
    rewrite Z.sub_0_r, Z.mod_small; lia. }
  rewrite Hdrain. unfold prints. cbn [concat].
  by rewrite concat_app, <- !app_assoc; cbn; rewrite app_nil_r.
Qed.

Lemma log_filling_the_ring_writes_undrained_arena_witness :
  @run_logger_ops cfg_exits [OpLog class32 [1]; OpLog class48 [2]] logger_2x64
    = ([EvNotify], Ret (tt, logger_ring_nearly_full)) ∧
  ∃ l' l2,
    @LocalLogger.log cfg_exits class32 [3] logger_ring_nearly_full
      = ([EvNotify], Ret (tt, l')) ∧
    LocalLogger.writeIndex l' = 0 ∧ LocalLogger.readIndex l' = 0 ∧
    logger_count l' = 2 ∧
    @drain cfg_exits 3 l' = ([EvPrint [1]; EvPrint [3]; EvPrint [2]], Ret (tt, l2)).
Proof.
  split; [vm_compute; reflexivity|].
  apply (@log_filling_the_ring_writes_undrained_arena cfg_exits 2 64
           [LogEntry.make class32 [1]] [] [LogEntry.make class48 [2]]
           logger_ring_nearly_full class32 [3] 0%nat 3%nat).
  - reflexivity.
  - lia.
  - unfold class_ok; cbn; unfold PTRDIFF_MAX; lia.
  - exists [],
      [EntryBuffer.mk 64 1 32
         (obj_bytes (LogEntry.make class32 [1]) ++ replicate 32 Uninit)],
      (EntryBuffer.mk 64 1 48
         (obj_bytes (LogEntry.make class48 [2]) ++ replicate 16 Uninit)), [].
    split; [reflexivity|]. split; [reflexivity|].
    split.
    { repeat constructor; cbn; unfold PTRDIFF_MAX; lia. }
    split.
    { repeat constructor; cbn; unfold PTRDIFF_MAX; lia. }
    split; [constructor|]. done.
  - reflexivity.
  - reflexivity.
  - vm_compute. reflexivity.
  - vm_compute. discriminate.
  - cbn. lia.
Defined.

(** ** Records are printed in the order submitted *)





(** ** Producer and consumer write apart *)

(** X10.  What the producer's calls and the consumer's call write in a
    logger.  In every state, a [log] or [flush] that returns leaves
    [readIndex] and [numGets] alone, and [log] changes no arena but those at
    the old and the new [writeIndex]; a [dump] that returns leaves
    [writeIndex] and [numPuts] alone and changes no arena but the one at
    [readIndex]; none of them changes the [server] pointer.  While the
    logger is in the first lap of its ring and one more hand-over would not
    fill it, no arena is written by both sides: of a [log] and a [dump]
    called in the same state, at least one leaves each arena as it was.
    (At the hand-over that fills the ring the arena at the new [writeIndex]
    can be the one at [readIndex].) *)
Theorem producer_and_consumer_write_apart `{!Config} :
  (∀ c vs l tr l', LocalLogger.log c vs l = (tr, Ret (tt, l')) →
     LocalLogger.readIndex l' = LocalLogger.readIndex l ∧
     semaphore.numGets (LocalLogger.buffersFull l')
       = semaphore.numGets (LocalLogger.buffersFull l) ∧
     LocalLogger.server l' = LocalLogger.server l ∧
     ∀ i, i ≠ Z.to_nat (LocalLogger.writeIndex l) →
          i ≠ Z.to_nat (LocalLogger.writeIndex l') →
          LocalLogger.buffers l' !! i = LocalLogger.buffers l !! i) ∧
  (∀ l tr l', LocalLogger.flush l = (tr, Ret (tt, l')) →
     LocalLogger.readIndex l' = LocalLogger.readIndex l ∧
     semaphore.numGets (LocalLogger.buffersFull l')
       = semaphore.numGets (LocalLogger.buffersFull l) ∧
     LocalLogger.server l' = LocalLogger.server l ∧
     LocalLogger.buffers l' = LocalLogger.buffers l) ∧
  (∀ l tr d l', LocalLogger.dump l = (tr, Ret (d, l')) →
     LocalLogger.writeIndex l' = LocalLogger.writeIndex l ∧
     semaphore.numPuts (LocalLogger.buffersFull l')
       = semaphore.numPuts (LocalLogger.buffersFull l) ∧
     LocalLogger.server l' = LocalLogger.server l ∧
     ∀ i, i ≠ Z.to_nat (LocalLogger.readIndex l) →
          LocalLogger.buffers l' !! i = LocalLogger.buffers l !! i) ∧
  (∀ N B j handed cur l c vs tr l' tr2 d l2,
     1 ≤ N ≤ 255 → ring N B j handed cur l →
     Z.of_nat (j + length handed) + 1 < N →
     LocalLogger.log c vs l = (tr, Ret (tt, l')) →
     LocalLogger.dump l = (tr2, Ret (d, l2)) →
     ∀ i, LocalLogger.buffers l' !! i = LocalLogger.buffers l !! i ∨
          LocalLogger.buffers l2 !! i = LocalLogger.buffers l !! i).
Proof.
  split; [intros c vs l tr l'; apply log_touches|].
  split; [intros l tr l'; apply flush_touches|].
  split; [intros l tr d l'; apply dump_touches|].
  intros N B j handed cur l c vs tr l' tr2 d l2 HN Hring Hroom Hlog Hdump i.
  destruct (ring_facts N B j handed cur l HN Hring) as (Hk & Hcount & _).
  destruct handed as [|es handed'].
  { right. rewrite (dump_run_idle l Hcount) in Hdump. by injection Hdump as _ _ <-. }
  destruct (decide (i = Z.to_nat (LocalLogger.readIndex l))) as [->|Hi].
  2:{ right. by apply (dump_touches l tr2 d l2 Hdump). }
  left.
  assert (LocalLogger.writeIndex l = Z.of_nat (j + length (es :: handed')) ∧
          LocalLogger.readIndex l = Z.of_nat j ∧
          LocalLogger.numBuffers l = N) as (Hw & Hr & HnumN).
  { by destruct Hring as (? & ? & ? & ? & _ & _ & _ & _ & _ & ? & _ & ? & ? & _). }
  cbn [length] in *.
  apply (log_touches c vs l tr l' Hlog).
  - rewrite Hw, Hr. lia.
  - destruct (log_writeIndex c vs l tr l' Hlog) as [->| ->].
    + rewrite Hw, Hr. lia.
    + unfold advanced; cbn. rewrite Hw, Hr, HnumN.
      rewrite Z.mod_small by lia. unfold uint8_t. rewrite Z.mod_small; lia.
Qed.

Lemma producer_and_consumer_write_apart_witness :
  ∃ l' l2,
    @LocalLogger.log cfg_exits class24 [2] logger_3x32_arena0_handed
      = ([], Ret (tt, l')) ∧
    @LocalLogger.dump cfg_exits logger_3x32_arena0_handed
      = ([EvPrint [1]], Ret (true, l2)) ∧
    ∀ i, LocalLogger.buffers l' !! i
           = LocalLogger.buffers logger_3x32_arena0_handed !! i ∨
         LocalLogger.buffers l2 !! i
           = LocalLogger.buffers logger_3x32_arena0_handed !! i.
Proof.
  destruct (@LocalLogger.log cfg_exits class24 [2] logger_3x32_arena0_handed)
    as [tr o] eqn:Hlog.
  pose proof Hlog as Hlog'. vm_compute in Hlog'. injection Hlog' as <- <-.
  destruct (@LocalLogger.dump cfg_exits logger_3x32_arena0_handed)
    as [tr2 o2] eqn:Hdump.
  pose proof Hdump as Hdump'. vm_compute in Hdump'. injection Hdump' as <- <-.
  eexists _, _. split; [reflexivity|]. split; [reflexivity|].
  refine (proj2 (proj2 (proj2 (@producer_and_consumer_write_apart cfg_exits)))
            3 32 0%nat [[LogEntry.make class24 [1]]] [] _ _ _ _ _ _ _ _ _ _ _
            Hlog Hdump).
  - lia.
  - exists [],
      [EntryBuffer.mk 32 1 32
         (obj_bytes (LogEntry.make class24 [1]) ++ replicate 8 Uninit)],
      (EntryBuffer.init 32), [EntryBuffer.init 32].
    split; [reflexivity|]. split; [reflexivity|].
    assert (@arena cfg_exits 32 [] (EntryBuffer.init 32)) as Hfree.
    { split; [|by split].
      split; [apply buffer_ok_init; unfold PTRDIFF_MAX; lia|]. by cbn. }
    split.
    { repeat constructor; cbn; unfold PTRDIFF_MAX; lia. }
    split; [exact Hfree|]. split; [by repeat constructor|]. done.
  - cbn. lia.
Defined.
